(** * spa_anim2D: keyframe and material-palette helpers

    A shallow embedding of the pure-logic helpers of the add-on
    ([animation/core.py], [animation/ops.py], [materials/core.py],
    [materials/ui.py]) and the properties stated about them.

    Host objects are mutable and compared by identity.  Grease pencil frames
    live in a store indexed by references; layers hold references, as the
    host collections do.  Python exceptions are results of their own.  An
    assignment to an integer property of the host (a frame number, the
    current frame of the scene) raises ValueError for a value that is no C
    int, and the host keeps the value within the range of the property. *)

From Stdlib Require Import String Ascii.
From Stdlib Require Import ZArith List Bool Lia Arith.
From Stdlib Require Import Sorting.Sorted Sorting.Permutation.
From Stdlib Require Import Floats.SpecFloat.
Import ListNotations.
Open Scope Z_scope.

(** ** Python outcomes *)

Inductive exn : Type :=
| IndexError
| KeyError
| ValueError
| AttributeError
| TypeError.

(** What running a function gives: a value, a raised exception, or a loop
    bound that was exhausted (shown below never to happen). *)
Inductive outcome (A : Type) : Type :=
| Ok (a : A)
| Raise (e : exn)
| OutOfFuel.
Arguments Ok {A} a.
Arguments Raise {A} e.
Arguments OutOfFuel {A}.

Definition bind {A B} (m : outcome A) (k : A -> outcome B) : outcome B :=
  match m with
  | Ok a => k a
  | Raise e => Raise e
  | OutOfFuel => OutOfFuel
  end.

Notation "x <- m ;; k" := (bind m (fun x => k))
  (at level 61, m at next level, right associativity).

(** [l[i]] for a non-negative index. *)
Definition getitem {A} (l : list A) (i : nat) : outcome A :=
  match nth_error l i with
  | Some a => Ok a
  | None => Raise IndexError
  end.

(** ** Grease pencil data (animation/core.py) *)

Inductive KeyframeType : Type :=
| KEYFRAME
| EXTREME
| BREAKDOWN
| JITTER
| MOVING_HOLD.

Record GPencilFrame : Type := mkFrame {
  frame_number : Z;
  frame_select : bool;
  frame_tag : bool;
  keyframe_type : KeyframeType
}.

(** A reference to a frame object, and the store of frame objects. *)
Definition fref : Type := nat.
Definition fstore : Type := fref -> GPencilFrame.

Record GPencilLayer : Type := mkLayer {
  frames : list fref;
  lock : bool;
  layer_select : bool;
  hide : bool
}.

(** [GPencilFlippingSettings] (animation/ops.py). *)
Inductive LayerMode : Type :=
| ACTIVE
| VISIBLE.

Record GPencilFlippingSettings : Type := mkFlipping {
  use_filter : bool;
  keyframe_types_filter : list bool;
  layer_mode : LayerMode;
  loop : bool;
  use_preview_range : bool
}.

(** A reference to a material datablock ([Material.as_pointer()]). *)
Definition mref : Type := nat.

(** The grease pencil datablock: [gp.layers] with [gp.layers.active] given
    by its index, when there is an active layer; the properties the add-on
    registers on it; its material slots (an empty slot is [None]) and the
    custom property ["material_palette_str"], when it is set. *)
Record GreasePencil : Type := mkGP {
  layers : list GPencilLayer;
  active_index : option nat;
  flipping_settings : GPencilFlippingSettings;
  materials : list (option mref);
  material_palette_str : option string
}.

(** The frame number of the object behind a reference. *)
Definition fnum (h : fstore) (r : fref) : Z := frame_number (h r).

(** *** gp_compute_list_of_frames_to_duplicate *)

(** The first [while]: skip the targets before the first key. *)
Fixpoint skip_before_first (fuel : nat) (frame_numbers : list Z) (first : Z)
    (i : nat) : outcome nat :=
  match fuel with
  | O => OutOfFuel
  | S fuel' =>
      t <- getitem frame_numbers i ;;
      if t <? first
      then skip_before_first fuel' frame_numbers first (S i)
      else Ok i
  end.

(** The second [while], on the indices [i] and [j]. *)
Fixpoint duplicate_loop (fuel : nat) (h : fstore) (gpl_frames : list fref)
    (frame_numbers : list Z) (i j : nat) (new_frames_list : list (fref * Z))
    : outcome (list (fref * Z)) :=
  match fuel with
  | O => OutOfFuel
  | S fuel' =>
      if (i <? length frame_numbers)%nat then
        target <- getitem frame_numbers i ;;
        fj <- getitem gpl_frames j ;;
        let current_key := fnum h fj in
        if target =? current_key then
          duplicate_loop fuel' h gpl_frames frame_numbers (S i) j new_frames_list
        else if (j + 1 <? length gpl_frames)%nat then
          fj1 <- getitem gpl_frames (j + 1) ;;
          let next_key := fnum h fj1 in
          if target <? next_key then
            duplicate_loop fuel' h gpl_frames frame_numbers (S i) j
              (new_frames_list ++ [(fj, target)])
          else
            duplicate_loop fuel' h gpl_frames frame_numbers i (S j)
              new_frames_list
        else
          duplicate_loop fuel' h gpl_frames frame_numbers (S i) j
            (new_frames_list ++ [(fj, target)])
      else Ok new_frames_list
  end.

Definition gp_compute_list_of_frames_to_duplicate (h : fstore)
    (gpl : GPencilLayer) (frame_numbers : list Z) : outcome (list (fref * Z)) :=
  if (length (frames gpl) =? 0)%nat then Ok []
  else
    f0 <- getitem (frames gpl) 0 ;;
    i <- skip_before_first (S (length frame_numbers)) frame_numbers (fnum h f0) 0 ;;
    duplicate_loop (S (length frame_numbers + length (frames gpl))) h
      (frames gpl) frame_numbers i 0 [].

(** The frame numbers of a layer's keys, in the layer's order. *)
Definition layer_keys (h : fstore) (gpl : GPencilLayer) : list Z :=
  map (fnum h) (frames gpl).

(** Is there a key of the layer at frame [t]? *)
Definition has_key_at (h : fstore) (gpl : GPencilLayer) (t : Z) : bool :=
  existsb (fun r => fnum h r =? t) (frames gpl).

(** [r] is the key visible at [t]: a key of the layer at or before [t], with
    no key of the layer after it that is at or before [t]. *)
Definition visible_at (h : fstore) (gpl : GPencilLayer) (t : Z) (r : fref)
    : Prop :=
  In r (frames gpl) /\ fnum h r <= t /\
  forall g, In g (frames gpl) -> fnum h g <= t -> fnum h g <= fnum h r.

(** *** Layer and frame traits *)

(** [enum.Flag] values are bit masks: [auto()] numbers the members 1, 2, 4. *)
Definition LayerTraits : Type := Z.
Definition LayerTraits_NONE : LayerTraits := 0.
Definition LayerTraits_ACTIVE : LayerTraits := 1.
Definition LayerTraits_UNLOCKED : LayerTraits := 2.
Definition LayerTraits_SELECTED : LayerTraits := 4.

Definition FrameTraits : Type := Z.
Definition FrameTraits_NONE : FrameTraits := 0.
Definition FrameTraits_SELECTED : FrameTraits := 1.
Definition FrameTraits_TAG : FrameTraits := 2.

(** [member in flags] of [enum.Flag]. *)
Definition flag_in (member flags : Z) : bool :=
  Z.land member flags =? member.

Definition layer_options_to_traits (active unlocked selected : bool)
    : LayerTraits :=
  let traits := LayerTraits_NONE in
  let traits := if active then Z.lor traits LayerTraits_ACTIVE else traits in
  let traits := if unlocked then Z.lor traits LayerTraits_UNLOCKED else traits in
  let traits := if selected then Z.lor traits LayerTraits_SELECTED else traits in
  traits.

Definition frame_options_to_traits (selected onion_tag : bool) : FrameTraits :=
  let traits := FrameTraits_NONE in
  let traits := if selected then Z.lor traits FrameTraits_SELECTED else traits in
  let traits := if onion_tag then Z.lor traits FrameTraits_TAG else traits in
  traits.

(** *** get_gp_layers, get_gp_keyframes *)

Fixpoint enumerate_from {A} (n : nat) (l : list A) : list (nat * A) :=
  match l with
  | [] => []
  | x :: l' => (n, x) :: enumerate_from (S n) l'
  end.

Definition enumerate {A} (l : list A) : list (nat * A) := enumerate_from 0 l.

(** [layer == gp.layers.active] for the layer at index [i] of [gp.layers]. *)
Definition is_active_layer (gp : GreasePencil) (i : nat) : bool :=
  match active_index gp with
  | Some a => (i =? a)%nat
  | None => false
  end.

(** The condition of the comprehension of [get_gp_layers]. *)
Definition layer_matches (gp : GreasePencil) (layer_filter : LayerTraits)
    (i : nat) (layer : GPencilLayer) : bool :=
  (negb (flag_in LayerTraits_ACTIVE layer_filter) || is_active_layer gp i)
  && (negb (flag_in LayerTraits_UNLOCKED layer_filter) || negb (lock layer))
  && (negb (flag_in LayerTraits_SELECTED layer_filter) || layer_select layer).

Definition get_gp_layers (gp : GreasePencil) (layer_filter : LayerTraits)
    : list GPencilLayer :=
  map snd
    (filter (fun il => layer_matches gp layer_filter (fst il) (snd il))
       (enumerate (layers gp))).

(** The condition of the comprehension of [get_gp_keyframes]. *)
Definition frame_matches (h : fstore) (frame_filter : FrameTraits)
    (frame_min frame_max : Z) (f : fref) : bool :=
  ((frame_min <=? fnum h f) && (fnum h f <=? frame_max))
  && (negb (flag_in FrameTraits_SELECTED frame_filter) || frame_select (h f))
  && (negb (flag_in FrameTraits_TAG frame_filter) || frame_tag (h f)).

(** [sorted(l, key=key)]: the sort is stable, so its result is the one of a
    stable insertion sort.  With [reverse=True] equal keys keep their order
    too: it is the stable sort on the opposite keys. *)
Fixpoint insert_by {A} (key : A -> Z) (x : A) (l : list A) : list A :=
  match l with
  | [] => [x]
  | y :: l' => if key x <=? key y then x :: y :: l' else y :: insert_by key x l'
  end.

Definition sorted {A} (key : A -> Z) (reverse : bool) (l : list A) : list A :=
  fold_right (insert_by (fun x => if reverse then - key x else key x)) [] l.

Definition sys_maxsize : Z := 2 ^ 63 - 1.

Definition get_gp_keyframes (h : fstore) (gp : GreasePencil)
    (layer_filter : LayerTraits) (frame_filter : FrameTraits)
    (frame_min frame_max : Z) : list fref :=
  let keyframes :=
    fold_left
      (fun keyframes layer =>
         keyframes ++
         filter (frame_matches h frame_filter frame_min frame_max) (frames layer))
      (get_gp_layers gp layer_filter) [] in
  sorted (fnum h) false keyframes.

(** *** shift_keyframes, shift_gp_keyframes *)

(** [min(l, key=key)]: the first element with the least key. *)
Definition py_min_by {A} (key : A -> Z) (l : list A) : outcome A :=
  match l with
  | [] => Raise ValueError
  | x :: l' => Ok (fold_left (fun m y => if key y <? key m then y else m) l' x)
  end.

(** The host's limits on an integer property: the value assigned must be a
    C int, and a frame number is kept within [-MAXFRAME, MAXFRAME]. *)
Definition INT_MIN : Z := - 2 ^ 31.
Definition INT_MAX : Z := 2 ^ 31 - 1.
Definition MAXFRAME : Z := 1048574.

(** [keyframe.frame_number = n] on the object behind [r]: the host raises
    ValueError when [n] is no C int, and stores the nearest frame number
    of its range otherwise. *)
Definition set_frame_number (h : fstore) (r : fref) (n : Z) : outcome fstore :=
  if (n <? INT_MIN) || (INT_MAX <? n) then Raise ValueError
  else
    Ok (fun r' =>
          if (r' =? r)%nat
          then mkFrame (Z.max (- MAXFRAME) (Z.min MAXFRAME n))
                 (frame_select (h r)) (frame_tag (h r)) (keyframe_type (h r))
          else h r').

(** The [for] loop of [shift_keyframes]: an assignment that raises leaves
    the keyframes before it moved. *)
Fixpoint offset_keyframes (keyframes : list fref) (offset : Z) (h : fstore)
    : outcome unit * fstore :=
  match keyframes with
  | [] => (Ok tt, h)
  | keyframe :: keyframes =>
      match set_frame_number h keyframe (fnum h keyframe + offset) with
      | Ok h => offset_keyframes keyframes offset h
      | Raise e => (Raise e, h)
      | OutOfFuel => (OutOfFuel, h)
      end
  end.

Definition shift_keyframes (keyframes : list fref) (offset frame_min : Z)
    (adjust_offset : bool) (h : fstore) : outcome bool * fstore :=
  match py_min_by (fnum h) keyframes with
  | Ok m =>
      let min_value := fnum h m in
      if min_value <? frame_min then (Ok false, h)
      else
        let adjusted :=
          if min_value + offset <? frame_min
          then if adjust_offset then Some (frame_min - min_value) else None
          else Some offset in
        match adjusted with
        | None => (Ok false, h)
        | Some offset =>
            if offset =? 0 then (Ok false, h)
            else
              let (res, h) := offset_keyframes keyframes offset h in
              (bind res (fun _ => Ok true), h)
        end
  | Raise e => (Raise e, h)
  | OutOfFuel => (OutOfFuel, h)
  end.

Definition shift_gp_keyframes (h : fstore) (gp : GreasePencil) (frame_start : Z)
    (offset : Z) (adjust_offset only_active_layer only_unlocked_layers
     only_selected_layers : bool) : outcome (list fref) * fstore :=
  let keyframes :=
    get_gp_keyframes h gp
      (layer_options_to_traits only_active_layer only_unlocked_layers
         only_selected_layers)
      FrameTraits_NONE (frame_start + 1) sys_maxsize in
  match keyframes with
  | [] => (Ok [], h)
  | _ =>
      let (res, h') :=
        shift_keyframes keyframes offset (frame_start + 1) adjust_offset h in
      (bind res (fun res => Ok (if res then keyframes else [])), h')
  end.

(** *** What the statements below speak of *)

(** Frame [n] of the fixtures is the object behind reference [n]. *)
Definition fixture_store : fstore := fun r => mkFrame (Z.of_nat r) false false KEYFRAME.
Definition fixture_layer (keys : list nat) : GPencilLayer := mkLayer keys false false false.

(** The defaults of [GPencilFlippingSettings]; a datablock with the given
    layers, no material and no stored palette. *)
Definition default_flipping : GPencilFlippingSettings :=
  mkFlipping true [true; true; true; true; true] ACTIVE true true.
Definition fixture_gp (l : list GPencilLayer) (active : option nat) : GreasePencil :=
  mkGP l active default_flipping [] None.

(** The frame numbers the host keeps, and the integers it takes. *)
Definition in_frame_range (n : Z) : Prop := - MAXFRAME <= n <= MAXFRAME.
Definition is_c_int (n : Z) : Prop := INT_MIN <= n <= INT_MAX.

(** The frame number the host keeps for [n]. *)
Definition kept_frame (n : Z) : Z :=
  if n <? - MAXFRAME then - MAXFRAME else if MAXFRAME <? n then MAXFRAME else n.

(** The frame behind [r] once [frame_number + d] has been assigned to it. *)
Definition moved_frame (f : GPencilFrame) (d : Z) : GPencilFrame :=
  mkFrame (kept_frame (frame_number f + d))
    (frame_select f) (frame_tag f) (keyframe_type f).

(** The frame after [frame_number + d] has been assigned to it [k] times. *)
Definition moved_times (k : nat) (f : GPencilFrame) (d : Z) : GPencilFrame :=
  Nat.iter k (fun f => moved_frame f d) f.

(** How many entries of the list are the keyframe [r]. *)
Definition listed (keyframes : list fref) (r : fref) : nat :=
  count_occ Nat.eq_dec keyframes r.

(** Every sum [frame_number + d] assigned while the list is gone through
    is a C int. *)
Definition sums_are_c_ints (keyframes : list fref) (d : Z) (h : fstore) : Prop :=
  forall r k, (k < listed keyframes r)%nat ->
    is_c_int (frame_number (moved_times k (h r) d) + d).

(** A store whose frame [r] has the number [numbers r]. *)
Definition store_of (numbers : fref -> Z) : fstore :=
  fun r => mkFrame (numbers r) false false KEYFRAME.

(** Does the layer at index [i] satisfy every flag set in [layer_filter]? *)
Definition layer_satisfies (gp : GreasePencil) (layer_filter : LayerTraits)
    (i : nat) (layer : GPencilLayer) : Prop :=
  (flag_in LayerTraits_ACTIVE layer_filter = true -> active_index gp = Some i)
  /\ (flag_in LayerTraits_UNLOCKED layer_filter = true -> lock layer = false)
  /\ (flag_in LayerTraits_SELECTED layer_filter = true -> layer_select layer = true).

(** Does the frame satisfy every flag set in [frame_filter]? *)
Definition frame_satisfies (h : fstore) (frame_filter : FrameTraits) (f : fref)
    : Prop :=
  (flag_in FrameTraits_SELECTED frame_filter = true -> frame_select (h f) = true)
  /\ (flag_in FrameTraits_TAG frame_filter = true -> frame_tag (h f) = true).

(** Does the layer at index [i] pass the filters the options switch on? *)
Definition passes_options (gp : GreasePencil)
    (only_active_layer only_unlocked_layers only_selected_layers : bool)
    (i : nat) (layer : GPencilLayer) : bool :=
  implb only_active_layer (is_active_layer gp i)
  && implb only_unlocked_layers (negb (lock layer))
  && implb only_selected_layers (layer_select layer).


(** ** Material palettes (materials/core.py) *)

Open Scope string_scope.

(** Default material palette identifier. *)
Definition DEFAULT_PALETTE_ID : string := "-".
(** Character used to split a material name into palette and basename. *)
Definition PALETTE_NAME_SEPARATOR : ascii := "/"%char.
(** Palette of the materials for vertex color painting. *)
Definition VERTEXCOLOR_PALETTE : string := "VertexColor".

(** *** Material datablocks *)

(** The grease pencil settings of a material: the attributes the comparison
    reads, and two of those it does not read.  Colours are arrays of floats. *)
Record MaterialGPencilStyle : Type := mkStyle {
  show_stroke : bool;
  mode : string;
  stroke_style : string;
  color : list spec_float;
  use_stroke_holdout : bool;
  use_overlap_strokes : bool;
  show_fill : bool;
  fill_style : string;
  fill_color : list spec_float;
  use_fill_holdout : bool;
  mix_color : list spec_float;
  pass_index : Z
}.

(** A material: its identity, its name, the library it is linked from (if
    any) and its grease pencil settings; [mat.grease_pencil] is [None] for a
    material that is not a grease pencil material. *)
Record Material : Type := mkMaterial {
  as_pointer : mref;
  name : string;
  library : option string;
  grease_pencil : option MaterialGPencilStyle
}.

Definition is_grease_pencil (mat : Material) : bool :=
  match grease_pencil mat with
  | Some _ => true
  | None => false
  end.

(** [bpy.data]: the material and grease pencil datablocks. *)
Module BlendData.
Record t : Type := mk {
  materials : list Material;
  grease_pencils : list GreasePencil
}.
End BlendData.

(** *** Python dictionaries, in insertion order *)

Fixpoint dict_get {V} (d : list (string * V)) (k : string) : option V :=
  match d with
  | [] => None
  | (k', v) :: d' => if k' =? k then Some v else dict_get d' k
  end.

(** [k in d] *)
Definition dict_mem {V} (d : list (string * V)) (k : string) : bool :=
  match dict_get d k with
  | Some _ => true
  | None => false
  end.

(** [d[k] = v]: a key already there keeps its place. *)
Fixpoint dict_set {V} (d : list (string * V)) (k : string) (v : V)
    : list (string * V) :=
  match d with
  | [] => [(k, v)]
  | (k', v') :: d' =>
      if k' =? k then (k', v) :: d' else (k', v') :: dict_set d' k v
  end.

(** [list(d)] *)
Definition dict_keys {V} (d : list (string * V)) : list string := map fst d.

(** [d.values()] *)
Definition dict_values {V} (d : list (string * V)) : list V := map snd d.

(** [d[k].append(x)] *)
Definition dict_append {V} (d : list (string * list V)) (k : string) (x : V)
    : outcome (list (string * list V)) :=
  match dict_get d k with
  | Some l => Ok (dict_set d k (l ++ [x])%list)
  | None => Raise KeyError
  end.

(** *** Material names *)

(** The text before and after the first separator, when there is one. *)
Fixpoint split_once (sep : ascii) (s : string) : option (string * string) :=
  match s with
  | EmptyString => None
  | String c s' =>
      if Ascii.eqb c sep then Some (EmptyString, s')
      else match split_once sep s' with
           | Some (a, b) => Some (String c a, b)
           | None => None
           end
  end.

(** [name.split(PALETTE_NAME_SEPARATOR, 1)] *)
Definition split_material_name (name : string) : list string :=
  match split_once PALETTE_NAME_SEPARATOR name with
  | Some (a, b) => [a; b]
  | None => [name]
  end.

Definition get_palette_name (material : Material) : option string :=
  let split := split_material_name (name material) in
  if (1 <? length split)%nat then nth_error split 0 else None.

Definition get_material_basename (material : Material) : string :=
  last (split_material_name (name material)) EmptyString.

(** Truth value of an optional string: [None] and [""] are false. *)
Definition truthy (s : option string) : bool :=
  match s with
  | Some s => negb (s =? EmptyString)
  | None => false
  end.

Definition get_grease_pencil_materials (d : BlendData.t) (only_local : bool)
    : list Material :=
  filter
    (fun mat =>
       is_grease_pencil mat
       && (negb (match library mat with Some _ => true | None => false end)
           || negb only_local))
    (BlendData.materials d).

(** *** are_similar_gp_materials *)

(** The list of attributes to evaluate whether two grease pencil materials
    are similar. *)
Definition gp_material_comparison_attributes : list string :=
  [ "show_stroke"; "mode"; "stroke_style"; "color"; "use_stroke_holdout";
    "use_overlap_strokes"; "show_fill"; "fill_style"; "fill_color";
    "use_fill_holdout" ].

(** The values attributes have: booleans, enum identifiers, integers,
    [bpy_prop_array]s of floats, and the sequences slicing these gives. *)
Inductive value : Type :=
| VBool (b : bool)
| VStr (s : string)
| VInt (n : Z)
| VPropArray (a : list spec_float)
| VSeq (a : list spec_float).

(** [getattr(style, attr)]; [style] is [None] for a material without grease
    pencil settings. *)
Definition getattr (style : option MaterialGPencilStyle) (attr : string)
    : outcome value :=
  match style with
  | None => Raise AttributeError
  | Some gp =>
      if attr =? "show_stroke" then Ok (VBool (show_stroke gp))
      else if attr =? "mode" then Ok (VStr (mode gp))
      else if attr =? "stroke_style" then Ok (VStr (stroke_style gp))
      else if attr =? "color" then Ok (VPropArray (color gp))
      else if attr =? "use_stroke_holdout" then Ok (VBool (use_stroke_holdout gp))
      else if attr =? "use_overlap_strokes" then Ok (VBool (use_overlap_strokes gp))
      else if attr =? "show_fill" then Ok (VBool (show_fill gp))
      else if attr =? "fill_style" then Ok (VStr (fill_style gp))
      else if attr =? "fill_color" then Ok (VPropArray (fill_color gp))
      else if attr =? "use_fill_holdout" then Ok (VBool (use_fill_holdout gp))
      else if attr =? "mix_color" then Ok (VPropArray (mix_color gp))
      else if attr =? "pass_index" then Ok (VInt (pass_index gp))
      else Raise AttributeError
  end.

(** [isinstance(v, bpy.types.bpy_prop_array)] *)
Definition is_prop_array (v : value) : bool :=
  match v with
  | VPropArray _ => true
  | _ => false
  end.

(** [v[:]] *)
Definition slice_all (v : value) : outcome value :=
  match v with
  | VPropArray a => Ok (VSeq a)
  | VSeq a => Ok (VSeq a)
  | VStr s => Ok (VStr s)
  | VBool _ | VInt _ => Raise TypeError
  end.

(** [==] on two sequences of floats: same length and equal items; a NaN
    item is equal to nothing. *)
Fixpoint seq_eqb (a b : list spec_float) : bool :=
  match a, b with
  | [], [] => true
  | x :: a', y :: b' => SFeqb x y && seq_eqb a' b'
  | _, _ => false
  end.

(** [v1 != v2].  Two [bpy_prop_array]s of different owners are different
    objects, whatever they hold. *)
Definition py_ne (v1 v2 : value) : bool :=
  match v1, v2 with
  | VBool a, VBool b => negb (Bool.eqb a b)
  | VStr a, VStr b => negb (a =? b)
  | VInt a, VInt b => negb (a =? b)%Z
  | VSeq a, VSeq b => negb (seq_eqb a b)
  | _, _ => true
  end.

(** The [for] loop of [are_similar_gp_materials]. *)
Fixpoint compare_attributes (styleA styleB : option MaterialGPencilStyle)
    (attrs : list string) : outcome bool :=
  match attrs with
  | [] => Ok true
  | attr :: attrs' =>
      attrA <- getattr styleA attr ;;
      attrB <- getattr styleB attr ;;
      sliced <- (if is_prop_array attrA
                 then (a <- slice_all attrA ;; b <- slice_all attrB ;; Ok (a, b))
                 else Ok (attrA, attrB)) ;;
      if py_ne (fst sliced) (snd sliced) then Ok false
      else compare_attributes styleA styleB attrs'
  end.

Definition are_similar_gp_materials (materialA materialB : Material)
    : outcome bool :=
  if negb (is_grease_pencil materialA) || negb (is_grease_pencil materialB)
  then Raise ValueError
  else compare_attributes (grease_pencil materialA) (grease_pencil materialB)
         gp_material_comparison_attributes.

(** *** Host operations on datablocks *)

(** [old.user_remap(new)]: every use of [old] becomes a use of [new]; the
    uses kept here are the material slots of the grease pencil datablocks. *)
Definition remap_slot (old new : mref) (slot : option mref) : option mref :=
  match slot with
  | Some p => if (p =? old)%nat then Some new else Some p
  | None => None
  end.

Definition map_slots (f : option mref -> option mref) (gp : GreasePencil)
    : GreasePencil :=
  mkGP (layers gp) (active_index gp) (flipping_settings gp)
    (map f (materials gp)) (material_palette_str gp).

Definition user_remap (old new : Material) (d : BlendData.t) : BlendData.t :=
  BlendData.mk (BlendData.materials d)
    (map (map_slots (remap_slot (as_pointer old) (as_pointer new)))
       (BlendData.grease_pencils d)).

(** Membership in a set of materials, which compares identities. *)
Definition mat_in (mat : Material) (s : list mref) : bool :=
  existsb (Nat.eqb (as_pointer mat)) s.

(** [s.add(mat)] *)
Definition set_add (mat : Material) (s : list mref) : list mref :=
  if mat_in mat s then s else (s ++ [as_pointer mat])%list.

(** [bpy.data.batch_remove(ids)]: the datablocks are deleted, and a slot
    that still uses one of them is emptied. *)
Definition clear_slot (ids : list mref) (slot : option mref) : option mref :=
  match slot with
  | Some p => if existsb (Nat.eqb p) ids then None else Some p
  | None => None
  end.

Definition batch_remove (ids : list mref) (d : BlendData.t) : BlendData.t :=
  BlendData.mk
    (filter (fun mat => negb (mat_in mat ids)) (BlendData.materials d))
    (map (map_slots (clear_slot ids)) (BlendData.grease_pencils d)).

(** *** cleanup_duplicated_materials *)

Section Cleanup.

(** [spa_anim2D.utils.remove_auto_numbering_suffix], whose module is not
    part of the sources at hand: a function on names. *)
Variable remove_auto_numbering_suffix : string -> string.

(** First pass: the groups of potentially similar materials, by name. *)
Definition group_by_short_name (mats : list Material)
    : outcome (list (string * list Material)) :=
  fold_left
    (fun acc mat =>
       similar_material_candidates <- acc ;;
       let short_name := remove_auto_numbering_suffix (name mat) in
       if negb (truthy (get_palette_name mat)) then Ok similar_material_candidates
       else
         let similar_material_candidates :=
           if negb (dict_mem similar_material_candidates short_name)
           then dict_set similar_material_candidates short_name []
           else similar_material_candidates in
         dict_append similar_material_candidates short_name mat)
    mats (Ok []).

(** The state of the second pass: the orphaned materials and the host data. *)
Definition cleanup_state : Type := (list mref * BlendData.t)%type.

(** The innermost loop: [matA] against the materials after it. *)
Definition compare_with_next (matA : Material) (next : list Material)
    (st : cleanup_state) : outcome cleanup_state :=
  fold_left
    (fun acc matB =>
       st <- acc ;;
       similar <- are_similar_gp_materials matA matB ;;
       if similar
       then Ok (set_add matB (fst st), user_remap matB matA (snd st))
       else Ok st)
    next (Ok st).

(** The loop over the materials of a group, with their indices. *)
Definition find_duplicates_in (materials : list Material) (st : cleanup_state)
    : outcome cleanup_state :=
  fold_left
    (fun acc imat =>
       st <- acc ;;
       let i := fst imat in
       let matA := snd imat in
       if mat_in matA (fst st) then Ok st
       else compare_with_next matA (skipn (i + 1) materials) st)
    (enumerate materials) (Ok st).

(** Second pass: the loop over the groups. *)
Definition find_duplicates (groups : list (list Material)) (st : cleanup_state)
    : outcome cleanup_state :=
  fold_left
    (fun acc materials =>
       st <- acc ;;
       if (length materials =? 1)%nat then Ok st
       else find_duplicates_in materials st)
    groups (Ok st).

Definition cleanup_duplicated_materials (d : BlendData.t) : outcome BlendData.t :=
  similar_material_candidates <-
    group_by_short_name (get_grease_pencil_materials d true) ;;
  st <- find_duplicates (dict_values similar_material_candidates) ([], d) ;;
  Ok (batch_remove (fst st) (snd st)).

End Cleanup.

(** *** What the statements below speak of *)

(** Two arrays of floats are equal as [==] has it. *)
Definition array_eq (a b : list spec_float) : Prop :=
  Forall2 (fun x y => SFeqb x y = true) a b.

(** The two settings have equal values for each compared attribute. *)
Definition same_compared_values (a b : MaterialGPencilStyle) : Prop :=
  show_stroke a = show_stroke b
  /\ mode a = mode b
  /\ stroke_style a = stroke_style b
  /\ array_eq (color a) (color b)
  /\ use_stroke_holdout a = use_stroke_holdout b
  /\ use_overlap_strokes a = use_overlap_strokes b
  /\ show_fill a = show_fill b
  /\ fill_style a = fill_style b
  /\ array_eq (fill_color a) (fill_color b)
  /\ use_fill_holdout a = use_fill_holdout b.

(** Are the two materials grease pencil materials that the comparison
    finds similar? *)
Definition similar (a b : Material) : bool :=
  match are_similar_gp_materials a b with
  | Ok true => true
  | _ => false
  end.

(** The materials the cleanup considers: local grease pencil materials
    whose name has a palette component. *)
Definition considered (mat : Material) : bool :=
  is_grease_pencil mat
  && negb (match library mat with Some _ => true | None => false end)
  && truthy (get_palette_name mat).

(** [a] comes before [b] in [l]. *)
Definition earlier {A} (l : list A) (a b : A) : Prop :=
  exists l1 l2 l3, l = (l1 ++ a :: l2 ++ b :: l3)%list.

(** [a] and [b] are considered materials of one group, [a] is the earlier
    of the two and they are similar. *)
Definition duplicates (short : string -> string) (mats : list Material)
    (a b : Material) : Prop :=
  earlier mats a b
  /\ considered a = true /\ considered b = true
  /\ short (name a) = short (name b)
  /\ similar a b = true.

(** [q] with the uses of [old] turned into uses of [new]. *)
Definition swap_ptr (old new q : mref) : mref :=
  if (q =? old)%nat then new else q.

(** The host data [d] once each slot [p] has become [f p]. *)
Definition remapped (f : mref -> mref) (d : BlendData.t) : BlendData.t :=
  BlendData.mk (BlendData.materials d)
    (map (map_slots (option_map f)) (BlendData.grease_pencils d)).

(** The loops of the second pass on the orphans and on what has become of
    each slot, by recursion on the materials that remain to visit. *)
Definition remap_state : Type := (list mref * (mref -> mref))%type.

Definition compare_with_next_pure (matA : Material) (next : list Material)
    (st : remap_state) : remap_state :=
  fold_left
    (fun st matB =>
       if similar matA matB
       then (set_add matB (fst st),
             fun p => swap_ptr (as_pointer matB) (as_pointer matA) (snd st p))
       else st)
    next st.

Fixpoint find_duplicates_in_pure (materials : list Material) (st : remap_state)
    : remap_state :=
  match materials with
  | [] => st
  | matA :: next =>
      if mat_in matA (fst st) then find_duplicates_in_pure next st
      else find_duplicates_in_pure next (compare_with_next_pure matA next st)
  end.

(** The later materials of a group that are similar to an earlier one. *)
Fixpoint dup_ptrs (g : list Material) : list mref :=
  match g with
  | [] => []
  | a :: rest => (map as_pointer (filter (similar a) rest) ++ dup_ptrs rest)%list
  end.

(** What a slot [q] becomes when the group [g] is visited with the orphans
    [orphans]: the first material of the group similar to the one it uses. *)
Definition group_rep (g : list Material) (orphans : list mref) (q : mref) : mref :=
  match find (fun b => (as_pointer b =? q)%nat) g with
  | Some b =>
      if mat_in b orphans then q
      else match find (fun a => similar a b) g with
           | Some a => as_pointer a
           | None => q
           end
  | None => q
  end.

(** Orphans are closed under similarity within the group. *)
Definition closed_in (g : list Material) (orphans : list mref) : Prop :=
  forall x y, In x g -> In y g -> similar x y = true ->
              In (as_pointer x) orphans -> In (as_pointer y) orphans.

(** What a slot becomes when the groups are visited one after the other. *)
Definition groups_rep (gs : list (list Material)) (q : mref) : mref :=
  fold_left (fun q g => group_rep g [] q) gs q.

(** The second pass on the orphans and the slots. *)
Definition find_duplicates_pure (gs : list (list Material)) (st : remap_state)
    : remap_state :=
  fold_left (fun st g => find_duplicates_in_pure g st) gs st.

(** Does the first pass put [m] in the group of key [k]? *)
Definition in_group (short : string -> string) (k : string) (m : Material)
    : bool :=
  truthy (get_palette_name m) && (short (name m) =? k).

(** The groups [groups] are those of the materials [seen]. *)
Definition groups_of (short : string -> string)
    (groups : list (string * list Material)) (seen : list Material) : Prop :=
  NoDup (dict_keys groups)
  /\ (forall k g, In (k, g) groups ->
                  g = filter (in_group short k) seen /\ g <> [])
  /\ (forall m, In m seen -> truthy (get_palette_name m) = true ->
                In (short (name m)) (dict_keys groups)).

(** Fixtures: floats 0.0 and 1.0, opaque black, a default line material. *)
Definition f0 : spec_float := S754_zero false.
Definition f1 : spec_float := S754_finite false 4503599627370496 (-52).
Definition black : list spec_float := [f0; f0; f0; f1].
Definition red : list spec_float := [f1; f0; f0; f1].
Definition fixture_style (c : list spec_float) : MaterialGPencilStyle :=
  mkStyle true "LINE" "SOLID" c false true false "SOLID" black false black 0.
Definition fixture_material (p : mref) (n : string) (c : list spec_float)
    : Material :=
  mkMaterial p n None (Some (fixture_style c)).

(** No item of the array is a NaN. *)
Definition no_nan (a : list spec_float) : Prop :=
  Forall (fun x => x <> S754_nan) a.

(** The separator occurs in the text. *)
Definition has_separator (s : string) : Prop :=
  In PALETTE_NAME_SEPARATOR (list_ascii_of_string s).

(** A stand-in for [remove_auto_numbering_suffix] on the names of the
    fixtures: the name up to its first dot. *)
Definition fixture_short (n : string) : string :=
  match split_once "."%char n with
  | Some (a, _) => a
  | None => n
  end.

(** Fixture: a material, an identical copy and a red copy, and a grease
    pencil datablock that uses the two copies. *)
Definition fixture_data : BlendData.t :=
  BlendData.mk
    [ fixture_material 1%nat "A/MatA" black;
      fixture_material 2%nat "A/MatA.001" black;
      fixture_material 3%nat "A/MatA.002" red ]
    [ mkGP [] None default_flipping [Some 2%nat; None; Some 3%nat] None ].

(** The fixture once cleaned. *)
Definition fixture_data_clean : BlendData.t :=
  BlendData.mk
    [ fixture_material 1%nat "A/MatA" black;
      fixture_material 3%nat "A/MatA.002" red ]
    [ mkGP [] None default_flipping [Some 1%nat; None; Some 3%nat] None ].

Close Scope string_scope.

(** ** The material palettes registry (materials/core.py, materials/ui.py) *)

Open Scope string_scope.

(** [MaterialPalettesRegistry]: palette names to materials, in the order
    the names were first assigned. *)
Definition MaterialPalettesRegistry : Type := list (string * list Material).

(** What the functions below read and assign besides their arguments:
    [bpy.data], which is not a [bpy.types.BlendData] while the add-on is
    being registered ([None] here), and the global [material_palettes]. *)
Record world : Type := mkWorld {
  bpy_data : option BlendData.t;
  material_palettes : MaterialPalettesRegistry
}.

(** [l[i]] for a Python integer: a negative index counts from the end. *)
Definition py_getitem {A} (l : list A) (i : Z) : outcome A :=
  let n := Z.of_nat (length l) in
  if ((0 <=? i) && (i <? n))%Z then getitem l (Z.to_nat i)
  else if ((- n <=? i) && (i <? 0))%Z then getitem l (Z.to_nat (n + i))
  else Raise IndexError.

(** [l.index(x)] on a list of strings *)
Fixpoint py_index (l : list string) (x : string) : outcome Z :=
  match l with
  | [] => Raise ValueError
  | y :: l' =>
      if y =? x then Ok 0%Z
      else (i <- py_index l' x ;; Ok (i + 1)%Z)
  end.

Definition clear_material_palettes (w : world) : world :=
  mkWorld (bpy_data w) [].

(** [get_palette_name(material) in material_palettes]; [None] is no key. *)
Definition has_valid_palette_name (w : world) (material : Material) : bool :=
  match get_palette_name material with
  | Some palette => dict_mem (material_palettes w) palette
  | None => false
  end.

(** The loop of [refresh_palettes] that fills the registry. *)
Definition fill_palettes (mats : list Material)
    (material_palettes : MaterialPalettesRegistry)
    : outcome MaterialPalettesRegistry :=
  fold_left
    (fun acc mat =>
       material_palettes <- acc ;;
       let palette := get_palette_name mat in
       if negb (truthy palette) then Ok material_palettes
       else
         match palette with
         | None => Ok material_palettes
         | Some palette =>
             if palette =? DEFAULT_PALETTE_ID then Ok material_palettes
             else
               let material_palettes :=
                 if negb (dict_mem material_palettes palette)
                 then dict_set material_palettes palette []
                 else material_palettes in
               dict_append material_palettes palette mat
         end)
    mats (Ok material_palettes).

(** [mat not in gpencil.materials.values()] and
    [gpencil.materials.append(mat)] *)
Definition in_slots (mat : Material) (gp : GreasePencil) : bool :=
  existsb
    (fun slot =>
       match slot with
       | Some p => (p =? as_pointer mat)%nat
       | None => false
       end)
    (materials gp).

Definition append_slot (mat : Material) (gp : GreasePencil) : GreasePencil :=
  mkGP (layers gp) (active_index gp) (flipping_settings gp)
    (materials gp ++ [Some (as_pointer mat)])%list (material_palette_str gp).

(** [self["material_palette_str"] = v] *)
Definition set_material_palette_str (gp : GreasePencil) (v : string)
    : GreasePencil :=
  mkGP (layers gp) (active_index gp) (flipping_settings gp) (materials gp)
    (Some v).

(** [for x in l: ...] with a body that may raise. *)
Fixpoint for_each {A B} (f : A -> outcome B) (l : list A) : outcome (list B) :=
  match l with
  | [] => Ok []
  | x :: l' => y <- f x ;; ys <- for_each f l' ;; Ok (y :: ys)
  end.

Section Palettes.

Variable remove_auto_numbering_suffix : string -> string.

(** The host's enum property [GreasePencil.material_palette]: reading it
    runs the getter and the items callback, assigning to it runs the setter
    and then the update callback.  Both are given the registry, which is not
    empty where they are used below, and act on the datablock. *)
Variable material_palette_read :
  MaterialPalettesRegistry -> GreasePencil -> string * GreasePencil.
Variable material_palette_assign :
  MaterialPalettesRegistry -> GreasePencil -> string -> outcome GreasePencil.

Definition assign_active_palette_materials
    (material_palettes : MaterialPalettesRegistry) (gpencil : GreasePencil)
    : outcome GreasePencil :=
  let (palette, gpencil) := material_palette_read material_palettes gpencil in
  if negb (dict_mem material_palettes palette)
  then material_palette_assign material_palettes gpencil DEFAULT_PALETTE_ID
  else
    let (palette, gpencil) := material_palette_read material_palettes gpencil in
    match dict_get material_palettes palette with
    | None => Raise KeyError
    | Some mats =>
        Ok (fold_left
              (fun gpencil mat =>
                 if negb (in_slots mat gpencil) then append_slot mat gpencil
                 else gpencil)
              mats gpencil)
    end.

Definition refresh_palettes (cleanup_materials : bool) (w : world)
    : outcome world :=
  let w := clear_material_palettes w in
  match bpy_data w with
  | None => Ok w
  | Some d =>
      d <- (if cleanup_materials
            then cleanup_duplicated_materials remove_auto_numbering_suffix d
            else Ok d) ;;
      let material_palettes :=
        dict_set (material_palettes w) DEFAULT_PALETTE_ID [] in
      material_palettes <-
        fill_palettes (get_grease_pencil_materials d false) material_palettes ;;
      gps <- (if cleanup_materials
              then for_each (assign_active_palette_materials material_palettes)
                     (BlendData.grease_pencils d)
              else Ok (BlendData.grease_pencils d)) ;;
      Ok (mkWorld (Some (BlendData.mk (BlendData.materials d) gps))
            material_palettes)
  end.

(** File load_pre callback. *)
Definition on_load_pre (w : world) : world := clear_material_palettes w.

(** File load_post callback. *)
Definition on_load_post (w : world) : outcome world := refresh_palettes false w.

(** Undo-redo callback. *)
Definition on_undo_redo (w : world) : outcome world := refresh_palettes false w.

(** [GreasePencil.material_palette] set function. *)
Definition set_material_palette_value (w : world) (self : GreasePencil)
    (index : Z) : outcome GreasePencil :=
  palette <- py_getitem (dict_keys (material_palettes w)) index ;;
  Ok (set_material_palette_str self palette).

(** [GreasePencil.material_palette] get function: the index, and the
    datablock, whose stored name the fallback assigns. *)
Definition get_material_palette_value (w : world) (self : GreasePencil)
    : Z * GreasePencil :=
  match material_palette_str self with
  | Some stored =>
      match py_index (dict_keys (material_palettes w)) stored with
      | Ok i => (i, self)
      | _ => (0%Z, set_material_palette_str self DEFAULT_PALETTE_ID)
      end
  | None => (0%Z, self)
  end.

(** The items of the [material_palette] enum: identifier, name, description
    and number. *)
Definition get_material_palettes_enum_items (w : world)
    : outcome (list (string * string * string * nat) * world) :=
  w <- (if match material_palettes w with [] => true | _ => false end
        then refresh_palettes false w
        else Ok w) ;;
  Ok (map (fun ip => (snd ip, snd ip, EmptyString, fst ip))
        (filter (fun ip => negb (snd ip =? VERTEXCOLOR_PALETTE))
           (enumerate (dict_keys (material_palettes w)))),
      w).

(** Refresh material palettes if not initialized yet. *)
Definition initialize_palettes (w : world) : outcome world :=
  if match material_palettes w with [] => true | _ => false end
  then refresh_palettes false w
  else Ok w.

End Palettes.

(** *** MATERIAL_UL_palette_materials.filter_items (materials/ui.py) *)

(** [l[i] = v] for an index within the list. *)
Fixpoint list_set {A} (l : list A) (i : nat) (v : A) : list A :=
  match l, i with
  | [], _ => []
  | _ :: l', O => v :: l'
  | x :: l', S i' => x :: list_set l' i' v
  end.

(** [mat in materials[:i]] *)
Definition in_earlier_slots (mat : Material) (materials : list (option Material))
    (i : nat) : bool :=
  existsb
    (fun slot =>
       match slot with
       | Some m => (as_pointer m =? as_pointer mat)%nat
       | None => false
       end)
    (firstn i materials).

(** The flags of the slots' materials [materials], for the active palette
    [active_palette] of the object's data. *)
Definition filter_items (w : world) (bitflag_filter_item : Z)
    (materials : list (option Material)) (active_palette : string) : list Z :=
  fold_left
    (fun flt_flags imat =>
       let i := fst imat in
       match snd imat with
       | None => flt_flags
       | Some mat =>
           if in_earlier_slots mat materials i then flt_flags
           else if (match get_palette_name mat with
                    | Some p => p =? active_palette
                    | None => false
                    end)
                   || ((active_palette =? DEFAULT_PALETTE_ID)
                       && negb (has_valid_palette_name w mat))
                then list_set flt_flags i bitflag_filter_item
                else flt_flags
       end)
    (enumerate materials) (repeat 0%Z (length materials)).

(** *** What the statements below speak of *)

(** The palette a material is registered under: the palette component of
    its name, unless it is empty or the default palette identifier. *)
Definition registered_palette (mat : Material) : option string :=
  match get_palette_name mat with
  | Some p =>
      if (p =? EmptyString) || (p =? DEFAULT_PALETTE_ID) then None else Some p
  | None => None
  end.

Definition in_palette (k : string) (mat : Material) : bool :=
  match registered_palette mat with
  | Some p => p =? k
  | None => false
  end.

(** The registry [reg] is that of the materials [seen]: the default palette
    comes first and is empty, every palette holds the materials registered
    under its name, in their order, and there is a palette for each. *)
Definition palettes_of (reg : MaterialPalettesRegistry) (seen : list Material)
    : Prop :=
  NoDup (dict_keys reg)
  /\ hd_error reg = Some (DEFAULT_PALETTE_ID, [])
  /\ (forall k mats, In (k, mats) reg ->
        mats = filter (in_palette k) seen
        /\ (k <> DEFAULT_PALETTE_ID -> mats <> []))
  /\ (forall m k, In m seen -> registered_palette m = Some k ->
        In k (dict_keys reg)).

(** Is the material displayed when [active_palette] is the active one? *)
Definition displayed (w : world) (active_palette : string) (mat : Material)
    : bool :=
  match get_palette_name mat with
  | Some p => p =? active_palette
  | None => false
  end
  || ((active_palette =? DEFAULT_PALETTE_ID)
      && negb (has_valid_palette_name w mat)).

(** Fixtures: a world with the fixture's materials and their registry, and
    the materials of the slots of an object. *)
Definition fixture_world : world :=
  mkWorld (Some fixture_data)
    [ (DEFAULT_PALETTE_ID, []);
      ("A", BlendData.materials fixture_data) ].

(** Fixtures for the host's enum property: reading gives the stored name,
    or the default palette identifier when there is none; assigning stores
    the name. *)
Definition fixture_read (reg : MaterialPalettesRegistry) (gp : GreasePencil)
    : string * GreasePencil :=
  (match material_palette_str gp with
   | Some s => s
   | None => DEFAULT_PALETTE_ID
   end, gp).

Definition fixture_assign (reg : MaterialPalettesRegistry) (gp : GreasePencil)
    (v : string) : outcome GreasePencil :=
  Ok (set_material_palette_str gp v).

(** Fixture: a datablock with palette A active, which uses the red copy. *)
Definition fixture_gpencil : GreasePencil :=
  mkGP [] None default_flipping [Some 3%nat; None] (Some "A").

Definition fixture_slots : list (option Material) :=
  [ Some (fixture_material 1%nat "A/MatA" black);
    None;
    Some (fixture_material 1%nat "A/MatA" black);
    Some (fixture_material 4%nat "Line" black) ].

Close Scope string_scope.

(** ** Operators and handlers (animation/ops.py) *)

Open Scope string_scope.

(** The status sets the callbacks below return. *)
Inductive status : Type :=
| CANCELLED
| FINISHED
| RUNNING_MODAL.

(** What the callbacks read and assign of [context.scene]. *)
Module Scene.
Record t : Type := mk {
  frame_current : Z;
  frame_preview_start : Z;
  frame_preview_end : Z;
  use_preview_range : bool
}.
(** [scene.frame_current = n]: the host raises ValueError when [n] is no C
    int; it keeps the frame within [-MAXFRAME, MAXFRAME], and sets a
    negative frame to 0 unless the preference [use_negative_frames]
    ([bpy.context.preferences.edit], off by default) allows them. *)
Definition set_frame_current (use_negative_frames : bool) (scene : t) (n : Z)
    : outcome t :=
  if (n <? INT_MIN)%Z || (INT_MAX <? n)%Z then Raise ValueError
  else
    let n := Z.max (- MAXFRAME) (Z.min MAXFRAME n) in
    let n := if negb use_negative_frames && (n <? 0)%Z then 0%Z else n in
    Ok (mk n (frame_preview_start scene) (frame_preview_end scene)
          (use_preview_range scene)).
(** [scene.frame_set(n)], as far as the scene goes: the host raises
    ValueError when [n] is no C int and keeps the frame within
    [-MAXFRAME, MAXFRAME]. *)
Definition frame_set (scene : t) (n : Z) : outcome t :=
  if (n <? INT_MIN)%Z || (INT_MAX <? n)%Z then Raise ValueError
  else
    Ok (mk (Z.max (- MAXFRAME) (Z.min MAXFRAME n)) (frame_preview_start scene)
          (frame_preview_end scene) (use_preview_range scene)).
End Scene.

(** [gpd.layers.active] *)
Definition layers_active (gpd : GreasePencil) : option GPencilLayer :=
  match active_index gpd with
  | Some a => nth_error (layers gpd) a
  | None => None
  end.

(** [obj.attr] for an object that may be [None], or an attribute that may
    be missing. *)
Definition attribute {A} (a : option A) : outcome A :=
  match a with
  | Some v => Ok v
  | None => Raise AttributeError
  end.

(** *** ANIM_OT_keyframes_flip *)

Inductive Direction : Type :=
| LEFT
| RIGHT.

(** [list(keyframe_types.keys())] *)
Definition keyframe_types_list : list KeyframeType :=
  [KEYFRAME; EXTREME; BREAKDOWN; JITTER; MOVING_HOLD].

Definition KeyframeType_eqb (a b : KeyframeType) : bool :=
  match a, b with
  | KEYFRAME, KEYFRAME | EXTREME, EXTREME | BREAKDOWN, BREAKDOWN
  | JITTER, JITTER | MOVING_HOLD, MOVING_HOLD => true
  | _, _ => false
  end.

(** [l.index(x)] on keyframe types *)
Fixpoint index_of_type (l : list KeyframeType) (x : KeyframeType)
    : outcome nat :=
  match l with
  | [] => Raise ValueError
  | y :: l' =>
      if KeyframeType_eqb y x then Ok O
      else (i <- index_of_type l' x ;; Ok (S i))
  end.

(** A comprehension whose condition may raise. *)
Fixpoint filter_m {A} (p : A -> outcome bool) (l : list A)
    : outcome (list A) :=
  match l with
  | [] => Ok []
  | x :: l' =>
      b <- p x ;;
      rest <- filter_m p l' ;;
      Ok (if b then x :: rest else rest)
  end.

(** The impacted layers; [gpd.layers.active] is [None] without active
    layer. *)
Definition flip_layers (gpd : GreasePencil) : list (option GPencilLayer) :=
  match layer_mode (flipping_settings gpd) with
  | VISIBLE => map Some (filter (fun gpl => negb (hide gpl)) (layers gpd))
  | ACTIVE => [layers_active gpd]
  end.

(** The condition on the keyframe type. *)
Definition type_passes (h : fstore) (gpd : GreasePencil) (kf : fref)
    : outcome bool :=
  if negb (use_filter (flipping_settings gpd)) then Ok true
  else
    i <- index_of_type keyframe_types_list (keyframe_type (h kf)) ;;
    getitem (keyframe_types_filter (flipping_settings gpd)) i.

(** The flat list of the keyframes that match the filter settings, and are
    in the preview range if enabled. *)
Definition flip_frames (h : fstore) (gpd : GreasePencil) (scene : Scene.t)
    : outcome (list fref) :=
  per_layer <-
    for_each
      (fun gpl =>
         match gpl with
         | Some gpl => Ok (frames gpl)
         | None => Raise AttributeError
         end)
      (flip_layers gpd) ;;
  frames <- filter_m (type_passes h gpd) (concat per_layer) ;;
  let preview_start := Scene.frame_preview_start scene in
  let preview_end := Scene.frame_preview_end scene in
  if use_preview_range (flipping_settings gpd) && Scene.use_preview_range scene
  then Ok (filter
             (fun kf =>
                (preview_start <=? fnum h kf)%Z && (fnum h kf <=? preview_end)%Z)
             frames)
  else Ok frames.

Definition compare_func (direction : Direction) (x y : Z) : bool :=
  match direction with
  | LEFT => (x <? y)%Z
  | RIGHT => (x >? y)%Z
  end.

Definition ANIM_OT_keyframes_flip_execute (use_negative_frames : bool)
    (direction : Direction) (h : fstore)
    (gpd : GreasePencil) (scene : Scene.t) : outcome (status * Scene.t) :=
  frames <- flip_frames h gpd scene ;;
  match frames with
  | [] => Ok (CANCELLED, scene)
  | _ =>
      let sorted_frames :=
        sorted (fnum h)
          (match direction with LEFT => true | RIGHT => false end) frames in
      let actframe := Scene.frame_current scene in
      fallback <- (if loop (flipping_settings gpd)
                   then (kf <- getitem sorted_frames 0 ;; Ok (Some kf))
                   else Ok None) ;;
      let keyframe :=
        match find (fun kf => compare_func direction (fnum h kf) actframe)
                sorted_frames with
        | Some kf => Some kf
        | None => fallback
        end in
      match keyframe with
      | None => Ok (CANCELLED, scene)
      | Some keyframe =>
          scene <- Scene.set_frame_current use_negative_frames scene
                     (fnum h keyframe) ;;
          Ok (FINISHED, scene)
      end
  end.

(** *** ANIM_OT_lightbox_edit *)

Inductive LightboxAction : Type :=
| ADD
| REMOVE
| CLEAR.

(** [key.tag = v] and [keyframe.select = v] on the object behind [r]. *)
Definition set_tag (h : fstore) (r : fref) (v : bool) : fstore :=
  fun r' =>
    if (r' =? r)%nat
    then mkFrame (frame_number (h r)) (frame_select (h r)) v
           (keyframe_type (h r))
    else h r'.

Definition set_select (h : fstore) (r : fref) (v : bool) : fstore :=
  fun r' =>
    if (r' =? r)%nat
    then mkFrame (frame_number (h r)) v (frame_tag (h r))
           (keyframe_type (h r))
    else h r'.

Definition ANIM_OT_lightbox_edit_execute (action : LightboxAction)
    (h : fstore) (gp : GreasePencil) : status * fstore :=
  let selected_filter :=
    match action with ADD => true | REMOVE => true | CLEAR => false end in
  let onion_tag_filter :=
    match action with ADD => false | REMOVE => true | CLEAR => true end in
  let keyframes :=
    get_gp_keyframes h gp LayerTraits_NONE
      (frame_options_to_traits selected_filter onion_tag_filter)
      0%Z sys_maxsize in
  match keyframes with
  | [] => (CANCELLED, h)
  | _ =>
      (FINISHED,
       fold_left
         (fun h key =>
            set_tag h key (match action with ADD => true | _ => false end))
         keyframes h)
  end.

(** *** TRANSFORM_OT_keyframes_shift *)

Module TRANSFORM_OT_keyframes_shift.

(** The operator: its properties, [self.options.is_invoke], and the two
    attributes [setup] assigns, which are missing before. *)
Record t : Type := mk {
  offset : Z;
  only_active_layer : bool;
  only_selected_layers : bool;
  interactive : bool;
  is_invoke : bool;
  keyframes : option (list fref);
  first_keyframe_init_value : option Z
}.

Definition set_offset (self : t) (v : Z) : t :=
  mk v (only_active_layer self) (only_selected_layers self) (interactive self)
    (is_invoke self) (keyframes self) (first_keyframe_init_value self).

Definition setup (self : t) (h : fstore) (gp : GreasePencil) (scene : Scene.t)
    : t :=
  let found :=
    get_gp_keyframes h gp
      (layer_options_to_traits (only_active_layer self) true
         (only_selected_layers self))
      FrameTraits_NONE (Scene.frame_current scene + 1)%Z sys_maxsize in
  match found with
  | [] =>
      mk (offset self) (only_active_layer self) (only_selected_layers self)
        (interactive self) (is_invoke self) (Some found)
        (first_keyframe_init_value self)
  | first :: _ =>
      mk (offset self) (only_active_layer self) (only_selected_layers self)
        (interactive self) (is_invoke self) (Some found) (Some (fnum h first))
  end.

Section Host.

(** The host operator [bpy.ops.action.select_all(action="DESELECT")]. *)
Variable select_all_DESELECT : fstore -> fstore.

(** The callbacks give their result, or the exception raised, with the
    store as they leave it. *)
Definition execute (self : t) (h : fstore) (gp : GreasePencil)
    (scene : Scene.t) : outcome (status * t) * fstore :=
  let self := if negb (is_invoke self) then setup self h gp scene else self in
  if negb (is_invoke self)
     && match keyframes self with Some [] => true | _ => false end
  then (Ok (CANCELLED, self), h)
  else
    match (found <- attribute (keyframes self) ;;
           first <- getitem found 0 ;;
           init <- attribute (first_keyframe_init_value self) ;;
           Ok (found, first, init)) with
    | Ok (found, first, init) =>
        let current_delta := (fnum h first - init)%Z in
        let offset := (offset self - current_delta)%Z in
        let (res, h) :=
          shift_keyframes found offset (Scene.frame_current scene + 1)%Z true h in
        match res with
        | Ok res =>
            if negb res then (Ok (CANCELLED, self), h)
            else
              let h := select_all_DESELECT h in
              let h :=
                fold_left (fun h keyframe => set_select h keyframe true) found h in
              (Ok (FINISHED, self), h)
        | Raise e => (Raise e, h)
        | OutOfFuel => (OutOfFuel, h)
        end
    | Raise e => (Raise e, h)
    | OutOfFuel => (OutOfFuel, h)
    end.

(** The calls of [invoke] that set the cursor, read the mouse and add the
    modal handler act on the window only. *)
Definition invoke (self : t) (h : fstore) (gp : GreasePencil)
    (scene : Scene.t) : outcome (status * t) * fstore :=
  let self := setup self h gp scene in
  match attribute (keyframes self) with
  | Ok [] => (Ok (CANCELLED, self), h)
  | Ok _ =>
      if interactive self then (Ok (RUNNING_MODAL, self), h)
      else execute self h gp scene
  | Raise e => (Raise e, h)
  | OutOfFuel => (OutOfFuel, h)
  end.

Definition cancel (self : t) (h : fstore) (gp : GreasePencil)
    (scene : Scene.t) : outcome t * fstore :=
  if negb (offset self =? 0)%Z
  then
    let self := set_offset self 0%Z in
    let (res, h) := execute self h gp scene in
    (r <- res ;; Ok (snd r), h)
  else (Ok self, h).

End Host.

End TRANSFORM_OT_keyframes_shift.

(** *** FlippingUndoHandler *)

Module FlippingUndoHandler.

(** [context.active_object]: its mode, and its data if any. *)
Record Object : Type := mkObject {
  mode : string;
  data : option GreasePencil
}.

Definition gpencil_edit_geo_modes : list string :=
  ["PAINT_GPENCIL"; "SCULPT_GPENCIL"; "EDIT_GPENCIL"].

Definition get_active_gpd (active_object : option Object)
    : outcome (option GreasePencil) :=
  match active_object with
  | None => Raise AttributeError
  | Some obact =>
      if negb (existsb (String.eqb (mode obact)) gpencil_edit_geo_modes)
      then Ok None
      else Ok (data obact)
  end.

(** [get_addon_prefs().anim_flipping_undo_mode == "STICK_TO_FRAME"] *)
Definition undo_stick_to_frame (anim_flipping_undo_mode : string) : bool :=
  anim_flipping_undo_mode =? "STICK_TO_FRAME".

(** The handler, on the scene and on [wm.gp_last_edit_frame]. *)
Definition on_undo_post (use_negative_frames : bool)
    (anim_flipping_undo_mode : string)
    (active_object : option Object) (scene : Scene.t)
    (gp_last_edit_frame : Z) : outcome (Scene.t * Z) :=
  if negb (undo_stick_to_frame anim_flipping_undo_mode)
  then Ok (scene, gp_last_edit_frame)
  else
    gpd <- get_active_gpd active_object ;;
    match gpd with
    | None => Ok (scene, gp_last_edit_frame)
    | Some _ =>
        let scene_frame := Scene.frame_current scene in
        if negb (scene_frame =? gp_last_edit_frame)%Z
        then
          scene <- Scene.set_frame_current use_negative_frames scene
                     gp_last_edit_frame ;;
          Ok (scene, scene_frame)
        else Ok (scene, gp_last_edit_frame)
    end.

End FlippingUndoHandler.

(** *** GPencilCurrentKeyframeSettings *)

Section CurrentKeyframe.

(** The host's [GPencilLayer.active_frame]: the keyframe of the layer that
    is displayed at the current frame, if any. *)
Variable active_frame : GPencilLayer -> option fref.

Definition get_active_gp_keyframe (gpd : GreasePencil) : option fref :=
  match layers_active gpd with
  | Some active => active_frame active
  | None => None
  end.

Definition get_current_keyframe_duration (h : fstore) (gpd : GreasePencil)
    : outcome Z :=
  match get_active_gp_keyframe gpd with
  | None => Ok 0%Z
  | Some gpf =>
      active <- attribute (layers_active gpd) ;;
      match find (fun kf => (fnum h kf >? fnum h gpf)%Z) (frames active) with
      | Some kf => Ok (fnum h kf - fnum h gpf)%Z
      | None => Ok 0%Z
      end
  end.

(** The setter, which gives nothing, or the exception raised, with the store
    and the scene as it leaves them;  the areas tagged for redraw are of the
    window only. *)
Definition set_current_keyframe_duration (h : fstore) (gpd : GreasePencil)
    (scene : Scene.t) (duration : Z) : outcome unit * (fstore * Scene.t) :=
  match get_active_gp_keyframe gpd with
  | None => (Ok tt, (h, scene))
  | Some gpf =>
      match get_current_keyframe_duration h gpd with
      | Ok current =>
          let offset := (duration - current)%Z in
          match Scene.frame_set scene (fnum h gpf) with
          | Ok scene =>
              let (moved, h) :=
                shift_gp_keyframes h gpd (fnum h gpf) offset false true true
                  false in
              (_ <- moved ;; Ok tt, (h, scene))
          | Raise e => (Raise e, (h, scene))
          | OutOfFuel => (OutOfFuel, (h, scene))
          end
      | Raise e => (Raise e, (h, scene))
      | OutOfFuel => (OutOfFuel, (h, scene))
      end
  end.

End CurrentKeyframe.

(** *** What the statements below speak of *)

(** The frame the scene keeps for [n]: a frame of the host's range, and 0
    for a negative one unless negative frames are allowed. *)
Definition scene_frame (use_negative_frames : bool) (n : Z) : Z :=
  if negb use_negative_frames && (n <? 0)%Z then 0%Z else kept_frame n.

(** The place of a keyframe type in [keyframe_types]. *)
Definition type_index (t : KeyframeType) : nat :=
  match t with
  | KEYFRAME => 0
  | EXTREME => 1
  | BREAKDOWN => 2
  | JITTER => 3
  | MOVING_HOLD => 4
  end.

(** Is the keyframe ahead of frame [actframe] in the direction? *)
Definition ahead (direction : Direction) (h : fstore) (actframe : Z)
    (kf : fref) : Prop :=
  match direction with
  | LEFT => (fnum h kf < actframe)%Z
  | RIGHT => (actframe < fnum h kf)%Z
  end.

(** Is [a] met no later than [b] when going in the direction? *)
Definition met_before (direction : Direction) (h : fstore) (a b : fref)
    : Prop :=
  match direction with
  | LEFT => (fnum h b <= fnum h a)%Z
  | RIGHT => (fnum h a <= fnum h b)%Z
  end.

(** The operator has been set up on the keyframes [found] with the store
    [h0], and the store is now [h]: each keyframe is at the same distance
    [d] from where it was, none is at or before the current frame. *)
Definition shifted_by (self : TRANSFORM_OT_keyframes_shift.t)
    (scene : Scene.t) (h0 h : fstore) (found : list fref) (d : Z) : Prop :=
  TRANSFORM_OT_keyframes_shift.keyframes self = Some found
  /\ found <> []
  /\ NoDup found
  /\ StronglySorted (fun a b => fnum h0 a <= fnum h0 b)%Z found
  /\ TRANSFORM_OT_keyframes_shift.first_keyframe_init_value self
     = option_map (fnum h0) (hd_error found)
  /\ (forall r, In r found ->
        fnum h r = (fnum h0 r + d)%Z
        /\ (Scene.frame_current scene < fnum h0 r)%Z
        /\ (Scene.frame_current scene < fnum h r)%Z)
  /\ (forall r, ~ In r found -> fnum h r = fnum h0 r).

(** Fixtures: a scene at frame 5, an operator that was invoked, a host
    operator that deselects every keyframe. *)
Definition fixture_scene : Scene.t := Scene.mk 5 1 250 false.
Definition fixture_operator (offset : Z) : TRANSFORM_OT_keyframes_shift.t :=
  TRANSFORM_OT_keyframes_shift.mk offset false false true true None None.
Definition fixture_shift_gp : GreasePencil :=
  fixture_gp [fixture_layer [3; 4; 5]%nat; fixture_layer [7; 9; 12]%nat]
    (Some 1%nat).
Definition fixture_deselect (h : fstore) : fstore :=
  fun r =>
    mkFrame (frame_number (h r)) false (frame_tag (h r)) (keyframe_type (h r)).

Close Scope string_scope.
(** * Properties *)

(** ** Test-suite runs (tests/test_animation.py) *)

Example test_duplicate_no_keyframes :
  gp_compute_list_of_frames_to_duplicate fixture_store (fixture_layer []) [1; 2; 3]
  = Ok [].
Proof. reflexivity. Qed.

Example test_duplicate_simple :
  gp_compute_list_of_frames_to_duplicate fixture_store (fixture_layer [0%nat]) [1; 2; 3]
  = Ok [(0%nat, 1); (0%nat, 2); (0%nat, 3)].
Proof. reflexivity. Qed.

Example test_duplicate_duplicate :
  gp_compute_list_of_frames_to_duplicate fixture_store
    (fixture_layer [0%nat; 3%nat]) [1; 2; 3]
  = Ok [(0%nat, 1); (0%nat, 2)].
Proof. reflexivity. Qed.

Example test_duplicate_before_first :
  gp_compute_list_of_frames_to_duplicate fixture_store
    (fixture_layer [3%nat]) [1; 2; 3; 4]
  = Ok [(3%nat, 4)].
Proof. reflexivity. Qed.

Example test_duplicate_complicated :
  gp_compute_list_of_frames_to_duplicate fixture_store
    (fixture_layer [3%nat; 6%nat]) [1; 2; 4; 5; 6; 7]
  = Ok [(3%nat, 4); (3%nat, 5); (6%nat, 7)].
Proof. reflexivity. Qed.

Example test_shift_positive_offset :
  let gp := fixture_gp [fixture_layer [3; 4; 5; 7; 9; 12]%nat] (Some 0%nat) in
  let (res, h') := shift_gp_keyframes fixture_store gp 5 1 false false false false in
  res = Ok [7; 9; 12]%nat /\
  map (fnum h') [3; 4; 5; 7; 9; 12]%nat = [3; 4; 5; 8; 10; 13].
Proof. vm_compute. auto. Qed.

Example test_shift_non_applicable_negative_offset :
  let gp := fixture_gp [fixture_layer [3; 4; 5; 7; 9; 12]%nat] (Some 0%nat) in
  let (res, h') := shift_gp_keyframes fixture_store gp 4 (-10) false false false false in
  res = Ok [] /\
  map (fnum h') [3; 4; 5; 7; 9; 12]%nat = [3; 4; 5; 7; 9; 12].
Proof. vm_compute. auto. Qed.

(** ** Lists and indices *)

Lemma getitem_Some {A} (l : list A) (i : nat) (a : A) :
  nth_error l i = Some a -> getitem l i = Ok a.
Proof. unfold getitem. now intros ->. Qed.

Lemma getitem_None {A} (l : list A) (i : nat) :
  (length l <= i)%nat -> getitem l i = Raise IndexError.
Proof.
  intros H. unfold getitem.
  now rewrite (proj2 (nth_error_None l i) H).
Qed.

Lemma nth_error_Some_length {A} (l : list A) (i : nat) (a : A) :
  nth_error l i = Some a -> (i < length l)%nat.
Proof. intros H. apply nth_error_Some. congruence. Qed.

Lemma nth_error_middle {A} (pre suf : list A) (x : A) :
  nth_error (pre ++ x :: suf) (length pre) = Some x.
Proof. rewrite nth_error_app2, Nat.sub_diag by lia. reflexivity. Qed.

Lemma app_cons_assoc {A} (pre suf : list A) (x : A) :
  pre ++ x :: suf = (pre ++ [x]) ++ suf.
Proof. now rewrite <- app_assoc. Qed.

Lemma Sorted_le_strongly (l : list Z) : Sorted Z.le l -> StronglySorted Z.le l.
Proof. apply Sorted_StronglySorted. intros x y z; lia. Qed.

Lemma StronglySorted_app_r {A} (R : A -> A -> Prop) (l1 l2 : list A) :
  StronglySorted R (l1 ++ l2) -> StronglySorted R l2.
Proof.
  induction l1 as [|a l1 IH]; simpl; auto.
  intros H. inversion H; subst. auto.
Qed.

Lemma StronglySorted_nth (l : list Z) (i j : nat) (x y : Z) :
  StronglySorted Z.le l -> (i <= j)%nat ->
  nth_error l i = Some x -> nth_error l j = Some y -> x <= y.
Proof.
  intros Hs. revert i j.
  induction Hs as [|a l Hs IH Hall]; intros i j Hij Hi Hj.
  - destruct i; discriminate.
  - destruct i as [|i], j as [|j]; simpl in *; try lia.
    + inversion Hi; inversion Hj; subst; lia.
    + inversion Hi; subst.
      apply nth_error_In in Hj.
      rewrite Forall_forall in Hall. auto.
    + apply (IH i j); auto; lia.
Qed.

(** ** gp_compute_list_of_frames_to_duplicate *)

Section Duplicate.

Variable h : fstore.
Variable gpl : GPencilLayer.

Let no_key (t : Z) : bool := negb (has_key_at h gpl t).

Lemma has_key_at_true (t : Z) (r : fref) :
  In r (frames gpl) -> fnum h r = t -> has_key_at h gpl t = true.
Proof.
  intros Hin Heq. unfold has_key_at. apply existsb_exists.
  exists r. split; auto. now apply Z.eqb_eq.
Qed.

Lemma has_key_at_false (t : Z) :
  (forall r, In r (frames gpl) -> fnum h r <> t) -> has_key_at h gpl t = false.
Proof.
  intros H. unfold has_key_at.
  destruct (existsb _ _) eqn:E; auto.
  apply existsb_exists in E. destruct E as (r & Hin & Heq).
  apply Z.eqb_eq in Heq. now elim (H r Hin).
Qed.

Hypothesis keys_sorted : StronglySorted Z.le (layer_keys h gpl).

Lemma key_le (k j : nat) (g r : fref) :
  (k <= j)%nat -> nth_error (frames gpl) k = Some g ->
  nth_error (frames gpl) j = Some r -> fnum h g <= fnum h r.
Proof.
  intros Hkj Hk Hj.
  apply (StronglySorted_nth (layer_keys h gpl) k j); auto;
    unfold layer_keys; rewrite nth_error_map; [now rewrite Hk | now rewrite Hj].
Qed.

(** Nothing lies strictly between two neighbouring keys, nor after the last. *)
Lemma keys_around (j : nat) (rj : fref) (t : Z) (g : fref) :
  nth_error (frames gpl) j = Some rj ->
  (forall r1, nth_error (frames gpl) (j + 1) = Some r1 -> t < fnum h r1) ->
  In g (frames gpl) -> fnum h g <= t -> fnum h g <= fnum h rj.
Proof.
  intros Hj Hnext Hin Hle.
  destruct (In_nth_error _ _ Hin) as [k Hk].
  destruct (Nat.le_gt_cases k j) as [Hkj|Hkj].
  - now apply (key_le k j).
  - assert (Hlen : (j + 1 < length (frames gpl))%nat).
    { apply nth_error_Some_length in Hk. lia. }
    destruct (nth_error (frames gpl) (j + 1)) as [r1|] eqn:E1.
    + specialize (Hnext r1 eq_refl).
      assert (fnum h r1 <= fnum h g) by (apply (key_le (j + 1) k); auto; lia).
      lia.
    + apply nth_error_None in E1. lia.
Qed.

Lemma duplicate_loop_spec (fuel : nat) :
  forall (pre suf : list Z) (j : nat) (rj : fref) (acc : list (fref * Z)),
    StronglySorted Z.le suf ->
    nth_error (frames gpl) j = Some rj ->
    Forall (fun t => fnum h rj <= t) suf ->
    (length suf + (length (frames gpl) - j) <= fuel)%nat ->
    exists out,
      duplicate_loop fuel h (frames gpl) (pre ++ suf) (length pre) j acc
      = Ok (acc ++ out)
      /\ map snd out = filter no_key suf
      /\ Forall (fun p => visible_at h gpl (snd p) (fst p)) out.
Proof.
  induction fuel as [|fuel IH]; intros pre suf j rj acc Hs Hj Hinv Hfuel.
  - apply nth_error_Some_length in Hj. lia.
  - assert (Hjlen := nth_error_Some_length _ _ _ Hj).
    simpl. destruct suf as [|t suf].
    + rewrite app_nil_r.
      assert ((length pre <? length pre)%nat = false) as -> by (apply Nat.ltb_ge; lia).
      exists []. rewrite app_nil_r. repeat split; auto.
    + assert ((length pre <? length (pre ++ t :: suf))%nat = true) as ->.
      { apply Nat.ltb_lt. rewrite length_app. simpl. lia. }
      rewrite (getitem_Some _ _ t) by apply nth_error_middle.
      rewrite (getitem_Some _ _ rj Hj). simpl.
      inversion Hs as [|? ? Hs' Hall]; subst.
      inversion Hinv as [|? ? Hcur Hinv']; subst.
      assert (Hnext_step :
        exists out,
          duplicate_loop fuel h (frames gpl) (pre ++ t :: suf) (S (length pre)) j acc
          = Ok (acc ++ out)
          /\ map snd out = filter no_key suf
          /\ Forall (fun p => visible_at h gpl (snd p) (fst p)) out).
      { intros. rewrite app_cons_assoc.
        replace (S (length pre)) with (length (pre ++ [t]))
          by (rewrite length_app; simpl; lia).
        apply (IH _ suf j rj); auto. simpl in Hfuel. lia. }
      assert (Hcopy :
        (forall r1, nth_error (frames gpl) (j + 1) = Some r1 -> t < fnum h r1) ->
        fnum h rj <> t ->
        exists out,
          duplicate_loop fuel h (frames gpl) (pre ++ t :: suf) (S (length pre)) j
            (acc ++ [(rj, t)])
          = Ok (acc ++ out)
          /\ map snd out = filter no_key (t :: suf)
          /\ Forall (fun p => visible_at h gpl (snd p) (fst p)) out).
      { intros Hnext Hne.
        rewrite app_cons_assoc.
        replace (S (length pre)) with (length (pre ++ [t]))
          by (rewrite length_app; simpl; lia).
        destruct (IH (pre ++ [t]) suf j rj (acc ++ [(rj, t)])) as (out & E & Hm & Hv);
          auto; [simpl in Hfuel; lia|].
        exists ((rj, t) :: out). rewrite E, <- app_assoc. simpl.
        assert (Hvis : visible_at h gpl t rj).
        { split; [now apply nth_error_In with j|]. split; [lia|].
          intros g Hg Hle. now apply (keys_around j rj t g). }
        assert (no_key t = true) as ->.
        { unfold no_key. rewrite has_key_at_false; auto.
          intros r Hr Heq.
          assert (fnum h r <= fnum h rj) by (apply (keys_around j rj t r); auto; lia).
          lia. }
        repeat split; auto. now rewrite Hm. }
      destruct (t =? fnum h rj) eqn:Et.
      * apply Z.eqb_eq in Et.
        destruct Hnext_step as (out & E & Hm & Hv).
        exists out. rewrite E. simpl.
        assert (no_key t = false) as ->.
        { unfold no_key. rewrite (has_key_at_true t rj); auto.
          now apply nth_error_In with j. }
        auto.
      * apply Z.eqb_neq in Et.
        destruct (j + 1 <? length (frames gpl))%nat eqn:Ej.
        -- apply Nat.ltb_lt in Ej.
           destruct (nth_error (frames gpl) (j + 1)) as [r1|] eqn:E1;
             [|apply nth_error_None in E1; lia].
           rewrite (getitem_Some _ _ r1 E1). simpl.
           destruct (t <? fnum h r1) eqn:En.
           ++ apply Z.ltb_lt in En. apply Hcopy; [|lia].
              intros r1' Hr1'. congruence.
           ++ apply Z.ltb_ge in En.
              replace (S j) with (j + 1)%nat by lia.
              apply (IH pre (t :: suf) (j + 1)%nat r1 acc); auto.
              ** constructor; [lia|].
                 rewrite Forall_forall in *. intros x Hx.
                 specialize (Hall x Hx). lia.
              ** simpl in *. lia.
        -- apply Nat.ltb_ge in Ej. apply Hcopy; [|lia].
           intros r1 Hr1. apply nth_error_Some_length in Hr1. lia.
Qed.

End Duplicate.

Lemma skip_before_first_found (first : Z) (below : list Z) :
  forall (pre rest : list Z) (t : Z) (fuel : nat),
    Forall (fun x => x < first) below -> first <= t ->
    (length below < fuel)%nat ->
    skip_before_first fuel (pre ++ below ++ t :: rest) first (length pre)
    = Ok (length (pre ++ below)).
Proof.
  induction below as [|b below IH]; intros pre rest t fuel Hb Ht Hfuel.
  - destruct fuel; [simpl in Hfuel; lia|]. simpl.
    rewrite (getitem_Some _ _ t) by apply nth_error_middle. simpl.
    assert ((t <? first) = false) as -> by (apply Z.ltb_ge; lia).
    now rewrite app_nil_r.
  - destruct fuel; [simpl in Hfuel; lia|]. simpl.
    inversion Hb; subst.
    rewrite (getitem_Some _ _ b) by apply nth_error_middle. simpl.
    assert ((b <? first) = true) as -> by (apply Z.ltb_lt; lia).
    rewrite (app_cons_assoc pre), (app_cons_assoc pre below b).
    replace (S (length pre)) with (length (pre ++ [b]))
      by (rewrite length_app; simpl; lia).
    apply IH; auto. simpl in Hfuel. lia.
Qed.

Lemma skip_before_first_overrun (first : Z) (suf : list Z) :
  forall (pre : list Z) (fuel : nat),
    Forall (fun x => x < first) suf -> (length suf < fuel)%nat ->
    skip_before_first fuel (pre ++ suf) first (length pre) = Raise IndexError.
Proof.
  induction suf as [|b suf IH]; intros pre fuel Hb Hfuel.
  - destruct fuel; [simpl in Hfuel; lia|]. simpl.
    rewrite getitem_None; auto. rewrite app_nil_r. lia.
  - destruct fuel; [simpl in Hfuel; lia|]. simpl.
    inversion Hb; subst.
    rewrite (getitem_Some _ _ b) by apply nth_error_middle. simpl.
    assert ((b <? first) = true) as -> by (apply Z.ltb_lt; lia).
    rewrite app_cons_assoc.
    replace (S (length pre)) with (length (pre ++ [b]))
      by (rewrite length_app; simpl; lia).
    apply IH; auto. simpl in Hfuel. lia.
Qed.

Lemma skip_before_first_from_start (first : Z) (below rest : list Z) (t : Z)
    (fuel : nat) :
  Forall (fun x => x < first) below -> first <= t ->
  (length below < fuel)%nat ->
  skip_before_first fuel (below ++ t :: rest) first 0 = Ok (length below).
Proof. exact (skip_before_first_found first below [] rest t fuel). Qed.

Lemma skip_before_first_overrun_from_start (first : Z) (l : list Z) (fuel : nat) :
  Forall (fun x => x < first) l -> (length l < fuel)%nat ->
  skip_before_first fuel l first 0 = Raise IndexError.
Proof. exact (skip_before_first_overrun first l [] fuel). Qed.

(** The targets split at the first one that is not before [first]. *)
Lemma split_at_first_reached (first : Z) (l : list Z) :
  Exists (fun t => first <= t) l ->
  exists below t rest,
    l = below ++ t :: rest /\ Forall (fun x => x < first) below /\ first <= t.
Proof.
  induction l as [|x l IH]; intros H.
  - inversion H.
  - destruct (Z.le_gt_cases first x) as [Hx|Hx].
    + exists [], x, l. auto.
    + inversion H; subst; [lia|].
      destruct (IH H1) as (below & t & rest & -> & Hb & Ht).
      exists (x :: below), t, rest.
      split; [reflexivity|]. split; [|assumption].
      constructor; [lia|assumption].
Qed.

(** C1.  On a layer without keys the result is the empty list.  On a layer
    whose keys are in ascending frame order, and for ascending targets of
    which at least one is at or after the first key, the function returns
    (it does not raise) the list that has, in the order of the targets, one
    pair [(f, t)] for each target [t] at or after the first key with no key
    at [t], and none for the other targets; [f] is the key visible at [t]. *)
Theorem gp_compute_list_of_frames_to_duplicate_correct
    (h : fstore) (gpl : GPencilLayer) (frame_numbers : list Z) :
  (frames gpl = [] ->
   gp_compute_list_of_frames_to_duplicate h gpl frame_numbers = Ok [])
  /\
  (forall f0 : fref,
     nth_error (frames gpl) 0 = Some f0 ->
     Sorted Z.le (layer_keys h gpl) ->
     Sorted Z.le frame_numbers ->
     Exists (fun t => fnum h f0 <= t) frame_numbers ->
     exists out,
       gp_compute_list_of_frames_to_duplicate h gpl frame_numbers = Ok out
       /\ map snd out
          = filter (fun t => (fnum h f0 <=? t) && negb (has_key_at h gpl t))
              frame_numbers
       /\ Forall (fun p => visible_at h gpl (snd p) (fst p)) out).
Proof.
  split.
  - intros E. unfold gp_compute_list_of_frames_to_duplicate. now rewrite E.
  - intros f0 Hf0 Hkeys Htargets Hex.
    apply Sorted_le_strongly in Hkeys, Htargets.
    destruct (split_at_first_reached _ _ Hex) as (below & t & rest & -> & Hb & Ht).
    unfold gp_compute_list_of_frames_to_duplicate.
    assert (Hlen := nth_error_Some_length _ _ _ Hf0).
    assert ((length (frames gpl) =? 0)%nat = false) as ->
      by (apply Nat.eqb_neq; lia).
    rewrite (getitem_Some _ _ f0 Hf0). unfold bind.
    rewrite (skip_before_first_from_start (fnum h f0) below rest t) by
      (auto; rewrite length_app; simpl; lia).
    assert (Hsuf : StronglySorted Z.le (t :: rest))
      by exact (StronglySorted_app_r _ _ _ Htargets).
    assert (Hreach : Forall (fun x => fnum h f0 <= x) (t :: rest)).
    { inversion Hsuf as [|? ? _ Hall]; subst. constructor; auto.
      rewrite Forall_forall in *. intros x Hx. specialize (Hall x Hx). lia. }
    destruct (duplicate_loop_spec h gpl Hkeys
                (S (length (below ++ t :: rest) + length (frames gpl)))
                below (t :: rest) 0%nat f0 [] Hsuf Hf0 Hreach)
      as (out & E & Hm & Hv).
    { rewrite length_app. simpl. lia. }
    exists out. split; [exact E|]. split; [|exact Hv].
    rewrite Hm, filter_app.
    assert (filter (fun t0 => (fnum h f0 <=? t0) && negb (has_key_at h gpl t0)) below
            = []) as ->.
    { clear -Hb. induction Hb as [|x l Hx _ IH]; simpl; auto.
      assert ((fnum h f0 <=? x) = false) as -> by (apply Z.leb_gt; lia).
      simpl. exact IH. }
    rewrite app_nil_l. apply filter_ext_in.
    intros x Hx. rewrite Forall_forall in Hreach.
    assert ((fnum h f0 <=? x) = true) as -> by (apply Z.leb_le; auto).
    reflexivity.
Qed.

Lemma gp_compute_list_of_frames_to_duplicate_correct_witness :
  exists out,
    gp_compute_list_of_frames_to_duplicate fixture_store
      (fixture_layer [3; 6]%nat) [1; 2; 4; 5; 6; 7] = Ok out
    /\ map snd out = [4; 5; 7]
    /\ Forall (fun p => visible_at fixture_store (fixture_layer [3; 6]%nat)
                          (snd p) (fst p)) out.
Proof.
  apply (proj2 (gp_compute_list_of_frames_to_duplicate_correct fixture_store
                  (fixture_layer [3; 6]%nat) [1; 2; 4; 5; 6; 7]) 3%nat).
  - reflexivity.
  - repeat (constructor; try (vm_compute; discriminate)).
  - repeat (constructor; try (vm_compute; discriminate)).
  - apply Exists_cons_tl, Exists_cons_tl, Exists_cons_hd. vm_compute. discriminate.
Defined.

(** C9.  On a layer with at least one key, when [frame_numbers] is empty or
    all its entries are strictly before the first key, the skip loop runs
    off the end of [frame_numbers] and the function raises [IndexError]. *)
Theorem gp_compute_list_of_frames_to_duplicate_index_error
    (h : fstore) (gpl : GPencilLayer) (frame_numbers : list Z) (f0 : fref) :
  nth_error (frames gpl) 0 = Some f0 ->
  frame_numbers = [] \/ Forall (fun t => t < fnum h f0) frame_numbers ->
  gp_compute_list_of_frames_to_duplicate h gpl frame_numbers = Raise IndexError.
Proof.
  intros Hf0 Hbelow.
  assert (Hall : Forall (fun t => t < fnum h f0) frame_numbers).
  { destruct Hbelow as [->|H]; [constructor|exact H]. }
  unfold gp_compute_list_of_frames_to_duplicate.
  assert (Hlen := nth_error_Some_length _ _ _ Hf0).
  assert ((length (frames gpl) =? 0)%nat = false) as ->
    by (apply Nat.eqb_neq; lia).
  rewrite (getitem_Some _ _ f0 Hf0). unfold bind.
  rewrite (skip_before_first_overrun_from_start (fnum h f0) frame_numbers) by
    (auto; lia).
  reflexivity.
Qed.

Lemma gp_compute_list_of_frames_to_duplicate_index_error_witness :
  gp_compute_list_of_frames_to_duplicate fixture_store
    (fixture_layer [3; 6]%nat) [1; 2] = Raise IndexError.
Proof.
  apply (gp_compute_list_of_frames_to_duplicate_index_error fixture_store
           (fixture_layer [3; 6]%nat) [1; 2] 3%nat).
  - reflexivity.
  - right. repeat (constructor; try reflexivity).
Defined.

(** ** shift_keyframes *)

Lemma py_min_by_fold {A} (key : A -> Z) (l : list A) :
  forall x,
    let m := fold_left (fun m y => if key y <? key m then y else m) l x in
    In m (x :: l) /\ key m <= key x /\ forall y, In y l -> key m <= key y.
Proof.
  induction l as [|a l IH]; intros x; simpl.
  - split; [now left|]. split; [lia|]. intros y [].
  - destruct (key a <? key x) eqn:E.
    + apply Z.ltb_lt in E. destruct (IH a) as (Hin & Hle & Hall).
      repeat split.
      * destruct Hin as [<-|Hin]; auto.
      * lia.
      * intros y [<-|Hy]; auto.
    + apply Z.ltb_ge in E. destruct (IH x) as (Hin & Hle & Hall).
      repeat split.
      * destruct Hin as [<-|Hin]; auto.
      * lia.
      * intros y [<-|Hy]; [lia|auto].
Qed.

Lemma py_min_by_spec {A} (key : A -> Z) (l : list A) :
  l <> [] ->
  exists m, py_min_by key l = Ok m /\ In m l /\ forall y, In y l -> key m <= key y.
Proof.
  destruct l as [|x l]; [congruence|]. intros _.
  destruct (py_min_by_fold key l x) as (Hin & Hle & Hall).
  eexists. split; [reflexivity|]. split; [exact Hin|].
  intros y [<-|Hy]; auto.
Qed.

(** The host's limits, as numbers. *)
Ltac host_limits :=
  unfold in_frame_range, is_c_int in *;
  change (- MAXFRAME) with (-1048574) in *;
  change MAXFRAME with 1048574 in *;
  change INT_MIN with (-2147483648) in *;
  change INT_MAX with 2147483647 in *.

Lemma kept_frame_spec (n : Z) :
  Z.max (- MAXFRAME) (Z.min MAXFRAME n) = kept_frame n.
Proof.
  unfold kept_frame. host_limits.
  destruct (n <? -1048574) eqn:E1; [apply Z.ltb_lt in E1; lia|].
  apply Z.ltb_ge in E1.
  destruct (1048574 <? n) eqn:E2; [apply Z.ltb_lt in E2; lia|].
  apply Z.ltb_ge in E2. lia.
Qed.

Lemma kept_frame_in_range (n : Z) : in_frame_range (kept_frame n).
Proof.
  rewrite <- kept_frame_spec. host_limits. lia.
Qed.

Lemma kept_frame_id (n : Z) : in_frame_range n -> kept_frame n = n.
Proof.
  intros Hn. rewrite <- kept_frame_spec. host_limits. lia.
Qed.

Lemma kept_frame_monotone (a b : Z) : a <= b -> kept_frame a <= kept_frame b.
Proof.
  intros Hab. rewrite <- !kept_frame_spec. host_limits. lia.
Qed.

Lemma in_frame_range_c_int (n : Z) : in_frame_range n -> is_c_int n.
Proof. host_limits. lia. Qed.

(** An assignment of a frame number: it raises when the value is no C int,
    and else changes the one keyframe. *)
Lemma set_frame_number_cases (h : fstore) (r : fref) (n : Z) :
  (~ is_c_int n /\ set_frame_number h r n = Raise ValueError)
  \/ (is_c_int n
      /\ exists h',
           set_frame_number h r n = Ok h'
           /\ h' r = mkFrame (kept_frame n) (frame_select (h r)) (frame_tag (h r))
                       (keyframe_type (h r))
           /\ forall r', r' <> r -> h' r' = h r').
Proof.
  unfold set_frame_number, is_c_int.
  destruct (n <? INT_MIN) eqn:E1; cbn [orb].
  { apply Z.ltb_lt in E1. left. split; [lia|reflexivity]. }
  apply Z.ltb_ge in E1.
  destruct (INT_MAX <? n) eqn:E2.
  { apply Z.ltb_lt in E2. left. split; [lia|reflexivity]. }
  apply Z.ltb_ge in E2. right. split; [lia|].
  eexists. split; [reflexivity|]. split.
  - rewrite Nat.eqb_refl. now rewrite kept_frame_spec.
  - intros r' Hne. now rewrite (proj2 (Nat.eqb_neq r' r) Hne).
Qed.

Lemma moved_times_succ_r (k : nat) (f : GPencilFrame) (d : Z) :
  moved_times (S k) f d = moved_times k (moved_frame f d) d.
Proof. unfold moved_times. apply Nat.iter_succ_r. Qed.

Lemma listed_here (keyframes : list fref) (r : fref) :
  listed (r :: keyframes) r = S (listed keyframes r).
Proof. unfold listed. simpl. now destruct (Nat.eq_dec r r). Qed.

Lemma listed_later (keyframes : list fref) (k r : fref) :
  k <> r -> listed (k :: keyframes) r = listed keyframes r.
Proof. intros Hne. unfold listed. simpl. now destruct (Nat.eq_dec k r). Qed.

Lemma listed_none (keyframes : list fref) (r : fref) :
  ~ In r keyframes -> listed keyframes r = 0%nat.
Proof. intros Hnin. now apply count_occ_not_In. Qed.

Lemma listed_once (keyframes : list fref) (r : fref) :
  NoDup keyframes -> In r keyframes -> listed keyframes r = 1%nat.
Proof.
  intros Hnd Hin. unfold listed.
  rewrite (NoDup_count_occ Nat.eq_dec) in Hnd. specialize (Hnd r).
  apply (count_occ_In Nat.eq_dec) in Hin. lia.
Qed.

(** The loop: it goes through the list while the sums assigned are C ints,
    each entry moving its keyframe once, and stops with ValueError at the
    first sum that is not. *)
Lemma offset_keyframes_spec (keyframes : list fref) (offset : Z) :
  forall h : fstore,
    exists h',
      (sums_are_c_ints keyframes offset h
       /\ offset_keyframes keyframes offset h = (Ok tt, h')
       /\ forall r, h' r = moved_times (listed keyframes r) (h r) offset)
      \/ (~ sums_are_c_ints keyframes offset h
          /\ offset_keyframes keyframes offset h = (Raise ValueError, h')
          /\ forall r, exists k,
               (k <= listed keyframes r)%nat
               /\ h' r = moved_times k (h r) offset).
Proof.
  induction keyframes as [|x l IH]; intros h.
  - exists h. left. split; [|split].
    + intros r k Hk. unfold listed in Hk. simpl in Hk. lia.
    + reflexivity.
    + intros r. reflexivity.
  - cbn [offset_keyframes].
    destruct (set_frame_number_cases h x (fnum h x + offset))
      as [(Hn & ->)|(Hn & h1 & -> & Hx & Hothers)].
    + exists h. right. split; [|split].
      * intros Hall. apply Hn. apply (Hall x 0%nat).
        rewrite listed_here. lia.
      * reflexivity.
      * intros r. exists 0%nat. split; [lia|reflexivity].
    + assert (Hx' : h1 x = moved_frame (h x) offset) by exact Hx.
      assert (Hdown : sums_are_c_ints (x :: l) offset h ->
                      sums_are_c_ints l offset h1).
      { intros Hall r k Hk. destruct (Nat.eq_dec x r) as [<-|Hne].
        - rewrite Hx', <- moved_times_succ_r. apply Hall.
          rewrite listed_here. lia.
        - rewrite Hothers by congruence. apply Hall.
          now rewrite listed_later. }
      assert (Hup : sums_are_c_ints l offset h1 ->
                    sums_are_c_ints (x :: l) offset h).
      { intros Hall r k Hk. destruct (Nat.eq_dec x r) as [<-|Hne].
        - rewrite listed_here in Hk. destruct k as [|k]; [exact Hn|].
          rewrite moved_times_succ_r, <- Hx'. apply Hall. lia.
        - rewrite listed_later in Hk by exact Hne.
          rewrite <- Hothers by congruence. now apply Hall. }
      destruct (IH h1) as (h' & [(Hall & E & Hh')|(Hall & E & Hh')]).
      * exists h'. left. split; [auto|]. split; [exact E|].
        intros r. rewrite Hh'. destruct (Nat.eq_dec x r) as [<-|Hne].
        -- now rewrite listed_here, moved_times_succ_r, Hx'.
        -- rewrite listed_later by exact Hne. now rewrite Hothers by congruence.
      * exists h'. right. split; [auto|]. split; [exact E|].
        intros r. destruct (Hh' r) as (k & Hk & Hr).
        destruct (Nat.eq_dec x r) as [<-|Hne].
        -- exists (S k). rewrite listed_here. split; [lia|].
           now rewrite moved_times_succ_r, <- Hx'.
        -- exists k. rewrite listed_later by exact Hne. split; [exact Hk|].
           now rewrite <- Hothers by congruence.
Qed.

(** Where the loop stops: the entries before the first sum that is no C int
    have moved their keyframes, the others have not. *)
Lemma offset_keyframes_stops (keyframes : list fref) (offset : Z) :
  forall (h h' : fstore) (e : exn),
    offset_keyframes keyframes offset h = (Raise e, h') ->
    exists done x rest,
      keyframes = done ++ x :: rest
      /\ sums_are_c_ints done offset h
      /\ ~ is_c_int (frame_number (moved_times (listed done x) (h x) offset)
                     + offset)
      /\ forall r, h' r = moved_times (listed done r) (h r) offset.
Proof.
  induction keyframes as [|x l IH]; intros h h' e E; [discriminate|].
  cbn [offset_keyframes] in E.
  destruct (set_frame_number_cases h x (fnum h x + offset))
    as [(Hn & Es)|(Hn & h1 & Es & Hx & Hothers)]; rewrite Es in E.
  - inversion E; subst h'. exists [], x, l. split; [reflexivity|]. split.
    + intros r k Hk. unfold listed in Hk. simpl in Hk. lia.
    + split; [exact Hn|]. intros r. reflexivity.
  - assert (Hx' : h1 x = moved_frame (h x) offset) by exact Hx.
    destruct (IH h1 h' e E) as (done & y & rest & -> & Hall & Hy & Hh').
    exists (x :: done), y, rest. split; [reflexivity|]. split; [|split].
    + intros r k Hk. destruct (Nat.eq_dec x r) as [<-|Hne].
      * rewrite listed_here in Hk. destruct k as [|k]; [exact Hn|].
        rewrite moved_times_succ_r, <- Hx'. apply Hall. lia.
      * rewrite listed_later in Hk by exact Hne.
        rewrite <- Hothers by congruence. now apply Hall.
    + destruct (Nat.eq_dec x y) as [<-|Hne].
      * now rewrite listed_here, moved_times_succ_r, <- Hx'.
      * rewrite listed_later by exact Hne.
        now rewrite <- Hothers by congruence.
    + intros r. rewrite Hh'. destruct (Nat.eq_dec x r) as [<-|Hne].
      * now rewrite listed_here, moved_times_succ_r, Hx'.
      * rewrite listed_later by exact Hne. now rewrite Hothers by congruence.
Qed.

(** The offset [shift_keyframes] applies when the least frame number is [m]. *)
Lemma shift_keyframes_cases (keyframes : list fref) (offset frame_min : Z)
    (adjust_offset : bool) (h : fstore) (m : Z) :
  keyframes <> [] ->
  (exists r, In r keyframes /\ fnum h r = m) ->
  (forall r, In r keyframes -> m <= fnum h r) ->
  let applied :=
    if adjust_offset && (m + offset <? frame_min) then frame_min - m else offset in
  ((m < frame_min
    \/ (adjust_offset = false /\ m + offset < frame_min)
    \/ applied = 0)
   /\ shift_keyframes keyframes offset frame_min adjust_offset h = (Ok false, h))
  \/ (~ (m < frame_min
         \/ (adjust_offset = false /\ m + offset < frame_min)
         \/ applied = 0)
      /\ shift_keyframes keyframes offset frame_min adjust_offset h
         = (let (res, h') := offset_keyframes keyframes applied h in
            (bind res (fun _ => Ok true), h'))).
Proof.
  intros Hne (rm & Hrm & Hm) Hmin applied.
  destruct (py_min_by_spec (fnum h) keyframes Hne) as (r0 & E & Hr0 & Hleast).
  assert (Hr0m : fnum h r0 = m).
  { specialize (Hmin r0 Hr0). specialize (Hleast rm Hrm). lia. }
  unfold shift_keyframes. rewrite E, Hr0m.
  destruct (m <? frame_min) eqn:E1.
  { apply Z.ltb_lt in E1. left. split; [auto|reflexivity]. }
  apply Z.ltb_ge in E1.
  subst applied.
  destruct (m + offset <? frame_min) eqn:E2, adjust_offset; cbn [andb].
  - apply Z.ltb_lt in E2.
    destruct (frame_min - m =? 0) eqn:E3.
    + apply Z.eqb_eq in E3. left. split; [auto|reflexivity].
    + apply Z.eqb_neq in E3. right. split; [|reflexivity].
      intros [H|[[H _]|H]]; [lia|discriminate|lia].
  - apply Z.ltb_lt in E2. left. split; [auto|reflexivity].
  - apply Z.ltb_ge in E2.
    destruct (offset =? 0) eqn:E3.
    + apply Z.eqb_eq in E3. left. split; [auto|reflexivity].
    + apply Z.eqb_neq in E3. right. split; [|reflexivity].
      intros [H|[[H _]|H]]; [lia|discriminate|lia].
  - apply Z.ltb_ge in E2.
    destruct (offset =? 0) eqn:E3.
    + apply Z.eqb_eq in E3. left. split; [auto|reflexivity].
    + apply Z.eqb_neq in E3. right. split; [|reflexivity].
      intros [H|[[_ H]|H]]; lia.
Qed.

(** C2, as amended.  For a non-empty list of keyframes whose least frame
    number is [m]: the function returns [False] and leaves the store as it
    is when [m < frame_min], or [adjust_offset] is false and
    [m + offset < frame_min], or the offset to apply is 0.  Otherwise it
    assigns [frame_number + applied] to the keyframes in the order of the
    list, once for each entry, and the host keeps each number stored within
    [-1048574, 1048574]: when every sum assigned is a C int it returns
    [True], and when one is not the first such assignment raises
    ValueError, the entries before it having moved their keyframes and the
    others not.  The applied offset is
    [frame_min - m] when [adjust_offset] is true and
    [m + offset < frame_min], else [offset]. *)
Theorem shift_keyframes_correct
    (keyframes : list fref) (offset frame_min : Z) (adjust_offset : bool)
    (h : fstore) (m : Z) :
  keyframes <> [] ->
  (exists r, In r keyframes /\ fnum h r = m) ->
  (forall r, In r keyframes -> m <= fnum h r) ->
  let applied :=
    if adjust_offset && (m + offset <? frame_min) then frame_min - m else offset in
  (m < frame_min
   \/ (adjust_offset = false /\ m + offset < frame_min)
   \/ applied = 0 ->
   shift_keyframes keyframes offset frame_min adjust_offset h = (Ok false, h))
  /\
  (~ (m < frame_min
      \/ (adjust_offset = false /\ m + offset < frame_min)
      \/ applied = 0) ->
   (sums_are_c_ints keyframes applied h ->
    exists h',
      shift_keyframes keyframes offset frame_min adjust_offset h = (Ok true, h')
      /\ (forall r, h' r = moved_times (listed keyframes r) (h r) applied)
      /\ (forall r, listed keyframes r = 1%nat -> h' r = moved_frame (h r) applied)
      /\ (forall r, ~ In r keyframes -> h' r = h r))
   /\
   (~ sums_are_c_ints keyframes applied h ->
    exists h' done x rest,
      shift_keyframes keyframes offset frame_min adjust_offset h
      = (Raise ValueError, h')
      /\ keyframes = done ++ x :: rest
      /\ sums_are_c_ints done applied h
      /\ ~ is_c_int (frame_number (moved_times (listed done x) (h x) applied)
                     + applied)
      /\ (forall r, h' r = moved_times (listed done r) (h r) applied)
      /\ (forall r, ~ In r keyframes -> h' r = h r))).
Proof.
  intros Hne Hex Hmin applied.
  destruct (shift_keyframes_cases keyframes offset frame_min adjust_offset h m
              Hne Hex Hmin) as [(Hcase & E)|(Hcase & E)];
    fold applied in Hcase, E.
  - split; [intros _; exact E|]. intros H. contradiction.
  - split; [intros H; contradiction|]. intros _.
    destruct (offset_keyframes_spec keyframes applied h)
      as (h' & [(Hall & El & Hh')|(Hall & El & Hh')]);
      rewrite El in E; cbn [bind] in E.
    + split; [|intros H; contradiction]. intros _.
      exists h'. split; [exact E|]. split; [exact Hh'|]. split.
      * intros r Hr. now rewrite Hh', Hr.
      * intros r Hr. now rewrite Hh', listed_none.
    + split; [intros H; contradiction|]. intros _.
      destruct (offset_keyframes_stops keyframes applied h h' ValueError El)
        as (done & x & rest & Ek & Hdone & Hx & Hstop).
      exists h', done, x, rest. split; [exact E|]. split; [exact Ek|].
      split; [exact Hdone|]. split; [exact Hx|]. split; [exact Hstop|].
      intros r Hr. destruct (Hh' r) as (k & Hk & ->).
      rewrite listed_none in Hk by exact Hr.
      now replace k with 0%nat by lia.
Qed.

Lemma shift_keyframes_correct_witness :
  exists h',
    shift_keyframes [7; 9; 12]%nat (-5) 6 true fixture_store = (Ok true, h')
    /\ (forall r, In r [7; 9; 12]%nat -> h' r = moved_frame (fixture_store r) (-1))
    /\ (forall r, ~ In r [7; 9; 12]%nat -> h' r = fixture_store r).
Proof.
  destruct (proj1 (proj2 (shift_keyframes_correct [7; 9; 12]%nat (-5) 6 true
                            fixture_store 7
                            ltac:(discriminate)
                            ltac:(exists 7%nat; split; [now left | reflexivity])
                            ltac:(intros r [<-|[<-|[<-|[]]]]; vm_compute;
                                  discriminate))
                     ltac:(vm_compute; intros [H|[[H _]|H]]; discriminate))
              ltac:(intros r k Hk;
                    assert (Hr : In r [7; 9; 12]%nat)
                      by (apply (count_occ_In Nat.eq_dec); unfold listed in Hk; lia);
                    destruct Hr as [<-|[<-|[<-|[]]]];
                    (destruct k as [|k]; [vm_compute; split; discriminate|];
                     vm_compute in Hk; lia)))
    as (h' & E & _ & Hone & Hnone).
  exists h'. split; [exact E|]. split; [|exact Hnone].
  intros r [<-|[<-|[<-|[]]]]; apply Hone; reflexivity.
Defined.

(** C2 as the specification states it fails at the host's limits: at the frame
    limit a keyframe is returned as moved with a frame number that is not
    the sum, an offset beyond the C int range raises after the first
    keyframe has moved, and a keyframe listed twice moves twice. *)
Lemma shift_keyframes_correct_counterexample :
  let h := store_of (fun r => if (r =? 0)%nat then 1048570 else 1048574) in
  (exists h',
     shift_keyframes [0; 1]%nat 10 0 false h = (Ok true, h')
     /\ fnum h' 0%nat <> fnum h 0%nat + 10
     /\ fnum h' 1%nat <> fnum h 1%nat + 10)
  /\ (exists h',
        shift_keyframes [10; 30]%nat 2147483627 0 false fixture_store
        = (Raise ValueError, h')
        /\ fnum h' 10%nat = 1048574)
  /\ (exists h',
        shift_keyframes [7; 7]%nat 1 0 false fixture_store = (Ok true, h')
        /\ fnum h' 7%nat <> fnum fixture_store 7%nat + 1).
Proof.
  split; [|split]; eexists; (split; [reflexivity|]); vm_compute;
    try split; try reflexivity; discriminate.
Qed.

(** ** get_gp_layers, get_gp_keyframes *)

Lemma In_enumerate_from {A} (l : list A) :
  forall (n i : nat) (x : A),
    In (i, x) (enumerate_from n l)
    <-> (n <= i)%nat /\ nth_error l (i - n) = Some x.
Proof.
  induction l as [|a l IH]; intros n i x; simpl.
  - split; [intros []|]. intros [_ H]. destruct (i - n)%nat; discriminate.
  - rewrite IH. split.
    + intros [H|[Hle H]].
      * inversion H; subst. rewrite Nat.sub_diag. auto.
      * split; [lia|]. replace (i - n)%nat with (S (i - S n)) by lia. exact H.
    + intros [Hle H]. destruct (i - n)%nat as [|k] eqn:E.
      * left. simpl in H. inversion H; subst. f_equal. lia.
      * right. split; [lia|]. simpl in H.
        replace (i - S n)%nat with k by lia. exact H.
Qed.

Lemma In_enumerate {A} (l : list A) (i : nat) (x : A) :
  In (i, x) (enumerate l) <-> nth_error l i = Some x.
Proof.
  unfold enumerate. rewrite In_enumerate_from, Nat.sub_0_r.
  split; [tauto|]. split; [lia|auto].
Qed.

Lemma In_get_gp_layers (gp : GreasePencil) (layer_filter : LayerTraits)
    (layer : GPencilLayer) :
  In layer (get_gp_layers gp layer_filter)
  <-> exists i, nth_error (layers gp) i = Some layer
                /\ layer_matches gp layer_filter i layer = true.
Proof.
  unfold get_gp_layers. rewrite in_map_iff. split.
  - intros ([i l] & <- & Hin). apply filter_In in Hin. destruct Hin as [Hin Hm].
    exists i. split; [now apply In_enumerate|exact Hm].
  - intros (i & Hi & Hm). exists (i, layer). split; [reflexivity|].
    apply filter_In. split; [now apply In_enumerate|exact Hm].
Qed.

Lemma fold_left_extend {A B} (f : A -> list B) (l : list A) :
  forall acc, fold_left (fun acc x => acc ++ f x) l acc = acc ++ flat_map f l.
Proof.
  induction l as [|a l IH]; intros acc; simpl.
  - now rewrite app_nil_r.
  - now rewrite IH, app_assoc.
Qed.

Lemma insert_by_perm {A} (key : A -> Z) (x : A) (l : list A) :
  Permutation (insert_by key x l) (x :: l).
Proof.
  induction l as [|y l IH]; simpl; auto.
  destruct (key x <=? key y); auto.
  rewrite IH. apply perm_swap.
Qed.

Lemma sorted_perm {A} (key : A -> Z) (reverse : bool) (l : list A) :
  Permutation (sorted key reverse l) l.
Proof.
  unfold sorted. induction l as [|x l IH]; simpl; auto.
  rewrite insert_by_perm. now constructor.
Qed.

Lemma insert_by_sorted {A} (key : A -> Z) (x : A) (l : list A) :
  StronglySorted (fun a b => key a <= key b) l ->
  StronglySorted (fun a b => key a <= key b) (insert_by key x l).
Proof.
  induction 1 as [|y l Hs IH Hall]; simpl.
  - repeat constructor.
  - destruct (key x <=? key y) eqn:E.
    + apply Z.leb_le in E. constructor; [now constructor|].
      constructor; auto.
      rewrite Forall_forall in *. intros z Hz. specialize (Hall z Hz). lia.
    + apply Z.leb_gt in E. constructor; auto.
      rewrite Forall_forall in *. intros z Hz.
      apply (Permutation_in _ (insert_by_perm key x l)) in Hz.
      destruct Hz as [<-|Hz]; [lia|auto].
Qed.

Lemma sorted_ascending {A} (key : A -> Z) (l : list A) :
  StronglySorted (fun a b => key a <= key b) (sorted key false l).
Proof.
  unfold sorted. induction l as [|x l IH]; simpl.
  - constructor.
  - now apply insert_by_sorted.
Qed.

Lemma StronglySorted_weaken {A} (R R' : A -> A -> Prop) (l : list A) :
  (forall a b, R a b -> R' a b) -> StronglySorted R l -> StronglySorted R' l.
Proof.
  intros HR. induction 1 as [|a l Hs IH Hall]; constructor; auto.
  rewrite Forall_forall in *. auto.
Qed.

Lemma sorted_descending {A} (key : A -> Z) (l : list A) :
  StronglySorted (fun a b => key b <= key a) (sorted key true l).
Proof.
  apply StronglySorted_weaken with (R := fun a b => - key a <= - key b).
  - intros a b. lia.
  - unfold sorted. induction l as [|x l IH]; simpl.
    + constructor.
    + now apply (insert_by_sorted (fun x => - key x)).
Qed.

(** The keyframes gathered before the sort. *)
Lemma get_gp_keyframes_perm (h : fstore) (gp : GreasePencil)
    (layer_filter : LayerTraits) (frame_filter : FrameTraits)
    (frame_min frame_max : Z) :
  Permutation
    (get_gp_keyframes h gp layer_filter frame_filter frame_min frame_max)
    (flat_map
       (fun layer =>
          filter (frame_matches h frame_filter frame_min frame_max) (frames layer))
       (get_gp_layers gp layer_filter)).
Proof.
  unfold get_gp_keyframes. rewrite sorted_perm.
  now rewrite fold_left_extend.
Qed.

Lemma layer_matches_satisfies (gp : GreasePencil) (layer_filter : LayerTraits)
    (i : nat) (layer : GPencilLayer) :
  layer_matches gp layer_filter i layer = true
  <-> layer_satisfies gp layer_filter i layer.
Proof.
  unfold layer_matches, layer_satisfies, is_active_layer.
  destruct (flag_in LayerTraits_ACTIVE layer_filter),
    (flag_in LayerTraits_UNLOCKED layer_filter),
    (flag_in LayerTraits_SELECTED layer_filter),
    (lock layer), (layer_select layer);
    destruct (active_index gp) as [a|]; simpl;
    try destruct (Nat.eqb_spec i a); subst;
    intuition (try congruence; try discriminate).
Qed.

Lemma frame_matches_satisfies (h : fstore) (frame_filter : FrameTraits)
    (frame_min frame_max : Z) (f : fref) :
  frame_matches h frame_filter frame_min frame_max f = true
  <-> frame_min <= fnum h f <= frame_max /\ frame_satisfies h frame_filter f.
Proof.
  unfold frame_matches, frame_satisfies.
  rewrite !andb_true_iff, Z.leb_le, Z.leb_le.
  destruct (flag_in FrameTraits_SELECTED frame_filter),
    (flag_in FrameTraits_TAG frame_filter),
    (frame_select (h f)), (frame_tag (h f)); simpl;
    intuition (try congruence; try discriminate).
Qed.

Lemma In_get_gp_keyframes (h : fstore) (gp : GreasePencil)
    (layer_filter : LayerTraits) (frame_filter : FrameTraits)
    (frame_min frame_max : Z) (f : fref) :
  In f (get_gp_keyframes h gp layer_filter frame_filter frame_min frame_max)
  <-> exists i layer,
        nth_error (layers gp) i = Some layer
        /\ layer_satisfies gp layer_filter i layer
        /\ In f (frames layer)
        /\ frame_min <= fnum h f <= frame_max
        /\ frame_satisfies h frame_filter f.
Proof.
  split.
  - intros Hin.
    apply (Permutation_in _ (get_gp_keyframes_perm _ _ _ _ _ _)) in Hin.
    apply in_flat_map in Hin. destruct Hin as (layer & Hl & Hf).
    apply In_get_gp_layers in Hl. destruct Hl as (i & Hi & Hm).
    apply filter_In in Hf. destruct Hf as [Hf Hfm].
    apply layer_matches_satisfies in Hm.
    apply frame_matches_satisfies in Hfm.
    exists i, layer. tauto.
  - intros (i & layer & Hi & Hm & Hf & Hr & Hfs).
    apply (Permutation_in _ (Permutation_sym (get_gp_keyframes_perm _ _ _ _ _ _))).
    apply in_flat_map. exists layer. split.
    + apply In_get_gp_layers. exists i. split; auto.
      now apply layer_matches_satisfies.
    + apply filter_In. split; auto. now apply frame_matches_satisfies.
Qed.

(** C5.  The result holds exactly the keyframes that lie on a layer
    satisfying every flag set in the layer filter, have their frame number
    within [frame_min .. frame_max] and satisfy every flag set in the frame
    filter; it is in ascending order of frame number. *)
Theorem get_gp_keyframes_correct (h : fstore) (gp : GreasePencil)
    (layer_filter : LayerTraits) (frame_filter : FrameTraits)
    (frame_min frame_max : Z) :
  (forall f : fref,
     In f (get_gp_keyframes h gp layer_filter frame_filter frame_min frame_max)
     <-> exists i layer,
           nth_error (layers gp) i = Some layer
           /\ layer_satisfies gp layer_filter i layer
           /\ In f (frames layer)
           /\ frame_min <= fnum h f <= frame_max
           /\ frame_satisfies h frame_filter f)
  /\ StronglySorted (fun a b => fnum h a <= fnum h b)
       (get_gp_keyframes h gp layer_filter frame_filter frame_min frame_max).
Proof.
  split.
  - intros f. apply In_get_gp_keyframes.
  - apply sorted_ascending.
Qed.

(** ** shift_gp_keyframes *)

Lemma NoDup_app_disjoint {A} (l1 l2 : list A) (a : A) :
  NoDup (l1 ++ l2) -> In a l1 -> ~ In a l2.
Proof.
  induction l1 as [|x l1 IH]; simpl; [tauto|].
  intros Hnd [->|Hin] Hin2; inversion Hnd; subst.
  - apply H1, in_or_app. now right.
  - now apply IH.
Qed.

(** A keyframe held once by the host data lies on one layer only. *)
Lemma owned_once (l : list GPencilLayer) :
  forall (i j : nat) (a b : GPencilLayer) (r : fref),
    NoDup (flat_map frames l) ->
    nth_error l i = Some a -> nth_error l j = Some b ->
    In r (frames a) -> In r (frames b) -> i = j.
Proof.
  induction l as [|x l IH]; intros i j a b r Hnd Hi Hj Ha Hb.
  - destruct i; discriminate.
  - simpl in Hnd.
    assert (Hrest : forall k c, nth_error l k = Some c -> In r (frames c) ->
                                In r (flat_map frames l)).
    { intros k c Hk Hc. apply in_flat_map. exists c.
      split; [now apply nth_error_In with k|exact Hc]. }
    destruct i as [|i], j as [|j]; simpl in Hi, Hj; auto.
    + inversion Hi; subst.
      elim (NoDup_app_disjoint _ _ r Hnd Ha). now apply (Hrest j b).
    + inversion Hj; subst.
      elim (NoDup_app_disjoint _ _ r Hnd Hb). now apply (Hrest i a).
    + f_equal. apply (IH i j a b r); auto.
      now apply NoDup_app_remove_l in Hnd.
Qed.

Lemma NoDup_selected_frames (p : fref -> bool) (q : nat -> GPencilLayer -> bool)
    (l : list GPencilLayer) :
  forall n,
    NoDup (flat_map frames l) ->
    NoDup (flat_map (fun layer => filter p (frames layer))
             (map snd (filter (fun il => q (fst il) (snd il))
                         (enumerate_from n l)))).
Proof.
  induction l as [|x l IH]; intros n Hnd; simpl.
  - constructor.
  - simpl in Hnd.
    assert (Hl := NoDup_app_remove_l _ _ Hnd).
    destruct (q n x); simpl; [|now apply IH].
    apply NoDup_app.
    + apply NoDup_filter. now apply NoDup_app_remove_r in Hnd.
    + now apply IH.
    + intros a Ha Hin. apply filter_In in Ha. destruct Ha as [Ha _].
      apply (NoDup_app_disjoint _ _ a Hnd Ha).
      apply in_flat_map in Hin. destruct Hin as (layer & Hlayer & Hf).
      apply filter_In in Hf. destruct Hf as [Hf _].
      apply in_map_iff in Hlayer. destruct Hlayer as ([k c] & <- & Hk).
      apply filter_In in Hk. destruct Hk as [Hk _].
      apply In_enumerate_from in Hk. destruct Hk as [_ Hk].
      apply in_flat_map. exists c. split; [|exact Hf].
      now apply nth_error_In with (k - S n)%nat.
Qed.

Lemma get_gp_keyframes_NoDup (h : fstore) (gp : GreasePencil)
    (layer_filter : LayerTraits) (frame_filter : FrameTraits)
    (frame_min frame_max : Z) :
  NoDup (flat_map frames (layers gp)) ->
  NoDup (get_gp_keyframes h gp layer_filter frame_filter frame_min frame_max).
Proof.
  intros Hnd.
  apply (Permutation_NoDup (Permutation_sym (get_gp_keyframes_perm _ _ _ _ _ _))).
  unfold get_gp_layers, enumerate.
  now apply (NoDup_selected_frames _ (layer_matches gp layer_filter)).
Qed.

(** What a call of [shift_keyframes] on distinct keyframes can do: nothing,
    or assign [frame_number + d] to each for an offset [d] that keeps them
    at [frame_min] or after, up to the first sum that is no C int. *)
Lemma shift_keyframes_run (keyframes : list fref) (offset frame_min : Z)
    (adjust_offset : bool) (h : fstore) :
  keyframes <> [] -> NoDup keyframes ->
  exists res h',
    shift_keyframes keyframes offset frame_min adjust_offset h = (res, h')
    /\ (forall r, ~ In r keyframes -> h' r = h r)
    /\ ((res = Ok false /\ h' = h)
        \/ exists d,
             d <> 0
             /\ (d = offset \/ (adjust_offset = true /\ offset < d <= 0))
             /\ (forall r, In r keyframes ->
                   frame_min <= fnum h r /\ frame_min <= fnum h r + d)
             /\ ((res = Ok true
                  /\ (forall r, In r keyframes -> is_c_int (fnum h r + d))
                  /\ (forall r, In r keyframes -> h' r = moved_frame (h r) d))
                 \/ (res = Raise ValueError
                     /\ ~ (forall r, In r keyframes -> is_c_int (fnum h r + d))
                     /\ (forall r, In r keyframes ->
                           h' r = h r \/ h' r = moved_frame (h r) d)))).
Proof.
  intros Hne Hnd.
  destruct (py_min_by_spec (fnum h) keyframes Hne) as (r0 & _ & Hr0 & Hleast).
  destruct (shift_keyframes_cases keyframes offset frame_min adjust_offset h
              (fnum h r0) Hne (ex_intro _ r0 (conj Hr0 eq_refl)) Hleast)
    as [(_ & E)|(Hcase & E)].
  { exists (Ok false), h. split; [exact E|]. split; auto. }
  set (m := fnum h r0) in *.
  set (d := if adjust_offset && (m + offset <? frame_min)
            then frame_min - m else offset) in *.
  assert (Hd : d <> 0) by tauto.
  assert (Hm : ~ m < frame_min) by tauto.
  assert (Hkind : (d = offset /\ frame_min <= m + d)
                  \/ (adjust_offset = true /\ offset < d <= 0
                      /\ frame_min <= m + d)).
  { subst d. destruct adjust_offset; cbn [andb] in *.
    - destruct (m + offset <? frame_min) eqn:E2.
      + apply Z.ltb_lt in E2. right. split; [reflexivity|]. lia.
      + apply Z.ltb_ge in E2. left. split; [reflexivity|lia].
    - left. split; [reflexivity|].
      destruct (Z_lt_ge_dec (m + offset) frame_min) as [Hlt|Hge]; [|lia].
      elim Hcase. right. left. auto. }
  assert (Hsums : sums_are_c_ints keyframes d h
                  <-> forall r, In r keyframes -> is_c_int (fnum h r + d)).
  { split.
    - intros Hall r Hr. apply (Hall r 0%nat).
      rewrite listed_once by assumption. lia.
    - intros Hall r k Hk.
      destruct (in_dec Nat.eq_dec r keyframes) as [Hr|Hr].
      + rewrite listed_once in Hk by assumption.
        replace k with 0%nat by lia. now apply Hall.
      + rewrite listed_none in Hk by assumption. lia. }
  destruct (offset_keyframes_spec keyframes d h)
    as (h' & [(Hall & El & Hh')|(Hall & El & Hh')]);
    rewrite El in E; cbn [bind] in E.
  - exists (Ok true), h'. split; [exact E|]. split.
    { intros r Hr. now rewrite Hh', listed_none. }
    right. exists d. split; [exact Hd|]. split; [tauto|]. split.
    { intros r Hr. specialize (Hleast r Hr). fold m in Hleast. lia. }
    left. split; [reflexivity|]. split; [now apply Hsums|].
    intros r Hr. now rewrite Hh', listed_once.
  - exists (Raise ValueError), h'. split; [exact E|]. split.
    { intros r Hr. destruct (Hh' r) as (k & Hk & ->).
      rewrite listed_none in Hk by assumption.
      now replace k with 0%nat by lia. }
    right. exists d. split; [exact Hd|]. split; [tauto|]. split.
    { intros r Hr. specialize (Hleast r Hr). fold m in Hleast. lia. }
    right. split; [reflexivity|]. split; [now rewrite <- Hsums|].
    intros r Hr. destruct (Hh' r) as (k & Hk & ->).
    rewrite listed_once in Hk by assumption.
    destruct k as [|[|k]]; [now left|now right|lia].
Qed.

(** A frame number that an assignment leaves as it was is at the limit. *)
Lemma kept_frame_held (n d : Z) :
  d <> 0 -> kept_frame (n + d) = n ->
  (n = MAXFRAME /\ 0 < d) \/ (n = - MAXFRAME /\ d < 0).
Proof.
  intros Hd. rewrite <- kept_frame_spec. host_limits. lia.
Qed.

Lemma layer_matches_options (gp : GreasePencil) (a u s : bool) (i : nat)
    (layer : GPencilLayer) :
  layer_matches gp (layer_options_to_traits a u s) i layer
  = passes_options gp a u s i layer.
Proof.
  unfold layer_matches, passes_options.
  destruct a, u, s; reflexivity.
Qed.

(** C6, as amended.  With host data that holds each keyframe once, and
    [found] the keyframes after [frame_start] on the layers that pass the
    active/unlocked/selected options: a keyframe whose frame number is at
    most [frame_start], or that lies on a layer the options filter out, or
    that is not among [found], is left as it was, whether the call returns
    or raises.  The call returns the empty list, or [found]; a keyframe
    that is not returned is left as it was, and each keyframe returned has
    had [frame_number + applied] assigned for one offset [applied <> 0],
    which moves it unless it is held at the host's frame limit
    [1048574] or [-1048574].  The call raises ValueError instead only when
    a frame number of [found], or its sum with [offset], is no C int. *)
Theorem shift_gp_keyframes_frame (h : fstore) (gp : GreasePencil)
    (frame_start offset : Z)
    (adjust_offset only_active_layer only_unlocked_layers
     only_selected_layers : bool) :
  NoDup (flat_map frames (layers gp)) ->
  let found :=
    get_gp_keyframes h gp
      (layer_options_to_traits only_active_layer only_unlocked_layers
         only_selected_layers)
      FrameTraits_NONE (frame_start + 1) sys_maxsize in
  exists res h',
    shift_gp_keyframes h gp frame_start offset adjust_offset only_active_layer
      only_unlocked_layers only_selected_layers = (res, h')
    /\ (forall r, fnum h r <= frame_start -> h' r = h r)
    /\ (forall i layer r,
          nth_error (layers gp) i = Some layer ->
          passes_options gp only_active_layer only_unlocked_layers
            only_selected_layers i layer = false ->
          In r (frames layer) -> h' r = h r)
    /\ (forall r, ~ In r found -> h' r = h r)
    /\ ((exists moved,
           res = Ok moved
           /\ (moved = [] \/ moved = found)
           /\ (forall r, ~ In r moved -> h' r = h r)
           /\ exists applied,
                applied <> 0
                /\ forall r, In r moved ->
                     h' r = moved_frame (h r) applied
                     /\ (fnum h' r = fnum h r ->
                         (fnum h r = MAXFRAME /\ 0 < applied)
                         \/ (fnum h r = - MAXFRAME /\ applied < 0)))
        \/ (res = Raise ValueError
            /\ ~ (forall r, In r found ->
                    is_c_int (fnum h r) /\ is_c_int (fnum h r + offset)))).
Proof.
  intros Hown found. unfold shift_gp_keyframes.
  set (traits := layer_options_to_traits only_active_layer only_unlocked_layers
                   only_selected_layers) in *.
  fold found.
  assert (Hnd : NoDup found)
    by (subst found; now apply get_gp_keyframes_NoDup).
  assert (Hspec : forall r, In r found ->
             exists i layer,
               nth_error (layers gp) i = Some layer
               /\ layer_matches gp traits i layer = true
               /\ In r (frames layer)
               /\ frame_start + 1 <= fnum h r).
  { intros r Hin. subst found. apply In_get_gp_keyframes in Hin.
    destruct Hin as (i & layer & Hi & Hm & Hr & Hrange & _).
    exists i, layer. rewrite layer_matches_satisfies.
    split; [exact Hi|]. split; [exact Hm|]. split; [exact Hr|lia]. }
  assert (Hafter : forall r, fnum h r <= frame_start -> ~ In r found).
  { intros r Hr Hin. destruct (Hspec r Hin) as (_ & _ & _ & _ & _ & Hrange). lia. }
  assert (Hlayer : forall i layer r,
             nth_error (layers gp) i = Some layer ->
             passes_options gp only_active_layer only_unlocked_layers
               only_selected_layers i layer = false ->
             In r (frames layer) -> ~ In r found).
  { intros i layer r Hi Hpass Hr Hin.
    destruct (Hspec r Hin) as (i' & layer' & Hi' & Hm & Hr' & _).
    assert (i = i') by exact (owned_once _ i i' layer layer' r Hown Hi Hi' Hr Hr').
    subst i'. rewrite Hi in Hi'. inversion Hi'; subst layer'.
    unfold traits in Hm. rewrite layer_matches_options in Hm. congruence. }
  clear Hspec.
  assert (Hnone : exists applied : Z,
             applied <> 0
             /\ forall r, In r (@nil fref) ->
                  h r = moved_frame (h r) applied
                  /\ (fnum h r = fnum h r ->
                      (fnum h r = MAXFRAME /\ 0 < applied)
                      \/ (fnum h r = - MAXFRAME /\ applied < 0))).
  { exists 1. split; [lia|]. intros r []. }
  clearbody found. destruct found as [|k ks].
  - exists (Ok []), h. split; [reflexivity|]. repeat (split; [now auto|]).
    left. exists []. auto.
  - destruct (shift_keyframes_run (k :: ks) offset (frame_start + 1)
                adjust_offset h ltac:(discriminate) Hnd)
      as (res & h' & E & Hout & Hres).
    rewrite E.
    destruct Hres as [(-> & ->)|(d & Hd & Hkind & _ & Hres)].
    + exists (Ok []), h. cbn [bind]. split; [reflexivity|].
      repeat (split; [now auto|]).
      left. exists []. auto.
    + destruct Hres as [(-> & _ & Hin)|(-> & Hsum & _)]; cbn [bind].
      * exists (Ok (k :: ks)), h'. split; [reflexivity|].
        split; [intros r Hr; apply Hout; auto|].
        split; [intros i layer r Hi Hp Hr; apply Hout; eauto|].
        split; [exact Hout|].
        left. exists (k :: ks). split; [reflexivity|]. split; [now right|].
        split; [exact Hout|].
        exists d. split; [exact Hd|]. intros r Hr.
        split; [now apply Hin|].
        unfold fnum. rewrite (Hin r Hr). cbn [moved_frame frame_number].
        now apply kept_frame_held.
      * exists (Raise ValueError), h'. split; [reflexivity|].
        split; [intros r Hr; apply Hout; auto|].
        split; [intros i layer r Hi Hp Hr; apply Hout; eauto|].
        split; [exact Hout|].
        right. split; [reflexivity|].
        intros Hall. apply Hsum. intros r Hr.
        destruct (Hall r Hr) as [H0 H1].
        destruct Hkind as [->|(_ & Hlo & Hhi)]; [exact H1|].
        unfold is_c_int in *. lia.
Qed.

Lemma shift_gp_keyframes_frame_witness :
  exists moved h',
    shift_gp_keyframes fixture_store
      (fixture_gp [fixture_layer [3; 4; 5]%nat; fixture_layer [7; 9; 12]%nat]
         (Some 1%nat))
      5 1 false true false false = (Ok moved, h')
    /\ moved <> []
    /\ forall r, fnum fixture_store r <= 5 -> h' r = fixture_store r.
Proof.
  destruct (shift_gp_keyframes_frame fixture_store
              (fixture_gp [fixture_layer [3; 4; 5]%nat; fixture_layer [7; 9; 12]%nat]
                 (Some 1%nat))
              5 1 false true false false) as (res & h' & E & Hbefore & _).
  - simpl. repeat (constructor; [simpl; intuition discriminate|]). constructor.
  - exists [7; 9; 12]%nat, h'. split; [|split; [discriminate|exact Hbefore]].
    rewrite E. vm_compute in E. inversion E. reflexivity.
Defined.

(** C6 as the specification states it fails at the host's limits: a keyframe at
    the frame limit is returned as moved with its frame number unchanged,
    and an offset beyond the C int range makes the call raise. *)
Lemma shift_gp_keyframes_frame_counterexample :
  let h := store_of (fun r => if (r =? 0)%nat then 1048570 else 1048574) in
  (exists h',
     shift_gp_keyframes h (fixture_gp [fixture_layer [0; 1]%nat] (Some 0%nat))
       0 10 false false false false = (Ok [0; 1]%nat, h')
     /\ fnum h' 1%nat = fnum h 1%nat
     /\ fnum h' 0%nat <> fnum h 0%nat + 10)
  /\ (exists h',
        shift_gp_keyframes fixture_store
          (fixture_gp [fixture_layer [7; 9; 12]%nat] (Some 0%nat))
          5 2147483647 false false false false = (Raise ValueError, h')).
Proof.
  split.
  - eexists. split; [reflexivity|]. vm_compute. split; [reflexivity|discriminate].
  - eexists. reflexivity.
Qed.
(** ** More on shift_keyframes *)

Lemma moved_times_succ (k : nat) (f : GPencilFrame) (d : Z) :
  moved_times (S k) f d = moved_frame (moved_times k f d) d.
Proof. reflexivity. Qed.

Lemma moved_times_fields (k : nat) (f : GPencilFrame) (d : Z) :
  frame_select (moved_times k f d) = frame_select f
  /\ frame_tag (moved_times k f d) = frame_tag f
  /\ keyframe_type (moved_times k f d) = keyframe_type f.
Proof.
  induction k as [|k IH]; [auto|].
  rewrite moved_times_succ. exact IH.
Qed.

Lemma moved_times_in_range (k : nat) (f : GPencilFrame) (d : Z) :
  in_frame_range (frame_number f) ->
  in_frame_range (frame_number (moved_times k f d)).
Proof.
  intros Hf. destruct k as [|k]; [exact Hf|].
  rewrite moved_times_succ. apply kept_frame_in_range.
Qed.

(** With no frame number held at the limit, the assignments add up. *)
Lemma moved_times_within (k : nat) (f : GPencilFrame) (d : Z) :
  in_frame_range (frame_number f) ->
  in_frame_range (frame_number f + d * Z.of_nat k) ->
  frame_number (moved_times k f d) = frame_number f + d * Z.of_nat k.
Proof.
  intros Hf. induction k as [|k IH]; intros Hk.
  - cbn. lia.
  - rewrite moved_times_succ. cbn [moved_frame frame_number].
    rewrite IH.
    + rewrite kept_frame_id; [lia|].
      replace (frame_number f + d * Z.of_nat k + d)
        with (frame_number f + d * Z.of_nat (S k)) by lia.
      exact Hk.
    + unfold in_frame_range in *. nia.
Qed.

(** Frame numbers of the host's range, moved by an offset that leaves
    room for them, give sums that are C ints. *)
Lemma sums_in_range (keyframes : list fref) (d : Z) (h : fstore) :
  (forall r, In r keyframes -> in_frame_range (fnum h r)) ->
  INT_MIN + MAXFRAME <= d <= INT_MAX - MAXFRAME ->
  sums_are_c_ints keyframes d h.
Proof.
  intros Hrange Hd r k Hk.
  assert (Hr : In r keyframes).
  { apply (count_occ_In Nat.eq_dec). unfold listed in Hk. lia. }
  assert (H := moved_times_in_range k (h r) d (Hrange r Hr)).
  host_limits. lia.
Qed.

(** What a call of [shift_keyframes] on keyframes can do, whether they are
    distinct or not. *)
Lemma shift_keyframes_general (keyframes : list fref) (offset frame_min : Z)
    (adjust_offset : bool) (h : fstore) :
  keyframes <> [] ->
  shift_keyframes keyframes offset frame_min adjust_offset h = (Ok false, h)
  \/ exists applied h',
       applied <> 0
       /\ (applied = offset
           \/ (adjust_offset = true
               /\ offset < applied <= 0
               /\ exists m, In m keyframes
                            /\ (forall y, In y keyframes -> fnum h m <= fnum h y)
                            /\ fnum h m + offset < frame_min
                            /\ applied = frame_min - fnum h m))
       /\ ((shift_keyframes keyframes offset frame_min adjust_offset h
            = (Ok true, h')
            /\ sums_are_c_ints keyframes applied h
            /\ forall r, h' r = moved_times (listed keyframes r) (h r) applied)
           \/ (shift_keyframes keyframes offset frame_min adjust_offset h
               = (Raise ValueError, h')
               /\ ~ sums_are_c_ints keyframes applied h
               /\ forall r, exists k,
                    (k <= listed keyframes r)%nat
                    /\ h' r = moved_times k (h r) applied)).
Proof.
  intros Hne.
  destruct (py_min_by_spec (fnum h) keyframes Hne) as (r0 & _ & Hr0 & Hleast).
  destruct (shift_keyframes_cases keyframes offset frame_min adjust_offset h
              (fnum h r0) Hne (ex_intro _ r0 (conj Hr0 eq_refl)) Hleast)
    as [(_ & E)|(Hcase & E)]; [now left|right].
  set (m := fnum h r0) in *.
  set (d := if adjust_offset && (m + offset <? frame_min)
            then frame_min - m else offset) in *.
  assert (Hkind : d = offset
                  \/ (adjust_offset = true /\ offset < d <= 0
                      /\ m + offset < frame_min /\ d = frame_min - m)).
  { subst d. destruct adjust_offset; cbn [andb] in *; [|now left].
    destruct (m + offset <? frame_min) eqn:E2; [|now left].
    apply Z.ltb_lt in E2. right. split; [reflexivity|]. lia. }
  destruct (offset_keyframes_spec keyframes d h)
    as (h' & [(Hall & El & Hh')|(Hall & El & Hh')]);
    rewrite El in E; cbn [bind] in E; exists d, h'.
  - split; [tauto|]. split; [|now left].
    destruct Hkind as [->|(Ha & Hb & Hc & Hd)]; [now left|].
    right. split; [exact Ha|]. split; [exact Hb|]. now exists r0.
  - split; [tauto|]. split; [|now right].
    destruct Hkind as [->|(Ha & Hb & Hc & Hd)]; [now left|].
    right. split; [exact Ha|]. split; [exact Hb|]. now exists r0.
Qed.

(** The two outcomes of a call that stays clear of the host's limits, for
    distinct keyframes whose least frame number is [m]. *)
Lemma shift_keyframes_refused (keyframes : list fref) (offset frame_min : Z)
    (adjust_offset : bool) (h : fstore) (m : Z) :
  keyframes <> [] ->
  (exists r, In r keyframes /\ fnum h r = m) ->
  (forall r, In r keyframes -> m <= fnum h r) ->
  m < frame_min
  \/ (adjust_offset = false /\ m + offset < frame_min)
  \/ (if adjust_offset && (m + offset <? frame_min)
      then frame_min - m else offset) = 0 ->
  shift_keyframes keyframes offset frame_min adjust_offset h = (Ok false, h).
Proof.
  intros Hne Hex Hmin Hcase.
  destruct (shift_keyframes_cases keyframes offset frame_min adjust_offset h m
              Hne Hex Hmin) as [(_ & E)|(Hno & _)]; [exact E|contradiction].
Qed.

Lemma shift_keyframes_within (keyframes : list fref) (offset frame_min : Z)
    (adjust_offset : bool) (h : fstore) (m : Z) :
  keyframes <> [] -> NoDup keyframes ->
  (exists r, In r keyframes /\ fnum h r = m) ->
  (forall r, In r keyframes -> m <= fnum h r) ->
  let applied :=
    if adjust_offset && (m + offset <? frame_min) then frame_min - m else offset in
  frame_min <= m ->
  (adjust_offset = false -> frame_min <= m + offset) ->
  applied <> 0 ->
  (forall r, In r keyframes -> in_frame_range (fnum h r + applied)) ->
  exists h',
    shift_keyframes keyframes offset frame_min adjust_offset h = (Ok true, h')
    /\ (forall r, In r keyframes ->
          h' r = moved_frame (h r) applied /\ fnum h' r = fnum h r + applied)
    /\ (forall r, ~ In r keyframes -> h' r = h r).
Proof.
  intros Hne Hnd Hex Hmin applied Hm Hadj Ha Hwithin.
  destruct (shift_keyframes_cases keyframes offset frame_min adjust_offset h m
              Hne Hex Hmin) as [(Hcase & _)|(_ & E)];
    [fold applied in Hcase|fold applied in E].
  { exfalso. destruct Hcase as [H|[[H1 H2]|H]]; [lia| |contradiction].
    specialize (Hadj H1). lia. }
  destruct (offset_keyframes_spec keyframes applied h)
    as (h' & [(_ & El & Hh')|(Hall & _)]).
  - rewrite El in E. cbn [bind] in E. exists h'. split; [exact E|]. split.
    + intros r Hr. unfold fnum. rewrite Hh', listed_once by assumption.
      change (moved_times 1 (h r) applied) with (moved_frame (h r) applied).
      split; [reflexivity|]. cbn [moved_frame frame_number].
      apply kept_frame_id. now apply Hwithin.
    + intros r Hr. now rewrite Hh', listed_none.
  - elim Hall. intros r k Hk.
    destruct (in_dec Nat.eq_dec r keyframes) as [Hr|Hr].
    + rewrite listed_once in Hk by assumption. replace k with 0%nat by lia.
      apply in_frame_range_c_int. now apply Hwithin.
    + rewrite listed_none in Hk by assumption. lia.
Qed.

(** X17.  [shift_keyframes] raises nothing but ValueError: on the empty
    list, and on another list only when one of the sums it assigns, for the
    offset asked for or for an adjusted one between it and 0, is no C int.
    It does not raise on a non-empty list of keyframes whose frame
    numbers are in the host's range [-1048574, 1048574] when the offset is
    within [-2^31 + 1048574, 2^31 - 1 - 1048574].  When it returns False, or
    raises on the empty list, it leaves every keyframe as it is. *)
Theorem shift_keyframes_raises (keyframes : list fref) (offset frame_min : Z)
    (adjust_offset : bool) (h : fstore) :
  (keyframes = [] ->
   shift_keyframes keyframes offset frame_min adjust_offset h
   = (Raise ValueError, h))
  /\ (fst (shift_keyframes keyframes offset frame_min adjust_offset h)
      = Ok false ->
      snd (shift_keyframes keyframes offset frame_min adjust_offset h) = h)
  /\ ((exists res,
         fst (shift_keyframes keyframes offset frame_min adjust_offset h)
         = Ok res)
      \/ fst (shift_keyframes keyframes offset frame_min adjust_offset h)
         = Raise ValueError)
  /\ (keyframes <> [] ->
      fst (shift_keyframes keyframes offset frame_min adjust_offset h)
      = Raise ValueError ->
      exists applied,
        (applied = offset \/ (adjust_offset = true /\ offset < applied <= 0))
        /\ ~ sums_are_c_ints keyframes applied h)
  /\ (keyframes <> [] ->
      (forall r, In r keyframes -> in_frame_range (fnum h r)) ->
      INT_MIN + MAXFRAME <= offset <= INT_MAX - MAXFRAME ->
      exists res,
        fst (shift_keyframes keyframes offset frame_min adjust_offset h) = Ok res).
Proof.
  assert (Hcases := shift_keyframes_general keyframes offset frame_min
                      adjust_offset h).
  split; [intros ->; reflexivity|].
  destruct keyframes as [|x l].
  { cbn. split; [discriminate|]. split; [now right|].
    split; intros H; now elim H. }
  destruct Hcases as [E|(d & h' & Hd & Hkind & [(E & Hall & _)|(E & Hall & _)])];
    [discriminate|..]; rewrite E; cbn [fst snd].
  - split; [reflexivity|]. split; [left; now exists false|].
    split; [discriminate|]. intros _ _ _. now exists false.
  - split; [discriminate|]. split; [left; now exists true|].
    split; [discriminate|]. intros _ _ _. now exists true.
  - split; [discriminate|]. split; [now right|]. split.
    + intros _ _. exists d. split; [|exact Hall].
      destruct Hkind as [->|(Ha & Hb & _)]; auto.
    + intros _ Hrange Hoff. elim Hall. apply sums_in_range; [exact Hrange|].
      destruct Hkind as [->|(_ & Hb & _)]; [exact Hoff|]. host_limits. lia.
Qed.

(** The offset of the test suite's fixture is refused as a C int after the
    first keyframe has been moved to the frame limit. *)
Example test_shift_keyframes_overflow :
  fst (shift_keyframes [10; 30]%nat 2147483627 0 false fixture_store)
  = Raise ValueError
  /\ map (fnum (snd (shift_keyframes [10; 30]%nat 2147483627 0 false
                       fixture_store))) [10; 30]%nat
     = [1048574; 30].
Proof. split; reflexivity. Qed.

(** X18.  When [shift_keyframes] returns True, one offset, which is not
    zero, has been used: each keyframe has had its frame number plus that
    offset assigned once for each time it is in the list, the host keeping
    the number within [-1048574, 1048574], and nothing else of any keyframe
    has changed.  For a keyframe whose frame number was in the host's
    range, and whose frame number plus the offset times the number of its
    entries is too, that sum is its new frame number.  The offset is the
    one asked for, or, when the offset is adjusted, the one that brings the
    first of the keyframes to [frame_min]. *)
Theorem shift_keyframes_repeated (keyframes : list fref)
    (offset frame_min : Z) (adjust_offset : bool) (h h' : fstore) :
  shift_keyframes keyframes offset frame_min adjust_offset h = (Ok true, h') ->
  exists applied,
    applied <> 0
    /\ (applied = offset
        \/ (adjust_offset = true
            /\ exists m, In m keyframes
                         /\ (forall y, In y keyframes -> fnum h m <= fnum h y)
                         /\ fnum h m + offset < frame_min
                         /\ applied = frame_min - fnum h m))
    /\ forall r,
         h' r = moved_times (listed keyframes r) (h r) applied
         /\ frame_select (h' r) = frame_select (h r)
         /\ frame_tag (h' r) = frame_tag (h r)
         /\ keyframe_type (h' r) = keyframe_type (h r)
         /\ (in_frame_range (frame_number (h r)) ->
             in_frame_range
               (frame_number (h r) + applied * Z.of_nat (listed keyframes r)) ->
             frame_number (h' r)
             = frame_number (h r) + applied * Z.of_nat (listed keyframes r)).
Proof.
  intros E.
  assert (Hne : keyframes <> []) by (intros ->; discriminate).
  destruct (shift_keyframes_general keyframes offset frame_min adjust_offset h
              Hne)
    as [E'|(d & h1 & Hd & Hkind & [(E' & _ & Hh')|(E' & _)])];
    rewrite E' in E; [discriminate| |discriminate].
  inversion E; subst h1. exists d. split; [exact Hd|]. split.
  - destruct Hkind as [->|(Ha & _ & Hm)]; [now left|]. right. now split.
  - intros r. rewrite Hh'. split; [reflexivity|].
    destruct (moved_times_fields (listed keyframes r) (h r) d) as (F1 & F2 & F3).
    split; [exact F1|]. split; [exact F2|]. split; [exact F3|].
    apply moved_times_within.
Qed.

Lemma shift_keyframes_repeated_witness :
  exists applied,
    applied <> 0
    /\ (applied = 2
        \/ (false = true
            /\ exists m, In m [3%nat; 5%nat; 3%nat]
                         /\ (forall y, In y [3%nat; 5%nat; 3%nat] ->
                             fnum fixture_store m <= fnum fixture_store y)
                         /\ fnum fixture_store m + 2 < 1
                         /\ applied = 1 - fnum fixture_store m))
    /\ fnum (snd (shift_keyframes [3%nat; 5%nat; 3%nat] 2 1 false fixture_store))
         3%nat = 3 + applied * 2.
Proof.
  destruct (shift_keyframes_repeated [3%nat; 5%nat; 3%nat] 2 1 false fixture_store
              (snd (shift_keyframes [3%nat; 5%nat; 3%nat] 2 1 false
                      fixture_store)) eq_refl)
    as (applied & Hnz & Hkind & Hall).
  exists applied. split; [exact Hnz|]. split; [exact Hkind|].
  destruct (Hall 3%nat) as (_ & _ & _ & _ & Hsum).
  destruct Hkind as [->|(Hf & _)]; [|discriminate].
  apply Hsum; vm_compute; split; discriminate.
Defined.

(** X19.  A shift that holds no keyframe at the frame limit can be undone:
    when [shift_keyframes] returns True for keyframes that are listed once
    each and whose frame numbers are in the host's range
    [-1048574, 1048574], each has had its frame number plus one offset
    assigned; and if these sums are in the host's range too, shifting the
    same keyframes by the opposite offset returns True and gives every
    keyframe back as it was. *)
Theorem shift_keyframes_undo (keyframes : list fref) (offset frame_min : Z)
    (adjust_offset : bool) (h h' : fstore) :
  NoDup keyframes ->
  (forall r, In r keyframes -> in_frame_range (fnum h r)) ->
  shift_keyframes keyframes offset frame_min adjust_offset h = (Ok true, h') ->
  exists applied,
    applied <> 0
    /\ (forall r, In r keyframes -> h' r = moved_frame (h r) applied)
    /\ ((forall r, In r keyframes -> in_frame_range (fnum h r + applied)) ->
        exists h'',
          shift_keyframes keyframes (- applied) frame_min false h'
          = (Ok true, h'')
          /\ forall r, h'' r = h r).
Proof.
  intros Hnd Hrange E.
  assert (Hne : keyframes <> []) by (intros ->; discriminate).
  destruct (shift_keyframes_run keyframes offset frame_min adjust_offset h
              Hne Hnd) as (res & h1 & E' & Hout & Hres).
  rewrite E' in E. inversion E; subst res h1. clear E.
  destruct Hres as [(Hf & _)|(d & Hd & _ & Hmin & [(_ & _ & Hin)|(Hf & _)])];
    [discriminate| |discriminate].
  exists d. split; [exact Hd|]. split; [exact Hin|].
  intros Hwithin.
  assert (Hmoved : forall r, In r keyframes -> fnum h' r = fnum h r + d).
  { intros r Hr. unfold fnum at 1. rewrite (Hin r Hr).
    cbn [moved_frame frame_number]. apply kept_frame_id. now apply Hwithin. }
  destruct (py_min_by_spec (fnum h') keyframes Hne) as (m' & _ & Hm' & Hleast').
  destruct (shift_keyframes_cases keyframes (- d) frame_min false h'
              (fnum h' m') Hne (ex_intro _ m' (conj Hm' eq_refl)) Hleast')
    as [(Hcase & _)|(_ & Eb)].
  { exfalso. cbn [andb] in Hcase.
    assert (H1 := Hmin m' Hm'). assert (H2 := Hmoved m' Hm').
    assert (H3 := py_min_by_spec (fnum h) keyframes Hne).
    destruct H3 as (m & _ & Hm & Hleast).
    assert (H4 := Hleast m' Hm'). assert (H5 := Hmin m Hm).
    destruct Hcase as [H|[[_ H]|H]]; lia. }
  cbn [andb] in Eb.
  destruct (offset_keyframes_spec keyframes (- d) h')
    as (h'' & [(_ & El & Hh'')|(Hall & _)]).
  - rewrite El in Eb. cbn [bind] in Eb. exists h''. split; [exact Eb|].
    intros r. rewrite Hh''.
    destruct (in_dec Nat.eq_dec r keyframes) as [Hr|Hr].
    + rewrite listed_once by assumption.
      change (moved_times 1 (h' r) (- d)) with (moved_frame (h' r) (- d)).
      assert (H1 := Hmoved r Hr). unfold fnum in H1.
      unfold moved_frame at 1. rewrite H1.
      rewrite (Hin r Hr). cbn [moved_frame frame_select frame_tag keyframe_type].
      replace (frame_number (h r) + d + - d) with (frame_number (h r)) by lia.
      rewrite kept_frame_id by (apply Hrange; exact Hr).
      now destruct (h r).
    + rewrite listed_none by assumption. now apply Hout.
  - elim Hall. intros r k Hk.
    destruct (in_dec Nat.eq_dec r keyframes) as [Hr|Hr].
    + rewrite listed_once in Hk by assumption. replace k with 0%nat by lia.
      change (moved_times 0 (h' r) (- d)) with (h' r).
      assert (H1 := Hmoved r Hr). unfold fnum in H1. rewrite H1.
      apply in_frame_range_c_int.
      replace (frame_number (h r) + d + - d) with (fnum h r)
        by (unfold fnum; lia).
      now apply Hrange.
    + rewrite listed_none in Hk by assumption. lia.
Qed.

Lemma shift_keyframes_undo_witness :
  exists h'',
    shift_keyframes [3%nat; 5%nat] 2 1 false
      (snd (shift_keyframes [3%nat; 5%nat] (-4) 1 true fixture_store))
    = (Ok true, h'')
    /\ forall r, h'' r = fixture_store r.
Proof.
  destruct (shift_keyframes_undo [3%nat; 5%nat] (-4) 1 true fixture_store
              (snd (shift_keyframes [3%nat; 5%nat] (-4) 1 true fixture_store)))
    as (applied & Hnz & Hin & Hback).
  - repeat (constructor; [simpl; intuition discriminate|]). constructor.
  - intros r [<-|[<-|[]]]; vm_compute; split; discriminate.
  - reflexivity.
  - assert (Ha : applied = -2).
    { assert (H := f_equal frame_number (Hin 3%nat ltac:(now left))).
      change (1 = kept_frame (3 + applied)) in H.
      rewrite <- kept_frame_spec in H. host_limits. lia. }
    subst applied. apply Hback.
    intros r [<-|[<-|[]]]; vm_compute; split; discriminate.
Defined.

(** At the frame limit the opposite shift does not restore the keyframes. *)
Example test_shift_keyframes_limit_not_undone :
  let h := store_of (fun r => if (r =? 0)%nat then 1048570 else 1048574) in
  let (res, h') := shift_keyframes [0; 1]%nat 10 0 false h in
  let (back, h'') := shift_keyframes [0; 1]%nat (-10) 0 false h' in
  res = Ok true /\ back = Ok true
  /\ map (fnum h') [0; 1]%nat = [1048574; 1048574]
  /\ map (fnum h'') [0; 1]%nat = [1048564; 1048564].
Proof. vm_compute. auto. Qed.

(** ** More on shift_gp_keyframes *)

Lemma StronglySorted_impl_in {A} (R R' : A -> A -> Prop) (l : list A) :
  (forall a b, In a l -> In b l -> R a b -> R' a b) ->
  StronglySorted R l -> StronglySorted R' l.
Proof.
  intros H Hs. induction Hs as [|x l Hs IH Hx]; constructor.
  - apply IH. intros a b Ha Hb. apply H; now right.
  - rewrite Forall_forall in Hx |- *. intros y Hy.
    apply H; [now left|now right|now apply Hx].
Qed.

(** X20.  When [shift_gp_keyframes] returns a list, the keyframes of the
    list have been shifted as a block, up to the host's frame limit: each
    has had its frame number plus one offset, which is not zero, assigned,
    the host keeping the number within [-1048574, 1048574], so that a sum
    in that range is the new frame number; nothing else of them has
    changed, and they stay in ascending order of frame number.  Each of
    them was after [frame_start], and one whose frame number was in the
    host's range still is.  Without adjustment the offset is the one asked
    for. *)
Theorem shift_gp_keyframes_rigid (h : fstore) (gp : GreasePencil)
    (frame_start offset : Z)
    (adjust_offset only_active_layer only_unlocked_layers
     only_selected_layers : bool) (moved : list fref) (h' : fstore) :
  NoDup (flat_map frames (layers gp)) ->
  shift_gp_keyframes h gp frame_start offset adjust_offset only_active_layer
    only_unlocked_layers only_selected_layers = (Ok moved, h') ->
  exists applied,
    (forall r, In r moved ->
       h' r = moved_frame (h r) applied
       /\ (in_frame_range (fnum h r + applied) -> fnum h' r = fnum h r + applied)
       /\ frame_start < fnum h r
       /\ (in_frame_range (fnum h r) -> frame_start < fnum h' r))
    /\ (moved <> [] -> applied <> 0)
    /\ (moved <> [] -> adjust_offset = false -> applied = offset)
    /\ StronglySorted (fun a b => fnum h' a <= fnum h' b) moved.
Proof.
  intros Hown. unfold shift_gp_keyframes.
  set (traits := layer_options_to_traits only_active_layer only_unlocked_layers
                   only_selected_layers).
  remember (get_gp_keyframes h gp traits FrameTraits_NONE
              (frame_start + 1) sys_maxsize) as keyframes eqn:Hk.
  assert (Hnd : NoDup keyframes)
    by (subst keyframes; now apply get_gp_keyframes_NoDup).
  assert (Hafter : forall r, In r keyframes -> frame_start < fnum h r).
  { intros r Hin. subst keyframes. apply In_get_gp_keyframes in Hin.
    destruct Hin as (_ & _ & _ & _ & _ & Hrange & _). lia. }
  assert (Hsorted : StronglySorted (fun a b => fnum h a <= fnum h b) keyframes)
    by (subst keyframes; apply sorted_ascending).
  clear Hk.
  assert (Hnone : exists applied : Z,
            (forall r, In r (@nil fref) ->
               h' r = moved_frame (h r) applied
               /\ (in_frame_range (fnum h r + applied) ->
                   fnum h' r = fnum h r + applied)
               /\ frame_start < fnum h r
               /\ (in_frame_range (fnum h r) -> frame_start < fnum h' r))
            /\ (@nil fref <> [] -> applied <> 0)
            /\ (@nil fref <> [] -> adjust_offset = false -> applied = offset)
            /\ StronglySorted (fun a b => fnum h' a <= fnum h' b) []).
  { exists 0. split; [intros r []|]. split; [congruence|]. split; [congruence|].
    constructor. }
  destruct keyframes as [|k ks].
  - intros E. inversion E; subst. exact Hnone.
  - destruct (shift_keyframes_run (k :: ks) offset (frame_start + 1)
                adjust_offset h ltac:(discriminate) Hnd)
      as (res & h1 & E & Hout & Hres).
    rewrite E.
    destruct Hres as [(-> & ->)|(d & Hd & Hkind & Hmin & Hres)].
    { cbn [bind]. intros E'. inversion E'; subst. exact Hnone. }
    destruct Hres as [(-> & _ & Hin)|(-> & _)]; cbn [bind]; [|discriminate].
    intros E'. inversion E'; subst. clear E'.
    assert (Hnum : forall r, In r (k :: ks) ->
              fnum h' r = kept_frame (fnum h r + d)).
    { intros r Hr. unfold fnum at 1. now rewrite (Hin r Hr). }
    exists d. split.
    { intros r Hr. split; [now apply Hin|].
      split; [intros Hw; rewrite (Hnum r Hr); now apply kept_frame_id|].
      split; [now apply Hafter|].
      intros Hr0. rewrite (Hnum r Hr).
      assert (H1 := Hmin r Hr). assert (H2 := Hafter r Hr).
      rewrite <- kept_frame_spec. host_limits. lia. }
    split; [intros _; exact Hd|].
    split.
    { intros _ Hadj. destruct Hkind as [->|(Ha & _)]; [reflexivity|congruence]. }
    apply (StronglySorted_impl_in (fun a b => fnum h a <= fnum h b));
      [|exact Hsorted].
    intros a b Ha Hb Hab. rewrite (Hnum a Ha), (Hnum b Hb).
    apply kept_frame_monotone. lia.
Qed.

Lemma shift_gp_keyframes_rigid_witness :
  exists applied,
    (forall r, In r [7; 9; 12]%nat ->
       fnum (snd (shift_gp_keyframes fixture_store
                    (fixture_gp [fixture_layer [3; 4; 5]%nat;
                                 fixture_layer [7; 9; 12]%nat] (Some 1%nat))
                    5 (-4) true false false false)) r
       = fnum fixture_store r + applied)
    /\ applied <> 0.
Proof.
  destruct (shift_gp_keyframes_rigid fixture_store
              (fixture_gp [fixture_layer [3; 4; 5]%nat; fixture_layer [7; 9; 12]%nat]
                 (Some 1%nat))
              5 (-4) true false false false [7; 9; 12]%nat
              (snd (shift_gp_keyframes fixture_store
                      (fixture_gp [fixture_layer [3; 4; 5]%nat;
                                   fixture_layer [7; 9; 12]%nat] (Some 1%nat))
                      5 (-4) true false false false)))
    as (applied & Hin & Hnz & _).
  - simpl. repeat (constructor; [simpl; intuition discriminate|]). constructor.
  - reflexivity.
  - exists applied. split; [|apply Hnz; discriminate].
    assert (Ha : applied = -1).
    { destruct (Hin 7%nat ltac:(now left)) as (H & _).
      apply (f_equal frame_number) in H.
      change (6 = kept_frame (7 + applied)) in H.
      rewrite <- kept_frame_spec in H. host_limits. lia. }
    subst applied.
    intros r Hr. destruct (Hin r Hr) as (_ & Hsum & _). apply Hsum.
    destruct Hr as [<-|[<-|[<-|[]]]]; vm_compute; split; discriminate.
Defined.

(** The fixture: the keyframes after frame 5 are brought next to it. *)
Example test_shift_gp_keyframes_adjusted :
  fst (shift_gp_keyframes fixture_store
         (fixture_gp [fixture_layer [3; 4; 5]%nat; fixture_layer [7; 9; 12]%nat]
            (Some 1%nat))
         5 (-4) true false false false) = Ok [7; 9; 12]%nat
  /\ map (fnum (snd (shift_gp_keyframes fixture_store
                       (fixture_gp [fixture_layer [3; 4; 5]%nat;
                                    fixture_layer [7; 9; 12]%nat] (Some 1%nat))
                       5 (-4) true false false false)))
       [3; 4; 5; 7; 9; 12]%nat
     = [3; 4; 5; 6; 8; 11].
Proof. split; reflexivity. Qed.

(** ** More on get_gp_layers and get_gp_keyframes *)

Lemma filter_all {A} (f : A -> bool) (l : list A) :
  (forall x, In x l -> f x = true) -> filter f l = l.
Proof.
  induction l as [|x l IH]; simpl; intros H; [reflexivity|].
  rewrite (H x) by now left. f_equal. apply IH. intros y Hy. apply H. now right.
Qed.

Lemma map_snd_enumerate_from {A} (l : list A) :
  forall n, map snd (enumerate_from n l) = l.
Proof.
  induction l as [|x l IH]; intros n; simpl; [reflexivity|]. now rewrite IH.
Qed.

Lemma filter_index {A} (P : nat -> A -> bool) (a : nat) (l : list A) :
  forall n,
    map snd
      (filter (fun il => (fst il =? a)%nat && P (fst il) (snd il))
         (enumerate_from n l))
    = match nth_error l (a - n) with
      | Some x => if (n <=? a)%nat && P a x then [x] else []
      | None => []
      end.
Proof.
  induction l as [|x l IH]; intros n.
  - simpl. now destruct (a - n)%nat.
  - cbn [enumerate_from filter fst snd].
    assert (Htail : forall m, (a < m)%nat ->
              map snd
                (filter (fun il => (fst il =? a)%nat && P (fst il) (snd il))
                   (enumerate_from m l)) = []).
    { intros m Hm. rewrite IH.
      assert (E : (m <=? a)%nat = false) by (apply Nat.leb_gt; lia).
      rewrite E. simpl. now destruct (nth_error l (a - m)). }
    destruct (Nat.eqb_spec n a) as [->|Hne].
    + rewrite Nat.sub_diag. cbn [nth_error andb]. rewrite Nat.leb_refl.
      cbn [andb].
      destruct (P a x); cbn [map snd]; rewrite Htail by lia; reflexivity.
    + cbn [andb]. destruct (Nat.lt_ge_cases a n) as [Hlt|Hge].
      * rewrite Htail by lia.
        assert (E2 : (n <=? a)%nat = false) by (apply Nat.leb_gt; lia).
        rewrite E2. cbn [andb]. now destruct (nth_error (x :: l) (a - n)).
      * rewrite IH.
        assert (E1 : (S n <=? a)%nat = true) by (apply Nat.leb_le; lia).
        assert (E2 : (n <=? a)%nat = true) by (apply Nat.leb_le; lia).
        rewrite E1, E2.
        replace (a - n)%nat with (S (a - S n)) by lia. reflexivity.
Qed.

(** X21.  Without filter [get_gp_layers] gives all the layers, in their
    order.  With the ACTIVE flag it gives at most one layer: the active
    layer when there is one and it passes the other flags, and no layer
    otherwise. *)
Theorem get_gp_layers_active (gp : GreasePencil) (layer_filter : LayerTraits) :
  get_gp_layers gp LayerTraits_NONE = layers gp
  /\ (flag_in LayerTraits_ACTIVE layer_filter = true ->
      get_gp_layers gp layer_filter
      = match active_index gp with
        | Some a =>
            match nth_error (layers gp) a with
            | Some layer =>
                if negb (flag_in LayerTraits_UNLOCKED layer_filter
                         && lock layer)
                   && negb (flag_in LayerTraits_SELECTED layer_filter
                            && negb (layer_select layer))
                then [layer] else []
            | None => []
            end
        | None => []
        end).
Proof.
  unfold get_gp_layers, enumerate. split.
  - rewrite filter_all; [apply map_snd_enumerate_from|].
    intros [i layer] _. reflexivity.
  - intros Hact. unfold layer_matches, is_active_layer. rewrite Hact. simpl.
    destruct (active_index gp) as [a|].
    + set (P := fun (_ : nat) (layer : GPencilLayer) =>
                  (negb (flag_in LayerTraits_UNLOCKED layer_filter)
                   || negb (lock layer))
                  && (negb (flag_in LayerTraits_SELECTED layer_filter)
                      || layer_select layer)).
      transitivity
        (map snd
           (filter (fun il => (fst il =? a)%nat && P (fst il) (snd il))
              (enumerate_from 0 (layers gp)))).
      { f_equal. apply filter_ext. intros [i layer]. unfold P. simpl.
        now rewrite andb_assoc. }
      rewrite filter_index, Nat.sub_0_r. unfold P. simpl.
      destruct (nth_error (layers gp) a) as [layer|]; [|reflexivity].
      destruct (flag_in LayerTraits_UNLOCKED layer_filter), (lock layer),
        (flag_in LayerTraits_SELECTED layer_filter), (layer_select layer);
        reflexivity.
    + rewrite (filter_ext _ (fun _ => false)) by (intros [i layer]; reflexivity).
      now induction (enumerate_from 0 (layers gp)).
Qed.

Lemma insert_by_filter {A} (key : A -> Z) (P : A -> bool) (x : A) (l : list A) :
  (forall a b, P a = true -> P b = true -> key a = key b) ->
  filter P (insert_by key x l) = if P x then x :: filter P l else filter P l.
Proof.
  intros Hclass. induction l as [|y l IH]; simpl; [reflexivity|].
  destruct (key x <=? key y) eqn:E; simpl; [reflexivity|].
  apply Z.leb_gt in E. rewrite IH.
  destruct (P x) eqn:Px, (P y) eqn:Py; try reflexivity.
  specialize (Hclass x y Px Py). lia.
Qed.

Lemma sorted_filter {A} (key : A -> Z) (reverse : bool) (n : Z) (l : list A) :
  filter (fun x => key x =? n) (sorted key reverse l)
  = filter (fun x => key x =? n) l.
Proof.
  unfold sorted. induction l as [|x l IH]; simpl; [reflexivity|].
  rewrite insert_by_filter.
  - now rewrite IH.
  - intros a b Ha Hb. apply Z.eqb_eq in Ha, Hb. now rewrite Ha, Hb.
Qed.

(** X22.  The sort of [get_gp_keyframes] is stable: the keyframes of one
    frame number are in the order of their layers, and within a layer in
    the order of its frames.  When the host holds each keyframe once, the
    result holds no keyframe twice. *)
Theorem get_gp_keyframes_stable (h : fstore) (gp : GreasePencil)
    (layer_filter : LayerTraits) (frame_filter : FrameTraits)
    (frame_min frame_max : Z) :
  (forall n : Z,
     filter (fun f => fnum h f =? n)
       (get_gp_keyframes h gp layer_filter frame_filter frame_min frame_max)
     = filter (fun f => fnum h f =? n)
         (flat_map
            (fun layer =>
               filter (frame_matches h frame_filter frame_min frame_max)
                 (frames layer))
            (get_gp_layers gp layer_filter)))
  /\ (NoDup (flat_map frames (layers gp)) ->
      NoDup (get_gp_keyframes h gp layer_filter frame_filter frame_min
               frame_max)).
Proof.
  split.
  - intros n. unfold get_gp_keyframes.
    now rewrite sorted_filter, fold_left_extend.
  - apply get_gp_keyframes_NoDup.
Qed.

(** Two layers with a keyframe at frame 4 each: the one of the first layer
    comes first. *)
Example test_get_gp_keyframes_stable :
  get_gp_keyframes (fun r => mkFrame (Z.of_nat (r mod 10)) false false KEYFRAME)
    (fixture_gp [fixture_layer [14; 5]%nat; fixture_layer [3; 4]%nat] None)
    LayerTraits_NONE FrameTraits_NONE 0 sys_maxsize
  = [3; 14; 4; 5]%nat.
Proof. reflexivity. Qed.

(** X23.  The conversion of options to traits loses nothing: a flag is in
    the traits exactly when its option is set, and no option set gives the
    empty filter. *)
Theorem options_to_traits_flags (active unlocked selected onion_tag : bool) :
  flag_in LayerTraits_ACTIVE (layer_options_to_traits active unlocked selected)
  = active
  /\ flag_in LayerTraits_UNLOCKED
       (layer_options_to_traits active unlocked selected) = unlocked
  /\ flag_in LayerTraits_SELECTED
       (layer_options_to_traits active unlocked selected) = selected
  /\ flag_in FrameTraits_SELECTED (frame_options_to_traits selected onion_tag)
     = selected
  /\ flag_in FrameTraits_TAG (frame_options_to_traits selected onion_tag)
     = onion_tag
  /\ layer_options_to_traits false false false = LayerTraits_NONE
  /\ frame_options_to_traits false false = FrameTraits_NONE.
Proof.
  destruct active, unlocked, selected, onion_tag; repeat split.
Qed.

(** ** are_similar_gp_materials *)

Lemma SFeqb_true_iff (x y : spec_float) :
  SFeqb x y = true
  <-> match x, y with
      | S754_zero _, S754_zero _ => True
      | S754_infinity s1, S754_infinity s2 => s1 = s2
      | S754_finite s1 m1 e1, S754_finite s2 m2 e2 =>
          s1 = s2 /\ m1 = m2 /\ e1 = e2
      | _, _ => False
      end.
Proof.
  unfold SFeqb, SFcompare.
  destruct x as [s1|s1| |s1 m1 e1], y as [s2|s2| |s2 m2 e2];
    try (destruct s1; simpl; intuition discriminate);
    try (destruct s2; simpl; intuition discriminate);
    try (simpl; intuition discriminate).
  - destruct s1, s2; simpl; intuition discriminate.
  - destruct s1, s2; try (simpl; intuition discriminate).
    + destruct (Z.compare_spec e1 e2) as [He|He|He];
        try (split; [discriminate|intros (_ & _ & H); lia]).
      subst. change (Pos.compare_cont Eq m1 m2) with (Pos.compare m1 m2).
      destruct (Pos.compare_spec m1 m2) as [Hm|Hm|Hm]; simpl;
        try (split; [discriminate|intros (_ & H & _); lia]).
      subst. tauto.
    + destruct (Z.compare_spec e1 e2) as [He|He|He];
        try (split; [discriminate|intros (_ & _ & H); lia]).
      subst. change (Pos.compare_cont Eq m1 m2) with (Pos.compare m1 m2).
      destruct (Pos.compare_spec m1 m2) as [Hm|Hm|Hm]; simpl;
        try (split; [discriminate|intros (_ & H & _); lia]).
      subst. tauto.
Qed.

Lemma SFeqb_sym (x y : spec_float) : SFeqb x y = true -> SFeqb y x = true.
Proof.
  rewrite !SFeqb_true_iff.
  destruct x, y; simpl; intuition congruence.
Qed.

Lemma SFeqb_trans (x y z : spec_float) :
  SFeqb x y = true -> SFeqb y z = true -> SFeqb x z = true.
Proof.
  rewrite !SFeqb_true_iff.
  destruct x, y, z; simpl; intuition congruence.
Qed.

Lemma seq_eqb_array_eq (a b : list spec_float) :
  seq_eqb a b = true <-> array_eq a b.
Proof.
  unfold array_eq. revert b.
  induction a as [|x a IH]; intros [|y b]; simpl.
  - split; [constructor|reflexivity].
  - split; [discriminate|]. intros H. inversion H.
  - split; [discriminate|]. intros H. inversion H.
  - rewrite andb_true_iff, IH. split.
    + intros [H1 H2]. now constructor.
    + intros H. inversion H; subst. auto.
Qed.

Lemma array_eq_sym (a b : list spec_float) : array_eq a b -> array_eq b a.
Proof.
  unfold array_eq. induction 1; constructor; auto using SFeqb_sym.
Qed.

Lemma array_eq_trans (a b c : list spec_float) :
  array_eq a b -> array_eq b c -> array_eq a c.
Proof.
  unfold array_eq. intros H. revert c.
  induction H; intros c Hc; inversion Hc; subst; constructor; eauto using SFeqb_trans.
Qed.

Lemma same_compared_values_sym (a b : MaterialGPencilStyle) :
  same_compared_values a b -> same_compared_values b a.
Proof.
  unfold same_compared_values.
  intros (H1 & H2 & H3 & H4 & H5 & H6 & H7 & H8 & H9 & H10).
  repeat split; auto using array_eq_sym.
Qed.

Lemma same_compared_values_trans (a b c : MaterialGPencilStyle) :
  same_compared_values a b -> same_compared_values b c ->
  same_compared_values a c.
Proof.
  unfold same_compared_values.
  intros (H1 & H2 & H3 & H4 & H5 & H6 & H7 & H8 & H9 & H10)
         (G1 & G2 & G3 & G4 & G5 & G6 & G7 & G8 & G9 & G10).
  repeat split; try congruence; eauto using array_eq_trans.
Qed.

Lemma bool_ne_false (a b : bool) : negb (Bool.eqb a b) = false <-> a = b.
Proof. destruct a, b; simpl; intuition discriminate. Qed.

Lemma string_ne_false (a b : string) : negb (a =? b)%string = false <-> a = b.
Proof.
  destruct (String.eqb_spec a b); simpl; intuition discriminate.
Qed.

Lemma seq_ne_false (a b : list spec_float) :
  negb (seq_eqb a b) = false <-> array_eq a b.
Proof.
  rewrite <- seq_eqb_array_eq. destruct (seq_eqb a b); simpl; intuition discriminate.
Qed.

(** The comparison of two grease pencil settings returns, and what. *)
Lemma compare_attributes_spec (sa sb : MaterialGPencilStyle) :
  exists b,
    compare_attributes (Some sa) (Some sb) gp_material_comparison_attributes
    = Ok b
    /\ (b = true <-> same_compared_values sa sb).
Proof.
  unfold same_compared_values. cbn.
  repeat match goal with
  | |- context [if ?c then _ else _] =>
      let E := fresh "E" in
      destruct c eqn:E;
      [ eexists; split; [reflexivity|];
        split; [discriminate|];
        intros (H1 & H2 & H3 & H4 & H5 & H6 & H7 & H8 & H9 & H10);
        first [ apply (proj2 (bool_ne_false _ _)) in H1; congruence
              | apply (proj2 (string_ne_false _ _)) in H2; congruence
              | apply (proj2 (string_ne_false _ _)) in H3; congruence
              | apply (proj2 (seq_ne_false _ _)) in H4; congruence
              | apply (proj2 (bool_ne_false _ _)) in H5; congruence
              | apply (proj2 (bool_ne_false _ _)) in H6; congruence
              | apply (proj2 (bool_ne_false _ _)) in H7; congruence
              | apply (proj2 (string_ne_false _ _)) in H8; congruence
              | apply (proj2 (seq_ne_false _ _)) in H9; congruence
              | apply (proj2 (bool_ne_false _ _)) in H10; congruence ]
      | first [ apply (proj1 (bool_ne_false _ _)) in E
              | apply (proj1 (string_ne_false _ _)) in E
              | apply (proj1 (seq_ne_false _ _)) in E ] ]
  end.
  eexists. split; [reflexivity|].
  split; [intros _; repeat split; assumption|reflexivity].
Qed.

Lemma is_grease_pencil_style (mat : Material) :
  is_grease_pencil mat = true <-> exists s, grease_pencil mat = Some s.
Proof.
  unfold is_grease_pencil. destruct (grease_pencil mat).
  - split; eauto.
  - split; [discriminate|]. intros [s H]. discriminate.
Qed.

Lemma are_similar_gp_materials_styles (materialA materialB : Material)
    (sa sb : MaterialGPencilStyle) :
  grease_pencil materialA = Some sa -> grease_pencil materialB = Some sb ->
  exists b,
    are_similar_gp_materials materialA materialB = Ok b
    /\ (b = true <-> same_compared_values sa sb).
Proof.
  intros Ha Hb. unfold are_similar_gp_materials, is_grease_pencil.
  rewrite Ha, Hb. simpl negb. simpl orb. cbv iota.
  apply compare_attributes_spec.
Qed.

(** X1.  The function raises [ValueError] exactly when one of the two
    materials is not a grease pencil material; on two grease pencil
    materials it returns a boolean, which is [True] exactly when the two
    have equal values for the ten attributes of
    [gp_material_comparison_attributes].  It reads the two materials and
    assigns to neither: its result is all it gives back. *)
Theorem are_similar_gp_materials_correct (materialA materialB : Material) :
  (are_similar_gp_materials materialA materialB = Raise ValueError
   <-> is_grease_pencil materialA = false \/ is_grease_pencil materialB = false)
  /\ (forall sa sb,
        grease_pencil materialA = Some sa -> grease_pencil materialB = Some sb ->
        exists b,
          are_similar_gp_materials materialA materialB = Ok b
          /\ (b = true <-> same_compared_values sa sb))
  /\ length gp_material_comparison_attributes = 10%nat
  /\ NoDup gp_material_comparison_attributes.
Proof.
  split; [|split; [|split]].
  - split.
    + intros E.
      destruct (is_grease_pencil materialA) eqn:Ha; auto.
      destruct (is_grease_pencil materialB) eqn:Hb; auto.
      apply is_grease_pencil_style in Ha, Hb.
      destruct Ha as [sa Ha], Hb as [sb Hb].
      destruct (are_similar_gp_materials_styles _ _ sa sb Ha Hb) as (b & E' & _).
      congruence.
    + unfold are_similar_gp_materials. intros [->| ->]; simpl.
      * reflexivity.
      * now rewrite orb_true_r.
  - apply are_similar_gp_materials_styles.
  - reflexivity.
  - repeat (constructor; [simpl; intuition discriminate|]). constructor.
Qed.

Lemma are_similar_gp_materials_correct_witness :
  exists b,
    are_similar_gp_materials (fixture_material 1%nat "A/MatA" black)
      (fixture_material 2%nat "A/MatA.001" red) = Ok b
    /\ (b = true <-> same_compared_values (fixture_style black) (fixture_style red)).
Proof.
  apply (proj1 (proj2 (are_similar_gp_materials_correct
                         (fixture_material 1%nat "A/MatA" black)
                         (fixture_material 2%nat "A/MatA.001" red)))
           (fixture_style black) (fixture_style red)); reflexivity.
Defined.

Example test_similar_name_different_settings :
  are_similar_gp_materials (fixture_material 1%nat "A/MatA" black)
    (fixture_material 2%nat "A/MatA.001" red) = Ok false.
Proof. reflexivity. Qed.

Example test_identical_materials :
  are_similar_gp_materials (fixture_material 1%nat "A/MatA" black)
    (fixture_material 2%nat "A/MatA.001" black) = Ok true.
Proof. reflexivity. Qed.

(** A material with a NaN colour component is not similar to its copy. *)
Example nan_is_not_similar :
  are_similar_gp_materials
    (fixture_material 1%nat "A/MatA" [S754_nan; f0; f0; f1])
    (fixture_material 2%nat "A/MatA.001" [S754_nan; f0; f0; f1]) = Ok false.
Proof. reflexivity. Qed.

(** ** cleanup_duplicated_materials *)

(** *** Similarity *)

Lemma similar_styles (a b : Material) :
  similar a b = true
  <-> exists sa sb, grease_pencil a = Some sa /\ grease_pencil b = Some sb
                    /\ same_compared_values sa sb.
Proof.
  unfold similar. split.
  - intros H.
    destruct (grease_pencil a) as [sa|] eqn:Ha;
      [|unfold are_similar_gp_materials, is_grease_pencil in H;
        rewrite Ha in H; discriminate].
    destruct (grease_pencil b) as [sb|] eqn:Hb;
      [|unfold are_similar_gp_materials, is_grease_pencil in H;
        rewrite Ha, Hb in H; discriminate].
    destruct (are_similar_gp_materials_styles a b sa sb Ha Hb) as (r & E & Hr).
    rewrite E in H. destruct r; [|discriminate].
    exists sa, sb. split; [reflexivity|]. split; [reflexivity|]. now apply Hr.
  - intros (sa & sb & Ha & Hb & Hs).
    destruct (are_similar_gp_materials_styles a b sa sb Ha Hb) as (r & E & Hr).
    rewrite E. apply Hr in Hs. now subst.
Qed.

Lemma similar_sym (a b : Material) : similar a b = true -> similar b a = true.
Proof.
  rewrite !similar_styles. intros (sa & sb & Ha & Hb & Hs).
  exists sb, sa. auto using same_compared_values_sym.
Qed.

Lemma similar_trans (a b c : Material) :
  similar a b = true -> similar b c = true -> similar a c = true.
Proof.
  rewrite !similar_styles.
  intros (sa & sb & Ha & Hb & Hs) (sb' & sc & Hb' & Hc & Hs').
  rewrite Hb in Hb'. inversion Hb'; subst sb'.
  exists sa, sc. eauto using same_compared_values_trans.
Qed.

Lemma are_similar_gp_materials_similar (a b : Material) :
  is_grease_pencil a = true -> is_grease_pencil b = true ->
  are_similar_gp_materials a b = Ok (similar a b).
Proof.
  intros Ha Hb. apply is_grease_pencil_style in Ha, Hb.
  destruct Ha as [sa Ha], Hb as [sb Hb].
  destruct (are_similar_gp_materials_styles a b sa sb Ha Hb) as (r & E & _).
  unfold similar. rewrite E. now destruct r.
Qed.

Lemma similar_true_iff (a b : Material) :
  similar a b = true <-> are_similar_gp_materials a b = Ok true.
Proof.
  unfold similar. destruct (are_similar_gp_materials a b) as [[|]|e|].
  - tauto.
  - split; discriminate.
  - split; discriminate.
  - split; discriminate.
Qed.

(** *** The second pass on one group *)

Lemma mat_in_In (mat : Material) (s : list mref) :
  mat_in mat s = true <-> In (as_pointer mat) s.
Proof.
  unfold mat_in. rewrite existsb_exists. split.
  - intros (p & Hp & E). apply Nat.eqb_eq in E. now subst.
  - intros H. exists (as_pointer mat). split; auto. apply Nat.eqb_refl.
Qed.

Lemma In_set_add (mat : Material) (s : list mref) (p : mref) :
  In p (set_add mat s) <-> In p s \/ p = as_pointer mat.
Proof.
  unfold set_add. destruct (mat_in mat s) eqn:E.
  - apply mat_in_In in E. split; auto. intros [H| ->]; auto.
  - rewrite in_app_iff. simpl. intuition.
Qed.

Lemma user_remap_remapped (a b : Material) (f : mref -> mref) (d : BlendData.t) :
  user_remap b a (remapped f d)
  = remapped (fun p => swap_ptr (as_pointer b) (as_pointer a) (f p)) d.
Proof.
  unfold user_remap, remapped. simpl. f_equal.
  rewrite map_map. apply map_ext. intros gp.
  unfold map_slots. simpl. f_equal.
  rewrite map_map. apply map_ext. intros [p|]; simpl; [|reflexivity].
  unfold swap_ptr. now destruct (f p =? as_pointer b)%nat.
Qed.

Lemma compare_with_next_pure_run (matA : Material) (d : BlendData.t) :
  is_grease_pencil matA = true ->
  forall (next : list Material) (st : remap_state),
    Forall (fun m => is_grease_pencil m = true) next ->
    compare_with_next matA next (fst st, remapped (snd st) d)
    = Ok (fst (compare_with_next_pure matA next st),
          remapped (snd (compare_with_next_pure matA next st)) d).
Proof.
  intros Ha. unfold compare_with_next, compare_with_next_pure.
  induction next as [|b next IH]; intros st Hall; simpl.
  - reflexivity.
  - inversion Hall as [|? ? Hb Hall']; subst.
    rewrite (are_similar_gp_materials_similar matA b Ha Hb). simpl.
    destruct (similar matA b).
    + rewrite user_remap_remapped.
      exact (IH (set_add b (fst st),
                 fun p => swap_ptr (as_pointer b) (as_pointer matA) (snd st p))
               Hall').
    + destruct st as [o f]. exact (IH (o, f) Hall').
Qed.

Lemma find_duplicates_in_pure_run_from (d : BlendData.t) :
  forall (next pre : list Material) (st : remap_state),
    Forall (fun m => is_grease_pencil m = true) next ->
    fold_left
      (fun acc imat =>
         st <- acc ;;
         if mat_in (snd imat) (fst st) then Ok st
         else compare_with_next (snd imat)
                (skipn (fst imat + 1) (pre ++ next)) st)
      (enumerate_from (length pre) next) (Ok (fst st, remapped (snd st) d))
    = Ok (fst (find_duplicates_in_pure next st),
          remapped (snd (find_duplicates_in_pure next st)) d).
Proof.
  induction next as [|a next IH]; intros pre st Hall; simpl.
  - reflexivity.
  - inversion Hall as [|? ? Ha Hall']; subst.
    assert (Hskip : skipn (length pre + 1) (pre ++ a :: next) = next).
    { rewrite app_cons_assoc.
      replace (length pre + 1)%nat with (length (pre ++ [a]) + 0)%nat
        by (rewrite length_app; simpl; lia).
      now rewrite skipn_app, Nat.add_0_r, skipn_all, Nat.sub_diag. }
    rewrite Hskip.
    replace (S (length pre)) with (length (pre ++ [a]))
      by (rewrite length_app; simpl; lia).
    rewrite (app_cons_assoc pre next a).
    destruct (mat_in a (fst st)).
    + destruct st as [o f]. exact (IH (pre ++ [a])%list (o, f) Hall').
    + rewrite (compare_with_next_pure_run a d Ha next st Hall').
      exact (IH (pre ++ [a])%list (compare_with_next_pure a next st) Hall').
Qed.

Lemma find_duplicates_in_pure_run (d : BlendData.t) (materials : list Material)
    (st : remap_state) :
  Forall (fun m => is_grease_pencil m = true) materials ->
  find_duplicates_in materials (fst st, remapped (snd st) d)
  = Ok (fst (find_duplicates_in_pure materials st),
        remapped (snd (find_duplicates_in_pure materials st)) d).
Proof.
  exact (find_duplicates_in_pure_run_from d materials [] st).
Qed.

Lemma ptr_injective (l : list Material) (x y : Material) :
  NoDup (map as_pointer l) -> In x l -> In y l ->
  as_pointer x = as_pointer y -> x = y.
Proof.
  induction l as [|a l IH]; simpl; intros Hnd Hx Hy E; [destruct Hx|].
  inversion Hnd as [|? ? Hnin Hnd']; subst.
  destruct Hx as [->|Hx], Hy as [->|Hy]; auto.
  - elim Hnin. rewrite E. now apply in_map.
  - elim Hnin. rewrite <- E. now apply in_map.
Qed.

Lemma find_ptr_None (l : list Material) (q : mref) :
  ~ In q (map as_pointer l) -> find (fun b => (as_pointer b =? q)%nat) l = None.
Proof.
  intros Hnin. destruct (find _ l) as [b|] eqn:E; auto.
  apply find_some in E. destruct E as [Hb E]. apply Nat.eqb_eq in E.
  elim Hnin. rewrite <- E. now apply in_map.
Qed.

Lemma find_ptr_Some (l : list Material) (q : mref) (b : Material) :
  find (fun b => (as_pointer b =? q)%nat) l = Some b ->
  In b l /\ as_pointer b = q.
Proof.
  intros E. apply find_some in E. destruct E as [Hb E].
  apply Nat.eqb_eq in E. auto.
Qed.

Lemma find_ptr_In (l : list Material) (b : Material) :
  NoDup (map as_pointer l) -> In b l ->
  find (fun x => (as_pointer x =? as_pointer b)%nat) l = Some b.
Proof.
  intros Hnd Hb.
  destruct (find _ l) as [x|] eqn:E.
  - apply find_ptr_Some in E. destruct E as [Hx E].
    f_equal. now apply (ptr_injective l).
  - apply (find_none _ _ E) in Hb. now rewrite Nat.eqb_refl in Hb.
Qed.

Lemma In_similar_ptrs (a : Material) (l : list Material) (p : mref) :
  In p (map as_pointer (filter (similar a) l))
  <-> exists b, In b l /\ similar a b = true /\ as_pointer b = p.
Proof.
  rewrite in_map_iff. split.
  - intros (b & E & Hb). apply filter_In in Hb. exists b. tauto.
  - intros (b & Hb & Hs & E). exists b. split; auto. apply filter_In. auto.
Qed.

Lemma compare_with_next_pure_orphans (matA : Material) (next : list Material) :
  forall (st : remap_state) (p : mref),
    In p (fst (compare_with_next_pure matA next st))
    <-> In p (fst st) \/ In p (map as_pointer (filter (similar matA) next)).
Proof.
  unfold compare_with_next_pure.
  induction next as [|b next IH]; intros st p; simpl.
  - tauto.
  - rewrite IH. destruct (similar matA b); simpl.
    + rewrite In_set_add. intuition.
    + tauto.
Qed.

Lemma compare_with_next_pure_slots (matA : Material) (next : list Material) :
  ~ In (as_pointer matA) (map as_pointer next) ->
  forall (st : remap_state) (p : mref),
    snd (compare_with_next_pure matA next st) p
    = if existsb (fun b => similar matA b && (as_pointer b =? snd st p)%nat) next
      then as_pointer matA else snd st p.
Proof.
  unfold compare_with_next_pure.
  induction next as [|b next IH]; intros Hnin st p; simpl.
  - reflexivity.
  - simpl in Hnin.
    rewrite IH by tauto.
    destruct (similar matA b); simpl; [|reflexivity].
    unfold swap_ptr. rewrite (Nat.eqb_sym (as_pointer b)).
    destruct (snd st p =? as_pointer b)%nat eqn:E; simpl; [|reflexivity].
    destruct (existsb _ next) eqn:Ex; [reflexivity|].
    reflexivity.
Qed.

Lemma group_rep_skip (a : Material) (rest : list Material) (orphans : list mref)
    (q : mref) :
  NoDup (map as_pointer (a :: rest)) ->
  closed_in (a :: rest) orphans ->
  In (as_pointer a) orphans ->
  group_rep (a :: rest) orphans q = group_rep rest orphans q.
Proof.
  intros Hnd Hcl Ha. inversion Hnd as [|? ? Hnin Hnd']; subst.
  unfold group_rep. simpl find at 1.
  destruct (as_pointer a =? q)%nat eqn:E.
  - apply Nat.eqb_eq in E. subst q.
    rewrite (find_ptr_None rest) by exact Hnin.
    now rewrite (proj2 (mat_in_In a orphans) Ha).
  - destruct (find _ rest) as [b|] eqn:Eb; [|reflexivity].
    apply find_ptr_Some in Eb. destruct Eb as [Hb Eq].
    destruct (mat_in b orphans) eqn:Eo; [reflexivity|].
    simpl find. destruct (similar a b) eqn:Es; [|reflexivity].
    assert (In (as_pointer b) orphans).
    { apply (Hcl a b); simpl; auto. }
    apply mat_in_In in H. congruence.
Qed.

(** From here on similarity is used through the lemmas above only. *)
Opaque similar.

Lemma find_duplicates_in_pure_spec (g : list Material) :
  forall (st : remap_state),
    NoDup (map as_pointer g) ->
    closed_in g (fst st) ->
    (forall p, In p (fst (find_duplicates_in_pure g st))
               <-> In p (fst st) \/ In p (dup_ptrs g))
    /\ (forall p, snd (find_duplicates_in_pure g st) p
                  = group_rep g (fst st) (snd st p)).
Proof.
  induction g as [|a rest IH]; intros st Hnd Hcl.
  - simpl. split; [tauto|reflexivity].
  - assert (Hnd0 := Hnd).
    inversion Hnd as [|? ? Hnin Hnd']; subst.
    simpl find_duplicates_in_pure.
    destruct (mat_in a (fst st)) eqn:Ea.
    + apply mat_in_In in Ea.
      assert (Hcl' : closed_in rest (fst st)).
      { intros x y Hx Hy. apply Hcl; now right. }
      destruct (IH st Hnd' Hcl') as [HO Hf]. split.
      * intros p. rewrite HO. simpl dup_ptrs. rewrite in_app_iff.
        split; [tauto|]. intros [H|[H|H]]; auto.
        apply In_similar_ptrs in H. destruct H as (b & Hb & Hs & <-).
        left. apply (Hcl a b); simpl; auto.
      * intros p. rewrite Hf. symmetry. now apply group_rep_skip.
    + set (st1 := compare_with_next_pure a rest st).
      assert (HO1 : forall p, In p (fst st1)
                <-> In p (fst st) \/ In p (map as_pointer (filter (similar a) rest)))
        by (intros p; apply compare_with_next_pure_orphans).
      assert (Hf1 := compare_with_next_pure_slots a rest Hnin st).
      fold st1 in Hf1.
      assert (Ha : ~ In (as_pointer a) (fst st)).
      { intros H. apply mat_in_In in H. congruence. }
      assert (Hcl1 : closed_in rest (fst st1)).
      { intros x y Hx Hy Hs Hin. apply HO1. apply HO1 in Hin.
        destruct Hin as [Hin|Hin].
        - left. apply (Hcl x y); simpl; auto.
        - right. apply In_similar_ptrs in Hin.
          destruct Hin as (x' & Hx' & Hs' & E).
          assert (x' = x) by (apply (ptr_injective rest); auto). subst x'.
          apply In_similar_ptrs. exists y. split; [exact Hy|].
          split; [|reflexivity].
          apply (similar_trans a x y); assumption. }
      destruct (IH st1 Hnd' Hcl1) as [HO Hf]. split.
      * intros p. rewrite HO, HO1. simpl dup_ptrs. rewrite in_app_iff. tauto.
      * intros p. rewrite Hf, Hf1.
        set (q := snd st p).
        destruct (existsb _ rest) eqn:Ex.
        -- apply existsb_exists in Ex. destruct Ex as (b & Hb & Ex).
           apply andb_true_iff in Ex. destruct Ex as [Hs Eq].
           apply Nat.eqb_eq in Eq.
           unfold group_rep at 1. rewrite (find_ptr_None rest) by exact Hnin.
           unfold group_rep. simpl find at 1.
           assert ((as_pointer a =? q)%nat = false) as ->.
           { apply Nat.eqb_neq. intros E. apply Hnin. rewrite E, <- Eq.
             now apply in_map. }
           rewrite <- Eq. rewrite (find_ptr_In rest b Hnd' Hb).
           assert (mat_in b (fst st) = false) as ->.
           { destruct (mat_in b (fst st)) eqn:Eb; auto.
             apply mat_in_In in Eb. elim Ha.
             apply (Hcl b a); simpl; auto. now apply similar_sym. }
           simpl find. now rewrite Hs.
        -- unfold group_rep. cbn [find].
           destruct (as_pointer a =? q)%nat eqn:Eaq.
           ++ apply Nat.eqb_eq in Eaq.
              rewrite (find_ptr_None rest) by (rewrite <- Eaq; exact Hnin).
              rewrite Ea.
              destruct (similar a a) eqn:Eaa; [exact (eq_sym Eaq)|].
              destruct (find (fun a0 => similar a0 a) rest) as [a'|] eqn:Ef;
                [|reflexivity].
              apply find_some in Ef. destruct Ef as [_ Ef].
              assert (similar a a = true)
                by (apply (similar_trans a a' a); auto using similar_sym).
              congruence.
           ++ destruct (find _ rest) as [b|] eqn:Eb; [|reflexivity].
              apply find_ptr_Some in Eb. destruct Eb as [Hb Eq].
              assert (Hs : similar a b = false).
              { destruct (similar a b) eqn:Hs; auto.
                assert (existsb (fun b0 => similar a b0 && (as_pointer b0 =? q)%nat)
                          rest = true).
                { apply existsb_exists. exists b. split; auto.
                  rewrite Hs, Eq. simpl. apply Nat.eqb_refl. }
                congruence. }
              assert (mat_in b (fst st1) = mat_in b (fst st)) as ->.
              { destruct (mat_in b (fst st)) eqn:E0.
                - apply mat_in_In. apply HO1. left. now apply mat_in_In.
                - destruct (mat_in b (fst st1)) eqn:E1; auto.
                  apply mat_in_In in E1. apply HO1 in E1.
                  destruct E1 as [E1|E1].
                  + apply mat_in_In in E1. congruence.
                  + apply In_similar_ptrs in E1.
                    destruct E1 as (b' & Hb' & Hs' & E').
                    assert (b' = b) by (apply (ptr_injective rest); auto).
                    subst b'. congruence. }
              destruct (mat_in b (fst st)); [reflexivity|].
              simpl find. now rewrite Hs.
Qed.

(** *** Dictionaries *)

Lemma dict_mem_keys {V} (d : list (string * V)) (k : string) :
  dict_mem d k = true <-> In k (dict_keys d).
Proof.
  unfold dict_mem, dict_keys.
  induction d as [|[k' v] d IH]; simpl.
  - split; [discriminate|tauto].
  - destruct (String.eqb_spec k' k) as [->|Hne].
    + split; auto.
    + rewrite IH. split; auto. intros [H|H]; [congruence|auto].
Qed.

Lemma dict_get_In {V} (d : list (string * V)) (k : string) (v : V) :
  dict_get d k = Some v -> In (k, v) d.
Proof.
  induction d as [|[k' v'] d IH]; simpl; [discriminate|].
  destruct (String.eqb_spec k' k) as [->|Hne].
  - intros H. inversion H. now left.
  - auto.
Qed.

Lemma dict_get_set {V} (d : list (string * V)) (k : string) (v : V) :
  dict_get (dict_set d k v) k = Some v.
Proof.
  induction d as [|[k' v'] d IH]; simpl.
  - now rewrite String.eqb_refl.
  - destruct (String.eqb_spec k' k) as [->|Hne]; simpl.
    + now rewrite String.eqb_refl.
    + now rewrite (proj2 (String.eqb_neq k' k) Hne).
Qed.

Lemma dict_keys_set {V} (d : list (string * V)) (k : string) (v : V) :
  dict_keys (dict_set d k v)
  = if dict_mem d k then dict_keys d else dict_keys d ++ [k].
Proof.
  unfold dict_keys, dict_mem.
  induction d as [|[k' v'] d IH]; simpl; auto.
  destruct (String.eqb_spec k' k) as [->|Hne]; simpl; auto.
  rewrite IH. now destruct (dict_get d k).
Qed.

Lemma In_dict_set {V} (d : list (string * V)) (k : string) (v : V)
    (k' : string) (v' : V) :
  NoDup (dict_keys d) ->
  In (k', v') (dict_set d k v)
  <-> (k' = k /\ v' = v) \/ (k' <> k /\ In (k', v') d).
Proof.
  unfold dict_keys.
  induction d as [|[k0 v0] d IH]; simpl; intros Hnd.
  - split.
    + intros [H|[]]. inversion H. auto.
    + intros [[-> ->]|[_ []]]. now left.
  - inversion Hnd as [|? ? Hnin Hnd']; subst.
    destruct (String.eqb_spec k0 k) as [->|Hne]; simpl.
    + split.
      * intros [H|H]; [inversion H; auto|].
        right. split; auto. intros ->. apply Hnin.
        change k with (fst (k, v')). now apply in_map.
      * intros [[-> ->]|[Hne [H|H]]]; auto. inversion H. congruence.
    + rewrite IH by exact Hnd'. split.
      * intros [H|[H|[H1 H2]]]; auto. inversion H; subst. auto.
      * intros [H|[H1 [H2|H2]]]; auto.
Qed.

Lemma dict_keys_NoDup_set {V} (d : list (string * V)) (k : string) (v : V) :
  NoDup (dict_keys d) -> NoDup (dict_keys (dict_set d k v)).
Proof.
  intros Hnd. rewrite dict_keys_set.
  destruct (dict_mem d k) eqn:E; auto.
  apply NoDup_app; auto.
  - repeat constructor. intros [].
  - intros a Ha [<-|[]]. apply dict_mem_keys in Ha. congruence.
Qed.

(** *** The first pass *)

Section CleanupFacts.

Variable short : string -> string.

Lemma group_step (groups : list (string * list Material)) (seen : list Material)
    (m : Material) :
  groups_of short groups seen ->
  truthy (get_palette_name m) = true ->
  exists groups',
    dict_append
      (if negb (dict_mem groups (short (name m)))
       then dict_set groups (short (name m)) [] else groups)
      (short (name m)) m = Ok groups'
    /\ groups_of short groups' (seen ++ [m]).
Proof.
  intros (Hnd & Hent & Hcov) Hm.
  set (k := short (name m)).
  assert (Hmk : in_group short k m = true).
  { unfold in_group. rewrite Hm. simpl. apply String.eqb_refl. }
  assert (Hmk' : forall k', k' <> k -> in_group short k' m = false).
  { intros k' Hne. unfold in_group. fold k.
    rewrite (proj2 (String.eqb_neq k k')) by congruence.
    apply andb_false_r. }
  destruct (dict_mem groups k) eqn:Emem; simpl.
  - unfold dict_append.
    destruct (dict_get groups k) as [l|] eqn:Eget;
      [|unfold dict_mem in Emem; rewrite Eget in Emem; discriminate].
    eexists. split; [reflexivity|].
    destruct (Hent k l (dict_get_In _ _ _ Eget)) as [Hl _].
    split; [now apply dict_keys_NoDup_set|]. split.
    + intros k' g' Hin. apply In_dict_set in Hin; auto.
      rewrite filter_app. simpl.
      destruct Hin as [[-> ->]|[Hne Hin]].
      * rewrite Hmk, <- Hl. split; auto. now destruct l.
      * rewrite (Hmk' k' Hne), app_nil_r. now apply Hent.
    + intros m' Hm' Ht. rewrite dict_keys_set, Emem.
      apply in_app_or in Hm'. destruct Hm' as [Hm'|[<-|[]]]; auto.
      now apply dict_mem_keys.
  - unfold dict_append. rewrite dict_get_set.
    eexists. split; [reflexivity|].
    assert (Hnd1 : NoDup (dict_keys (dict_set groups k [])))
      by now apply dict_keys_NoDup_set.
    assert (Hnone : filter (in_group short k) seen = []).
    { destruct (filter (in_group short k) seen) as [|x l] eqn:E; auto.
      assert (Hx : In x (filter (in_group short k) seen)) by (rewrite E; now left).
      apply filter_In in Hx. destruct Hx as [Hx Hg].
      unfold in_group in Hg. apply andb_true_iff in Hg. destruct Hg as [Ht Hk].
      apply String.eqb_eq in Hk.
      specialize (Hcov x Hx Ht). rewrite Hk in Hcov.
      apply dict_mem_keys in Hcov. congruence. }
    split; [now apply dict_keys_NoDup_set|]. split.
    + intros k' g' Hin. apply In_dict_set in Hin; auto.
      rewrite filter_app. simpl.
      destruct Hin as [[-> ->]|[Hne Hin]].
      * rewrite Hmk, Hnone. split; [reflexivity|discriminate].
      * apply In_dict_set in Hin; auto.
        destruct Hin as [[-> _]|[_ Hin]]; [congruence|].
        rewrite (Hmk' k' Hne), app_nil_r. now apply Hent.
    + intros m' Hm' Ht. rewrite !dict_keys_set, Emem.
      assert (dict_mem (dict_set groups k []) k = true) as ->.
      { unfold dict_mem. now rewrite dict_get_set. }
      apply in_or_app.
      apply in_app_or in Hm'. destruct Hm' as [Hm'|[<-|[]]]; auto.
      right. now left.
Qed.

Lemma group_by_short_name_from (l : list Material) :
  forall (groups : list (string * list Material)) (seen : list Material),
    groups_of short groups seen ->
    exists groups',
      fold_left
        (fun acc mat =>
           similar_material_candidates <- acc ;;
           let short_name := short (name mat) in
           if negb (truthy (get_palette_name mat))
           then Ok similar_material_candidates
           else
             let similar_material_candidates :=
               if negb (dict_mem similar_material_candidates short_name)
               then dict_set similar_material_candidates short_name []
               else similar_material_candidates in
             dict_append similar_material_candidates short_name mat)
        l (Ok groups) = Ok groups'
      /\ groups_of short groups' (seen ++ l).
Proof.
  induction l as [|m l IH]; intros groups seen Hg; simpl.
  - exists groups. now rewrite app_nil_r.
  - destruct (truthy (get_palette_name m)) eqn:Hm; simpl.
    + destruct (group_step groups seen m Hg Hm) as (groups1 & E & Hg1).
      rewrite E. rewrite app_cons_assoc. now apply IH.
    + rewrite app_cons_assoc. apply IH.
      destruct Hg as (Hnd & Hent & Hcov). split; auto. split.
      * intros k g Hin. rewrite filter_app. simpl.
        unfold in_group at 2. rewrite Hm. simpl. rewrite app_nil_r.
        now apply Hent.
      * intros m' Hm' Ht. apply in_app_or in Hm'.
        destruct Hm' as [Hm'|[<-|[]]]; auto. congruence.
Qed.

Lemma group_by_short_name_spec (l : list Material) :
  exists groups,
    group_by_short_name short l = Ok groups /\ groups_of short groups l.
Proof.
  apply (group_by_short_name_from l [] []).
  split; [constructor|]. split; [intros k g []|intros m []].
Qed.

End CleanupFacts.

(** *** Order in a list *)

Lemma earlier_cons {A} (x : A) (l : list A) (a b : A) :
  earlier (x :: l) a b <-> (a = x /\ In b l) \/ earlier l a b.
Proof.
  unfold earlier. split.
  - intros (l1 & l2 & l3 & E). destruct l1 as [|y l1]; simpl in E.
    + inversion E; subst. left. split; auto.
      apply in_or_app. right. now left.
    + inversion E; subst. right. eauto.
  - intros [[-> Hb]|(l1 & l2 & l3 & ->)].
    + apply in_split in Hb. destruct Hb as (l2 & l3 & ->).
      now exists [], l2, l3.
    + now exists (x :: l1), l2, l3.
Qed.

Lemma earlier_In {A} (l : list A) (a b : A) :
  earlier l a b -> In a l /\ In b l.
Proof.
  intros (l1 & l2 & l3 & ->). split.
  - apply in_or_app. right. now left.
  - apply in_or_app. right. right. apply in_or_app. right. now left.
Qed.

Lemma earlier_total {A} (l : list A) (a b : A) :
  In a l -> In b l -> a = b \/ earlier l a b \/ earlier l b a.
Proof.
  induction l as [|x l IH]; simpl; [tauto|].
  intros [->|Ha] [->|Hb]; auto.
  - right. left. apply earlier_cons. auto.
  - right. right. apply earlier_cons. auto.
  - destruct (IH Ha Hb) as [H|[H|H]]; auto.
    + right. left. apply earlier_cons. auto.
    + right. right. apply earlier_cons. auto.
Qed.

Lemma earlier_filter {A} (P : A -> bool) (l : list A) (a b : A) :
  earlier (filter P l) a b <-> earlier l a b /\ P a = true /\ P b = true.
Proof.
  induction l as [|x l IH]; simpl.
  - split.
    + intros H. apply earlier_In in H. destruct H as [[] _].
    + intros [H _]. apply earlier_In in H. destruct H as [[] _].
  - destruct (P x) eqn:Ex.
    + rewrite !earlier_cons, IH, filter_In. split.
      * intros [[-> [Hb Pb]]|(H & Pa & Pb)]; auto.
      * intros ([[-> Hb]|H] & Pa & Pb); auto.
    + rewrite earlier_cons, IH. split.
      * intros (H & Pa & Pb). auto.
      * intros ([[-> Hb]|H] & Pa & Pb); [congruence|auto].
Qed.

Lemma find_first {A} (P : A -> bool) (l : list A) (a : A) :
  NoDup l -> find P l = Some a ->
  forall a', earlier l a' a -> P a' = false.
Proof.
  induction l as [|x l IH]; simpl; [discriminate|].
  intros Hnd E a' He. inversion Hnd as [|? ? Hnin Hnd']; subst.
  apply earlier_cons in He.
  destruct (P x) eqn:Ex.
  - inversion E; subst. destruct He as [[_ H]|H]; [contradiction|].
    apply earlier_In in H. tauto.
  - destruct He as [[-> _]|H]; [exact Ex|]. now apply IH.
Qed.

Lemma NoDup_ptr_NoDup (l : list Material) :
  NoDup (map as_pointer l) -> NoDup l.
Proof. apply NoDup_map_inv. Qed.

Lemma NoDup_ptr_filter (P : Material -> bool) (l : list Material) :
  NoDup (map as_pointer l) -> NoDup (map as_pointer (filter P l)).
Proof.
  induction l as [|x l IH]; simpl; auto.
  intros Hnd. inversion Hnd as [|? ? Hnin Hnd']; subst.
  destruct (P x); simpl; auto.
  constructor; auto. intros Hin. apply Hnin.
  apply in_map_iff in Hin. destruct Hin as (y & E & Hy).
  apply filter_In in Hy. rewrite <- E. apply in_map. tauto.
Qed.

(** *** What becomes of the slots of one group *)

Lemma dup_ptrs_earlier (g : list Material) (p : mref) :
  In p (dup_ptrs g)
  <-> exists a b, earlier g a b /\ similar a b = true /\ as_pointer b = p.
Proof.
  induction g as [|x g IH]; simpl.
  - split; [intros []|]. intros (a & b & H & _).
    apply earlier_In in H. destruct H as [[] _].
  - rewrite in_app_iff, In_similar_ptrs, IH. split.
    + intros [(b & Hb & Hs & E)|(a & b & He & Hs & E)].
      * exists x, b. rewrite earlier_cons. auto.
      * exists a, b. rewrite earlier_cons. auto.
    + intros (a & b & He & Hs & E). apply earlier_cons in He.
      destruct He as [[-> Hb]|He]; [left|right]; eauto.
Qed.

Lemma dup_ptrs_incl (g : list Material) (p : mref) :
  In p (dup_ptrs g) -> In p (map as_pointer g).
Proof.
  intros H. apply dup_ptrs_earlier in H. destruct H as (a & b & He & _ & <-).
  apply in_map. now apply earlier_In in He.
Qed.

Lemma group_rep_dup (g : list Material) (b a0 : Material) :
  NoDup (map as_pointer g) ->
  earlier g a0 b -> similar a0 b = true ->
  exists a,
    earlier g a b /\ similar a b = true
    /\ (forall a', earlier g a' a -> similar a' a = false)
    /\ group_rep g [] (as_pointer b) = as_pointer a.
Proof.
  intros Hnd He0 Hs0.
  destruct (earlier_In _ _ _ He0) as [Ha0 Hb].
  unfold group_rep. rewrite (find_ptr_In g b Hnd Hb). simpl mat_in. cbv iota.
  destruct (find (fun a => similar a b) g) as [a|] eqn:Ef.
  - assert (Ha := find_some _ _ Ef). destruct Ha as [Ha Hs]. simpl in Hs.
    assert (Hfirst := find_first _ g a (NoDup_ptr_NoDup g Hnd) Ef).
    simpl in Hfirst.
    assert (Hbb : similar b b = true)
      by (apply (similar_trans b a0 b); auto using similar_sym).
    exists a. destruct (earlier_total g a b Ha Hb) as [->|[H|H]].
    + rewrite (Hfirst a0 He0) in Hs0. discriminate.
    + split; [exact H|]. split; [exact Hs|]. split; [|reflexivity].
      intros a' He'.
      destruct (similar a' a) eqn:E; [|reflexivity].
      rewrite <- (Hfirst a' He'). symmetry. now apply (similar_trans a' a b).
    + rewrite (Hfirst b H) in Hbb. discriminate.
  - apply (find_none _ _ Ef) in Ha0. simpl in Ha0. congruence.
Qed.

Lemma group_rep_keep (g : list Material) (b : Material) :
  NoDup (map as_pointer g) -> In b g ->
  (forall a, earlier g a b -> similar a b = false) ->
  group_rep g [] (as_pointer b) = as_pointer b.
Proof.
  intros Hnd Hb Hno.
  unfold group_rep. rewrite (find_ptr_In g b Hnd Hb). simpl mat_in. cbv iota.
  destruct (find (fun a => similar a b) g) as [a|] eqn:Ef; [|reflexivity].
  assert (Ha := find_some _ _ Ef). destruct Ha as [Ha Hs]. simpl in Hs.
  assert (Hfirst := find_first _ g a (NoDup_ptr_NoDup g Hnd) Ef).
  simpl in Hfirst.
  destruct (earlier_total g a b Ha Hb) as [->|[H|H]]; auto.
  - rewrite (Hno a H) in Hs. discriminate.
  - assert (Hbb : similar b b = true)
      by (apply (similar_trans b a b); auto using similar_sym).
    rewrite (Hfirst b H) in Hbb. discriminate.
Qed.

Lemma group_rep_outside (g : list Material) (orphans : list mref) (q : mref) :
  ~ In q (map as_pointer g) -> group_rep g orphans q = q.
Proof.
  intros H. unfold group_rep. now rewrite find_ptr_None.
Qed.

Lemma group_rep_range (g : list Material) (orphans : list mref) (q : mref) :
  In q (map as_pointer g) -> In (group_rep g orphans q) (map as_pointer g).
Proof.
  intros H. unfold group_rep.
  destruct (find _ g) as [b|]; auto.
  destruct (mat_in b orphans); auto.
  destruct (find (fun a => similar a b) g) as [a|] eqn:Ef; auto.
  apply in_map. now apply find_some in Ef.
Qed.

Lemma group_rep_fresh (g : list Material) (orphans : list mref) (q : mref) :
  (forall x, In x g -> ~ In (as_pointer x) orphans) ->
  group_rep g orphans q = group_rep g [] q.
Proof.
  intros H. unfold group_rep.
  destruct (find _ g) as [b|] eqn:E; auto.
  apply find_ptr_Some in E. destruct E as [Hb _].
  simpl mat_in. destruct (mat_in b orphans) eqn:Eo; auto.
  apply mat_in_In in Eo. now elim (H b Hb).
Qed.

(** *** The second pass on all the groups *)

Lemma find_duplicates_in_pure_single (a : Material) (st : remap_state) :
  find_duplicates_in_pure [a] st = st.
Proof. simpl. now destruct (mat_in a (fst st)). Qed.

Lemma find_duplicates_pure_run (d : BlendData.t) (gs : list (list Material)) :
  forall st : remap_state,
    Forall (Forall (fun m => is_grease_pencil m = true)) gs ->
    find_duplicates gs (fst st, remapped (snd st) d)
    = Ok (fst (find_duplicates_pure gs st),
          remapped (snd (find_duplicates_pure gs st)) d).
Proof.
  unfold find_duplicates, find_duplicates_pure.
  induction gs as [|g gs IH]; intros st Hall; simpl.
  - reflexivity.
  - inversion Hall as [|? ? Hg Hall']; subst.
    destruct (length g =? 1)%nat eqn:E.
    + apply Nat.eqb_eq in E.
      destruct g as [|a [|b g]]; try discriminate.
      rewrite find_duplicates_in_pure_single.
      destruct st as [o f]. exact (IH (o, f) Hall').
    + rewrite (find_duplicates_in_pure_run d g st Hg).
      exact (IH (find_duplicates_in_pure g st) Hall').
Qed.

Lemma find_duplicates_pure_spec (gs : list (list Material)) :
  forall st : remap_state,
    NoDup (map as_pointer (concat gs)) ->
    (forall g x, In g gs -> In x g -> ~ In (as_pointer x) (fst st)) ->
    (forall p, In p (fst (find_duplicates_pure gs st))
               <-> In p (fst st) \/ exists g, In g gs /\ In p (dup_ptrs g))
    /\ (forall p, snd (find_duplicates_pure gs st) p = groups_rep gs (snd st p)).
Proof.
  unfold find_duplicates_pure, groups_rep.
  induction gs as [|g gs IH]; intros st Hnd Hfresh; simpl.
  - split; [|reflexivity]. intros p. split; auto.
    intros [H|(g & [] & _)]. exact H.
  - simpl in Hnd. rewrite map_app in Hnd.
    assert (Hg : NoDup (map as_pointer g)) by now apply NoDup_app_remove_r in Hnd.
    assert (Hgs : NoDup (map as_pointer (concat gs)))
      by now apply NoDup_app_remove_l in Hnd.
    assert (Hcl : closed_in g (fst st)).
    { intros x y Hx _ _ Hin. elim (Hfresh g x); simpl; auto. }
    destruct (find_duplicates_in_pure_spec g st Hg Hcl) as [HO Hf].
    destruct (IH (find_duplicates_in_pure g st) Hgs) as [HO' Hf'].
    { intros g' x Hg' Hx Hin. apply HO in Hin. destruct Hin as [Hin|Hin].
      - elim (Hfresh g' x); simpl; auto.
      - apply dup_ptrs_incl in Hin.
        apply (NoDup_app_disjoint _ _ _ Hnd Hin).
        apply in_map. apply in_concat. eauto. }
    split.
    + intros p. rewrite HO', HO. split.
      * intros [[H|H]|(g' & Hg' & H)]; eauto.
      * intros [H|(g' & [<-|Hg'] & H)]; eauto.
    + intros p. rewrite Hf', Hf. f_equal. apply group_rep_fresh.
      intros x Hx. apply (Hfresh g x); simpl; auto.
Qed.

Lemma groups_rep_outside (gs : list (list Material)) :
  forall q, ~ In q (map as_pointer (concat gs)) -> groups_rep gs q = q.
Proof.
  unfold groups_rep.
  induction gs as [|g gs IH]; intros q Hq; simpl; auto.
  simpl in Hq. rewrite map_app, in_app_iff in Hq.
  rewrite group_rep_outside by tauto. apply IH. tauto.
Qed.

Lemma groups_rep_inside (gs : list (list Material)) :
  forall (g : list Material) (q : mref),
    NoDup (map as_pointer (concat gs)) ->
    In g gs -> In q (map as_pointer g) ->
    groups_rep gs q = group_rep g [] q.
Proof.
  induction gs as [|g0 gs IH]; intros g q Hnd Hg Hq; [destruct Hg|].
  simpl in Hnd. rewrite map_app in Hnd.
  change (groups_rep (g0 :: gs) q) with (groups_rep gs (group_rep g0 [] q)).
  destruct Hg as [->|Hg].
  - apply groups_rep_outside.
    apply (NoDup_app_disjoint _ _ _ Hnd). now apply group_rep_range.
  - assert (Hq0 : ~ In q (map as_pointer g0)).
    { intros H. apply (NoDup_app_disjoint _ _ _ Hnd H).
      apply in_map_iff in Hq. destruct Hq as (x & <- & Hx).
      apply in_map. apply in_concat. eauto. }
    rewrite (group_rep_outside g0 [] q Hq0).
    apply IH; auto. now apply NoDup_app_remove_l in Hnd.
Qed.

Section CleanupGroups.

Variable short : string -> string.

(** The groups of the first pass do not share a material. *)
Lemma groups_disjoint (groups : list (string * list Material))
    (seen : list Material) :
  NoDup (dict_keys groups) ->
  (forall k g, In (k, g) groups -> g = filter (in_group short k) seen) ->
  NoDup (map as_pointer seen) ->
  NoDup (map as_pointer (concat (dict_values groups))).
Proof.
  unfold dict_keys, dict_values.
  induction groups as [|[k g] groups IH]; simpl; intros Hnd Hent Hseen.
  - constructor.
  - inversion Hnd as [|? ? Hnin Hnd']; subst.
    rewrite map_app. apply NoDup_app.
    + rewrite (Hent k g) by auto. now apply NoDup_ptr_filter.
    + apply IH; auto.
    + intros p Hp Hp'.
      apply in_map_iff in Hp. destruct Hp as (x & <- & Hx).
      apply in_map_iff in Hp'. destruct Hp' as (y & E & Hy).
      apply in_concat in Hy. destruct Hy as (g' & Hg' & Hy).
      apply in_map_iff in Hg'. destruct Hg' as ([k' g''] & E' & Hkg).
      simpl in E'. subst g''.
      rewrite (Hent k g) in Hx by auto.
      rewrite (Hent k' g') in Hy by auto.
      apply filter_In in Hx, Hy. destruct Hx as [Hx Gx], Hy as [Hy Gy].
      assert (y = x) by (apply (ptr_injective seen); auto). subst y.
      unfold in_group in Gx, Gy.
      apply andb_true_iff in Gx, Gy. destruct Gx as [_ Gx], Gy as [_ Gy].
      apply String.eqb_eq in Gx, Gy.
      apply Hnin. rewrite <- Gx, Gy.
      change k' with (fst (k', g')). now apply in_map.
Qed.

End CleanupGroups.

(** *** The whole cleanup *)

Lemma remapped_id (d : BlendData.t) : remapped (fun p => p) d = d.
Proof.
  destruct d as [mats gps]. unfold remapped. simpl. f_equal.
  rewrite <- (map_id gps) at 2. apply map_ext. intros [l a fs ms ps].
  unfold map_slots. simpl. f_equal.
  rewrite <- (map_id ms) at 2. apply map_ext. now intros [p|].
Qed.

Lemma considered_local (mat : Material) :
  considered mat
  = (is_grease_pencil mat
     && (negb (match library mat with Some _ => true | None => false end)
         || negb true))
    && truthy (get_palette_name mat).
Proof. unfold considered. simpl. now rewrite orb_false_r. Qed.

Section CleanupTheorem.

Variable short : string -> string.
Variable d : BlendData.t.

Let mats := BlendData.materials d.
Let cons := get_grease_pencil_materials d true.

Hypothesis pointers_distinct : NoDup (map as_pointer mats).

Variable groups : list (string * list Material).
Hypothesis groups_spec : groups_of short groups cons.

Let gs := dict_values groups.

Lemma group_entry (g : list Material) :
  In g gs -> exists k, In (k, g) groups.
Proof.
  intros H. apply in_map_iff in H. destruct H as ([k g'] & E & H).
  simpl in E. subst. eauto.
Qed.

Lemma group_earlier (k : string) (g : list Material) (a b : Material) :
  In (k, g) groups ->
  earlier g a b
  <-> earlier mats a b /\ considered a = true /\ considered b = true
      /\ short (name a) = k /\ short (name b) = k.
Proof.
  intros Hkg. destruct groups_spec as (_ & Hent & _).
  destruct (Hent k g Hkg) as [-> _].
  unfold cons, get_grease_pencil_materials. fold mats.
  rewrite !earlier_filter, !considered_local. unfold in_group.
  rewrite !andb_true_iff, !String.eqb_eq. tauto.
Qed.

Lemma group_pointers (k : string) (g : list Material) :
  In (k, g) groups -> NoDup (map as_pointer g).
Proof.
  intros Hkg. destruct groups_spec as (_ & Hent & _).
  destruct (Hent k g Hkg) as [-> _].
  unfold cons, get_grease_pencil_materials. fold mats.
  now do 2 apply NoDup_ptr_filter.
Qed.

Lemma groups_pointers : NoDup (map as_pointer (concat gs)).
Proof.
  destruct groups_spec as (Hnd & Hent & _).
  apply (groups_disjoint short groups cons); auto.
  - intros k g H. now apply Hent.
  - unfold cons, get_grease_pencil_materials. now apply NoDup_ptr_filter.
Qed.

Lemma groups_grease_pencil :
  Forall (Forall (fun m => is_grease_pencil m = true)) gs.
Proof.
  apply Forall_forall. intros g Hg. apply Forall_forall. intros m Hm.
  destruct (group_entry g Hg) as [k Hkg].
  destruct groups_spec as (_ & Hent & _).
  destruct (Hent k g Hkg) as [E _]. rewrite E in Hm.
  apply filter_In in Hm. destruct Hm as [Hm _].
  unfold cons, get_grease_pencil_materials in Hm.
  apply filter_In in Hm. destruct Hm as [_ Hm].
  now apply andb_true_iff in Hm.
Qed.

(** The group of a considered material. *)
Lemma group_of (b : Material) :
  In b mats -> considered b = true ->
  exists g, In (short (name b), g) groups /\ In b g.
Proof.
  intros Hb Hc. destruct groups_spec as (_ & Hent & Hcov).
  rewrite considered_local in Hc. apply andb_true_iff in Hc.
  destruct Hc as [Hloc Ht].
  assert (Hcons : In b cons).
  { unfold cons, get_grease_pencil_materials. apply filter_In. auto. }
  specialize (Hcov b Hcons Ht).
  apply in_map_iff in Hcov. destruct Hcov as ([k g] & E & Hkg).
  simpl in E. subst k. exists g. split; auto.
  destruct (Hent _ g Hkg) as [-> _]. apply filter_In. split; auto.
  unfold in_group. rewrite Ht. simpl. apply String.eqb_refl.
Qed.

Let final := find_duplicates_pure gs ([], fun p => p).

Lemma final_orphans (p : mref) :
  In p (fst final)
  <-> exists a b, duplicates short mats a b /\ as_pointer b = p.
Proof.
  destruct (find_duplicates_pure_spec gs ([], fun p => p) groups_pointers)
    as [HO _]; [intros g x _ _ []|].
  fold final in HO. rewrite HO. simpl. split.
  - intros [[]|(g & Hg & Hp)].
    destruct (group_entry g Hg) as [k Hkg].
    apply dup_ptrs_earlier in Hp. destruct Hp as (a & b & He & Hs & E).
    apply (group_earlier k g a b Hkg) in He.
    exists a, b. unfold duplicates. intuition congruence.
  - intros (a & b & (He & Ca & Cb & Hk & Hs) & E). right.
    destruct (earlier_In _ _ _ He) as [_ Hb].
    destruct (group_of b Hb Cb) as (g & Hkg & Hbg).
    exists g. split; [apply in_map_iff; exists (short (name b), g); auto|].
    apply dup_ptrs_earlier. exists a, b. split; auto.
    apply (group_earlier _ g a b Hkg). auto.
Qed.

Lemma final_users_duplicate (a0 b : Material) :
  duplicates short mats a0 b ->
  exists a,
    duplicates short mats a b
    /\ ~ In (as_pointer a) (fst final)
    /\ snd final (as_pointer b) = as_pointer a.
Proof.
  intros (He & Ca & Cb & Hk & Hs).
  destruct (find_duplicates_pure_spec gs ([], fun p => p) groups_pointers)
    as [_ HF]; [intros g x _ _ []|].
  fold final in HF. simpl in HF.
  destruct (earlier_In _ _ _ He) as [_ Hb].
  destruct (group_of b Hb Cb) as (g & Hkg & Hbg).
  assert (Hg : In g gs)
    by (apply in_map_iff; exists (short (name b), g); auto).
  assert (Heg : earlier g a0 b) by (apply (group_earlier _ g a0 b Hkg); auto).
  destruct (group_rep_dup g b a0 (group_pointers _ g Hkg) Heg Hs)
    as (a & Hea & Hsa & Hfirst & Hrep).
  apply (group_earlier _ g a b Hkg) in Hea.
  destruct Hea as (Hea & Ca' & _ & Hka & _).
  exists a. split; [unfold duplicates; auto|]. split.
  - intros Hin. apply final_orphans in Hin.
    destruct Hin as (a' & a'' & (He' & Ca2 & Ca3 & Hk' & Hs') & E).
    assert (a'' = a).
    { apply (ptr_injective mats); auto.
      - now apply earlier_In in He'.
      - now apply earlier_In in Hea. }
    subst a''.
    assert (earlier g a' a)
      by (apply (group_earlier _ g a' a Hkg); intuition congruence).
    rewrite (Hfirst a' H) in Hs'. discriminate.
  - rewrite HF, <- Hrep.
    apply groups_rep_inside; auto using groups_pointers. now apply in_map.
Qed.

Lemma final_users_other (p : mref) :
  ~ In p (fst final) -> snd final p = p.
Proof.
  intros Hp.
  destruct (find_duplicates_pure_spec gs ([], fun p => p) groups_pointers)
    as [_ HF]; [intros g x _ _ []|].
  fold final in HF. simpl in HF. rewrite HF.
  destruct (in_dec Nat.eq_dec p (map as_pointer (concat gs))) as [Hin|Hnin];
    [|now apply groups_rep_outside].
  apply in_map_iff in Hin. destruct Hin as (b & <- & Hb).
  apply in_concat in Hb. destruct Hb as (g & Hg & Hb).
  destruct (group_entry g Hg) as [k Hkg].
  rewrite (groups_rep_inside gs g) by (auto using groups_pointers, in_map).
  apply group_rep_keep; [exact (group_pointers k g Hkg)|exact Hb|].
  intros a He. destruct (similar a b) eqn:Hs; [|reflexivity].
  elim Hp. apply final_orphans. exists a, b. split; auto.
  apply (group_earlier k g a b Hkg) in He. unfold duplicates.
  intuition congruence.
Qed.

Lemma final_users_kept (p : mref) : ~ In (snd final p) (fst final).
Proof.
  destruct (in_dec Nat.eq_dec p (fst final)) as [Hin|Hnin].
  - apply final_orphans in Hin. destruct Hin as (a0 & b & Hd & <-).
    destruct (final_users_duplicate a0 b Hd) as (a & _ & Ha & ->). exact Ha.
  - now rewrite final_users_other.
Qed.

End CleanupTheorem.

Lemma clear_slot_kept (orphans : list mref) (f : mref -> mref)
    (gps : list GreasePencil) :
  (forall p, ~ In (f p) orphans) ->
  map (map_slots (clear_slot orphans)) (map (map_slots (option_map f)) gps)
  = map (map_slots (option_map f)) gps.
Proof.
  intros Hkept. rewrite map_map. apply map_ext. intros gp.
  unfold map_slots. simpl. f_equal.
  rewrite map_map. apply map_ext. intros [p|]; simpl; [|reflexivity].
  destruct (existsb (Nat.eqb (f p)) orphans) eqn:E; [|reflexivity].
  apply existsb_exists in E. destruct E as (q & Hq & E).
  apply Nat.eqb_eq in E. subst q. now elim (Hkept p).
Qed.

(** The cleanup returns; it removes exactly the considered materials that
    are similar to an earlier considered material of the same short name,
    keeps the others in their order, turns every use of a removed material
    into a use of a kept, earlier, similar material of its group, and
    leaves every other use as it was. *)
Lemma cleanup_duplicated_materials_spec (short : string -> string)
    (d : BlendData.t) :
  NoDup (map as_pointer (BlendData.materials d)) ->
  exists (d' : BlendData.t) (orphans : list mref) (users : mref -> mref),
    cleanup_duplicated_materials short d = Ok d'
    /\ BlendData.materials d'
       = filter (fun m => negb (mat_in m orphans)) (BlendData.materials d)
    /\ BlendData.grease_pencils d'
       = map (map_slots (option_map users)) (BlendData.grease_pencils d)
    /\ (forall p, In p orphans
                  <-> exists a b, duplicates short (BlendData.materials d) a b
                                  /\ as_pointer b = p)
    /\ (forall a0 b, duplicates short (BlendData.materials d) a0 b ->
          exists a, duplicates short (BlendData.materials d) a b
                    /\ In a (BlendData.materials d')
                    /\ users (as_pointer b) = as_pointer a)
    /\ (forall p, ~ In p orphans -> users p = p)
    /\ (forall a b, earlier (BlendData.materials d') a b ->
          considered a = true -> considered b = true ->
          short (name a) = short (name b) -> similar a b = false).
Proof.
  intros Hnd.
  destruct (group_by_short_name_spec short (get_grease_pencil_materials d true))
    as (groups & Eg & Hg).
  set (final := find_duplicates_pure (dict_values groups) ([], fun p => p)).
  assert (HO := final_orphans short d Hnd groups Hg). fold final in HO.
  assert (HD := final_users_duplicate short d Hnd groups Hg). fold final in HD.
  assert (HU := final_users_other short d Hnd groups Hg). fold final in HU.
  assert (HK := final_users_kept short d Hnd groups Hg). fold final in HK.
  exists (batch_remove (fst final) (remapped (snd final) d)),
         (fst final), (snd final).
  split.
  { assert (Hrun := find_duplicates_pure_run d (dict_values groups)
                      ([], fun p => p)
                      (groups_grease_pencil short d groups Hg)).
    fold final in Hrun. simpl fst in Hrun at 1. simpl snd in Hrun at 1.
    rewrite remapped_id in Hrun.
    unfold cleanup_duplicated_materials. rewrite Eg. unfold bind.
    rewrite Hrun. reflexivity. }
  split; [reflexivity|].
  split; [unfold batch_remove, remapped; simpl; now apply clear_slot_kept|].
  split; [exact HO|].
  split.
  { intros a0 b Hd. destruct (HD a0 b Hd) as (a & Hda & Ha & E).
    exists a. split; auto. split; auto.
    simpl. apply filter_In. split.
    - destruct Hda as (He & _). now apply earlier_In in He.
    - destruct (mat_in a (fst final)) eqn:Em; auto.
      apply mat_in_In in Em. contradiction. }
  split; [exact HU|].
  intros a b He Ca Cb Hk. simpl in He. apply earlier_filter in He.
  destruct He as (He & _ & Hb).
  destruct (similar a b) eqn:Hs; auto.
  assert (In (as_pointer b) (fst final)).
  { apply HO. exists a, b. split; [|reflexivity]. unfold duplicates. tauto. }
  apply mat_in_In in H. rewrite H in Hb. discriminate.
Qed.

(** X4.  When material datablocks have distinct identities, the cleanup
    returns.  It removes exactly the considered materials (local grease
    pencil materials with a palette in their name) that are similar to an
    earlier considered material of the same short name, and keeps the other
    materials in their order.  Every use of a removed material has become a
    use of a kept, earlier, similar material of the same short name; every
    other use is as it was.  No two considered materials that remain and
    share a short name are similar. *)
Theorem cleanup_duplicated_materials_correct (short : string -> string)
    (d : BlendData.t) :
  NoDup (map as_pointer (BlendData.materials d)) ->
  exists (d' : BlendData.t) (orphans : list mref) (users : mref -> mref),
    cleanup_duplicated_materials short d = Ok d'
    /\ BlendData.materials d'
       = filter (fun m => negb (mat_in m orphans)) (BlendData.materials d)
    /\ BlendData.grease_pencils d'
       = map (map_slots (option_map users)) (BlendData.grease_pencils d)
    /\ (forall p, In p orphans
                  <-> exists a b, duplicates short (BlendData.materials d) a b
                                  /\ as_pointer b = p)
    /\ (forall a0 b, duplicates short (BlendData.materials d) a0 b ->
          exists a, duplicates short (BlendData.materials d) a b
                    /\ In a (BlendData.materials d')
                    /\ users (as_pointer b) = as_pointer a)
    /\ (forall p, ~ In p orphans -> users p = p)
    /\ (forall a b, earlier (BlendData.materials d') a b ->
          considered a = true -> considered b = true ->
          short (name a) = short (name b) -> similar a b = false).
Proof. exact (cleanup_duplicated_materials_spec short d). Qed.

Lemma fixture_data_pointers :
  NoDup (map as_pointer (BlendData.materials fixture_data)).
Proof.
  simpl. repeat (constructor; [simpl; intuition discriminate|]). constructor.
Defined.

Lemma cleanup_duplicated_materials_correct_witness :
  exists (d' : BlendData.t) (orphans : list mref) (users : mref -> mref),
    cleanup_duplicated_materials fixture_short fixture_data = Ok d'
    /\ BlendData.materials d'
       = filter (fun m => negb (mat_in m orphans))
           (BlendData.materials fixture_data)
    /\ BlendData.grease_pencils d'
       = map (map_slots (option_map users))
           (BlendData.grease_pencils fixture_data)
    /\ (forall p, In p orphans
                  <-> exists a b,
                        duplicates fixture_short
                          (BlendData.materials fixture_data) a b
                        /\ as_pointer b = p)
    /\ (forall a0 b,
          duplicates fixture_short (BlendData.materials fixture_data) a0 b ->
          exists a,
            duplicates fixture_short (BlendData.materials fixture_data) a b
            /\ In a (BlendData.materials d')
            /\ users (as_pointer b) = as_pointer a)
    /\ (forall p, ~ In p orphans -> users p = p)
    /\ (forall a b, earlier (BlendData.materials d') a b ->
          considered a = true -> considered b = true ->
          fixture_short (name a) = fixture_short (name b) ->
          similar a b = false).
Proof.
  apply (cleanup_duplicated_materials_correct fixture_short fixture_data).
  exact fixture_data_pointers.
Defined.

(** The cleanup of the fixture: the identical copy is removed and its slot
    uses the original; the red copy stays. *)
Example test_palette_cleanup_fixture :
  cleanup_duplicated_materials fixture_short fixture_data
  = Ok fixture_data_clean.
Proof. vm_compute. reflexivity. Qed.

Lemma cleanup_duplicated_materials_unchanged (short : string -> string)
    (d : BlendData.t) :
  NoDup (map as_pointer (BlendData.materials d)) ->
  (forall a b, ~ duplicates short (BlendData.materials d) a b) ->
  cleanup_duplicated_materials short d = Ok d.
Proof.
  intros Hnd Hno.
  destruct (cleanup_duplicated_materials_spec short d Hnd)
    as (d' & orphans & users & E & Hm & Hg & HO & _ & HU & _).
  rewrite E. f_equal.
  assert (HOn : forall p, ~ In p orphans).
  { intros p Hp. apply HO in Hp. destruct Hp as (a & b & Hd & _).
    exact (Hno a b Hd). }
  destruct d as [mats gps], d' as [mats' gps']. simpl in Hm, Hg. subst.
  f_equal.
  - apply filter_all. intros m _.
    destruct (mat_in m orphans) eqn:Em; [|reflexivity].
    apply mat_in_In in Em. now elim (HOn (as_pointer m)).
  - rewrite <- (map_id gps) at 2. apply map_ext. intros [l a fs ms ps].
    unfold map_slots. simpl. f_equal.
    rewrite <- (map_id ms) at 2. apply map_ext. intros [p|]; simpl; [|reflexivity].
    now rewrite (HU p (HOn p)).
Qed.

(** X5.  When no considered material is similar to an earlier considered
    material of the same short name, the cleanup leaves the materials and
    every material slot as they are.  So the cleanup is idempotent:
    cleaning what a cleanup gave changes nothing. *)
Theorem cleanup_duplicated_materials_idempotent (short : string -> string)
    (d : BlendData.t) :
  NoDup (map as_pointer (BlendData.materials d)) ->
  ((forall a b, ~ duplicates short (BlendData.materials d) a b) ->
   cleanup_duplicated_materials short d = Ok d)
  /\ forall d',
       cleanup_duplicated_materials short d = Ok d' ->
       cleanup_duplicated_materials short d' = Ok d'.
Proof.
  intros Hnd. split; [now apply cleanup_duplicated_materials_unchanged|].
  intros d' E.
  destruct (cleanup_duplicated_materials_spec short d Hnd)
    as (d'' & orphans & users & E' & Hm & _ & _ & _ & _ & Hsim).
  rewrite E in E'. inversion E'; subst d''.
  apply cleanup_duplicated_materials_unchanged.
  - rewrite Hm. now apply NoDup_ptr_filter.
  - intros a b (He & Ca & Cb & Hk & Hs).
    rewrite (Hsim a b He Ca Cb Hk) in Hs. discriminate.
Qed.

Lemma cleanup_duplicated_materials_idempotent_witness :
  cleanup_duplicated_materials fixture_short fixture_data_clean
  = Ok fixture_data_clean.
Proof.
  apply (proj2 (cleanup_duplicated_materials_idempotent fixture_short
                  fixture_data fixture_data_pointers) fixture_data_clean).
  vm_compute. reflexivity.
Defined.

(** ** Similarity as a relation *)

(** X2.  Similarity is symmetric and transitive: when the comparison of
    [a] with [b] gives [True], so does that of [b] with [a], and so does
    that of [a] with any [c] that [b] is similar to. *)
Theorem are_similar_gp_materials_partial_equivalence (a b c : Material) :
  are_similar_gp_materials a b = Ok true ->
  are_similar_gp_materials b a = Ok true
  /\ (are_similar_gp_materials b c = Ok true ->
      are_similar_gp_materials a c = Ok true).
Proof.
  rewrite <- !similar_true_iff. intros Hab. split.
  - now apply similar_sym.
  - intros Hbc. now apply (similar_trans a b c).
Qed.

Lemma are_similar_gp_materials_partial_equivalence_witness :
  are_similar_gp_materials (fixture_material 2%nat "A/MatA.001" black)
    (fixture_material 1%nat "A/MatA" black) = Ok true
  /\ (are_similar_gp_materials (fixture_material 2%nat "A/MatA.001" black)
        (fixture_material 3%nat "B/MatB" black) = Ok true ->
      are_similar_gp_materials (fixture_material 1%nat "A/MatA" black)
        (fixture_material 3%nat "B/MatB" black) = Ok true).
Proof.
  apply (are_similar_gp_materials_partial_equivalence
           (fixture_material 1%nat "A/MatA" black)
           (fixture_material 2%nat "A/MatA.001" black)
           (fixture_material 3%nat "B/MatB" black)).
  reflexivity.
Defined.

Lemma SFeqb_refl_iff (x : spec_float) : SFeqb x x = true <-> x <> S754_nan.
Proof.
  rewrite SFeqb_true_iff. destruct x; split; try congruence; try tauto.
Qed.

Lemma array_eq_refl_iff (a : list spec_float) : array_eq a a <-> no_nan a.
Proof.
  unfold array_eq, no_nan. induction a as [|x a IH].
  - split; constructor.
  - split; intros H; inversion H; subst; constructor;
      try (now apply SFeqb_refl_iff); now apply IH.
Qed.

(** X3.  The comparison is not reflexive: a material is similar to itself
    exactly when it is a grease pencil material whose stroke colour and fill
    colour hold no NaN. *)
Theorem are_similar_gp_materials_reflexive (a : Material) :
  are_similar_gp_materials a a = Ok true
  <-> exists s, grease_pencil a = Some s
                /\ no_nan (color s) /\ no_nan (fill_color s).
Proof.
  rewrite <- similar_true_iff, similar_styles. split.
  - intros (sa & sb & Ha & Hb & Hs). rewrite Ha in Hb. inversion Hb; subst sb.
    exists sa. split; [exact Ha|].
    destruct Hs as (_ & _ & _ & Hc & _ & _ & _ & _ & Hf & _).
    split; now apply array_eq_refl_iff.
  - intros (s & Ha & Hc & Hf). exists s, s.
    split; [exact Ha|]. split; [exact Ha|].
    apply array_eq_refl_iff in Hc, Hf.
    unfold same_compared_values. tauto.
Qed.

(** ** Material names *)

Lemma split_once_spec (sep : ascii) (s : string) :
  match split_once sep s with
  | Some (a, b) =>
      s = (a ++ String sep b)%string /\ ~ In sep (list_ascii_of_string a)
  | None => ~ In sep (list_ascii_of_string s)
  end.
Proof.
  induction s as [|c s IH]; simpl.
  - tauto.
  - destruct (Ascii.eqb_spec c sep) as [->|Hne].
    + simpl. tauto.
    + destruct (split_once sep s) as [[a b]|].
      * destruct IH as [-> Hn]. simpl. split; [reflexivity|].
        intros [H|H]; [now elim Hne|contradiction].
      * simpl. intros [H|H]; [now elim Hne|contradiction].
Qed.

(** X7.  A material name with a separator is its palette name, the
    separator and its basename, and the palette name has no separator: the
    split is at the first one.  A name without separator has no palette
    name and is its own basename. *)
Theorem material_name_split (m : Material) :
  match get_palette_name m with
  | Some palette =>
      name m = (palette ++ String PALETTE_NAME_SEPARATOR
                             (get_material_basename m))%string
      /\ ~ has_separator palette
  | None => get_material_basename m = name m /\ ~ has_separator (name m)
  end.
Proof.
  unfold get_palette_name, get_material_basename, split_material_name,
    has_separator.
  assert (H := split_once_spec PALETTE_NAME_SEPARATOR (name m)).
  destruct (split_once PALETTE_NAME_SEPARATOR (name m)) as [[a b]|]; simpl.
  - exact H.
  - split; [reflexivity|exact H].
Qed.

(** ** The material palettes registry *)

Lemma registered_palette_Some (m : Material) (k : string) :
  registered_palette m = Some k
  <-> get_palette_name m = Some k /\ k <> EmptyString
      /\ k <> DEFAULT_PALETTE_ID.
Proof.
  unfold registered_palette.
  destruct (get_palette_name m) as [p|]; [|split; [discriminate|now intros [? _]]].
  destruct (String.eqb_spec p EmptyString) as [->|He]; simpl.
  - split; [discriminate|]. intros (H & Hne & _). inversion H; congruence.
  - destruct (String.eqb_spec p DEFAULT_PALETTE_ID) as [->|Hd].
    + split; [discriminate|]. intros (H & _ & Hne). inversion H; congruence.
    + split.
      * intros H. inversion H; subst. auto.
      * intros (H & _). exact H.
Qed.

Lemma registered_palette_None (m : Material) :
  registered_palette m = None
  <-> truthy (get_palette_name m) = false
      \/ get_palette_name m = Some DEFAULT_PALETTE_ID.
Proof.
  unfold registered_palette, truthy.
  destruct (get_palette_name m) as [p|]; [|tauto].
  destruct (String.eqb_spec p EmptyString) as [->|He]; simpl; [tauto|].
  destruct (String.eqb_spec p DEFAULT_PALETTE_ID) as [->|Hd]; [tauto|].
  split; [discriminate|]. intros [H|H]; [discriminate|]. now inversion H.
Qed.

Lemma hd_error_dict_set {V} (d : list (string * V)) (k0 k : string) (v0 v : V) :
  k0 <> k -> hd_error d = Some (k0, v0) ->
  hd_error (dict_set d k v) = Some (k0, v0).
Proof.
  intros Hne. destruct d as [|[k1 v1] d]; simpl; [discriminate|].
  intros H. inversion H; subst.
  now rewrite (proj2 (String.eqb_neq k0 k) Hne).
Qed.

Lemma palettes_of_skip (reg : MaterialPalettesRegistry) (seen : list Material)
    (m : Material) :
  palettes_of reg seen -> registered_palette m = None ->
  palettes_of reg (seen ++ [m]).
Proof.
  intros (Hnd & Hhd & Hent & Hcov) Hm.
  split; [exact Hnd|]. split; [exact Hhd|]. split.
  - intros k mats Hin. rewrite filter_app. simpl.
    unfold in_palette at 2. rewrite Hm, app_nil_r. now apply Hent.
  - intros m' k Hm' Hk. apply in_app_or in Hm'.
    destruct Hm' as [Hm'|[<-|[]]]; [now apply (Hcov m')|congruence].
Qed.

Lemma palettes_of_step (reg : MaterialPalettesRegistry) (seen : list Material)
    (m : Material) (k : string) :
  palettes_of reg seen -> registered_palette m = Some k ->
  exists reg',
    dict_append (if negb (dict_mem reg k) then dict_set reg k [] else reg) k m
    = Ok reg'
    /\ palettes_of reg' (seen ++ [m]).
Proof.
  intros (Hnd & Hhd & Hent & Hcov) Hm.
  assert (Hkd : k <> DEFAULT_PALETTE_ID)
    by (apply registered_palette_Some in Hm; tauto).
  assert (Hmk : in_palette k m = true).
  { unfold in_palette. rewrite Hm. apply String.eqb_refl. }
  assert (Hmk' : forall k', k' <> k -> in_palette k' m = false).
  { intros k' Hne. unfold in_palette. rewrite Hm.
    apply String.eqb_neq. congruence. }
  destruct (dict_mem reg k) eqn:Emem; simpl.
  - unfold dict_append.
    destruct (dict_get reg k) as [l|] eqn:Eget;
      [|unfold dict_mem in Emem; rewrite Eget in Emem; discriminate].
    eexists. split; [reflexivity|].
    destruct (Hent k l (dict_get_In _ _ _ Eget)) as [Hl _].
    split; [now apply dict_keys_NoDup_set|].
    split; [apply hd_error_dict_set; [congruence|exact Hhd]|]. split.
    + intros k' g' Hin. apply In_dict_set in Hin; [|exact Hnd].
      rewrite filter_app. simpl.
      destruct Hin as [[-> ->]|[Hne Hin]].
      * rewrite Hmk, <- Hl. split; [reflexivity|]. intros _. now destruct l.
      * rewrite (Hmk' k' Hne), app_nil_r. now apply Hent.
    + intros m' k' Hm' Hk'. rewrite dict_keys_set, Emem.
      apply in_app_or in Hm'. destruct Hm' as [Hm'|[<-|[]]].
      * now apply (Hcov m').
      * rewrite Hm in Hk'. inversion Hk'; subst k'. now apply dict_mem_keys.
  - unfold dict_append. rewrite dict_get_set.
    eexists. split; [reflexivity|].
    assert (Hnd1 : NoDup (dict_keys (dict_set reg k [])))
      by now apply dict_keys_NoDup_set.
    assert (Hhd1 : hd_error (dict_set reg k []) = Some (DEFAULT_PALETTE_ID, []))
      by (apply hd_error_dict_set; [congruence|exact Hhd]).
    assert (Hnone : filter (in_palette k) seen = []).
    { destruct (filter (in_palette k) seen) as [|x l] eqn:E; [reflexivity|].
      assert (Hx : In x (filter (in_palette k) seen)) by (rewrite E; now left).
      apply filter_In in Hx. destruct Hx as [Hx Hg].
      unfold in_palette in Hg.
      destruct (registered_palette x) as [p|] eqn:Ex; [|discriminate].
      apply String.eqb_eq in Hg. subst p.
      specialize (Hcov x k Hx Ex).
      apply dict_mem_keys in Hcov. congruence. }
    split; [now apply dict_keys_NoDup_set|].
    split; [apply hd_error_dict_set; [congruence|exact Hhd1]|]. split.
    + intros k' g' Hin. apply In_dict_set in Hin; [|exact Hnd1].
      rewrite filter_app. simpl.
      destruct Hin as [[-> ->]|[Hne Hin]].
      * rewrite Hmk, Hnone. split; [reflexivity|discriminate].
      * apply In_dict_set in Hin; [|exact Hnd].
        destruct Hin as [[-> _]|[_ Hin]]; [congruence|].
        rewrite (Hmk' k' Hne), app_nil_r. now apply Hent.
    + intros m' k' Hm' Hk'. rewrite !dict_keys_set, Emem.
      assert (dict_mem (dict_set reg k []) k = true) as ->.
      { unfold dict_mem. now rewrite dict_get_set. }
      apply in_or_app.
      apply in_app_or in Hm'. destruct Hm' as [Hm'|[<-|[]]].
      * left. now apply (Hcov m').
      * rewrite Hm in Hk'. inversion Hk'; subst k'. right. now left.
Qed.

Lemma fill_palettes_from (l : list Material) :
  forall (reg : MaterialPalettesRegistry) (seen : list Material),
    palettes_of reg seen ->
    exists reg', fill_palettes l reg = Ok reg' /\ palettes_of reg' (seen ++ l).
Proof.
  unfold fill_palettes.
  induction l as [|m l IH]; intros reg seen Hreg; simpl.
  - exists reg. now rewrite app_nil_r.
  - rewrite app_cons_assoc.
    destruct (registered_palette m) as [k|] eqn:Hm.
    + destruct (palettes_of_step reg seen m k Hreg Hm) as (reg1 & E & Hreg1).
      apply registered_palette_Some in Hm. destruct Hm as (Hp & Hne & Hnd).
      rewrite Hp. simpl.
      rewrite (proj2 (String.eqb_neq k EmptyString) Hne). simpl.
      rewrite (proj2 (String.eqb_neq k DEFAULT_PALETTE_ID) Hnd).
      rewrite E. now apply IH.
    + assert (Hreg1 := palettes_of_skip reg seen m Hreg Hm).
      apply registered_palette_None in Hm.
      destruct Hm as [Hm|Hm].
      * rewrite Hm. simpl. now apply IH.
      * rewrite Hm. simpl. now apply IH.
Qed.

Lemma palettes_of_default : palettes_of [(DEFAULT_PALETTE_ID, [])] [].
Proof.
  split; [repeat constructor; intros []|]. split; [reflexivity|]. split.
  - intros k mats [H|[]]. inversion H; subst. split; [reflexivity|congruence].
  - intros m k [].
Qed.

Lemma palettes_of_keys (reg : MaterialPalettesRegistry) (seen : list Material)
    (k : string) :
  palettes_of reg seen ->
  In k (dict_keys reg)
  <-> k = DEFAULT_PALETTE_ID
      \/ (k <> EmptyString
          /\ exists m, In m seen /\ get_palette_name m = Some k).
Proof.
  intros (Hnd & Hhd & Hent & Hcov). split.
  - intros Hk.
    destruct (String.eqb_spec k DEFAULT_PALETTE_ID) as [->|Hne]; [now left|].
    right. unfold dict_keys in Hk. apply in_map_iff in Hk.
    destruct Hk as ([k' mats] & E & Hin). simpl in E. subst k'.
    destruct (Hent k mats Hin) as [Hm Hnn]. specialize (Hnn Hne).
    destruct mats as [|m mats]; [congruence|].
    assert (Hin' : In m (filter (in_palette k) seen)) by (rewrite <- Hm; now left).
    apply filter_In in Hin'. destruct Hin' as [Hs Hp].
    unfold in_palette in Hp.
    destruct (registered_palette m) as [p|] eqn:Ep; [|discriminate].
    apply String.eqb_eq in Hp. subst p.
    apply registered_palette_Some in Ep. destruct Ep as (Hg & He & _).
    split; [exact He|]. now exists m.
  - intros [->|(He & m & Hm & Hg)].
    + destruct reg as [|[k0 v0] reg]; simpl in Hhd; inversion Hhd. now left.
    + destruct (String.eqb_spec k DEFAULT_PALETTE_ID) as [->|Hne].
      * destruct reg as [|[k0 v0] reg]; simpl in Hhd; inversion Hhd. now left.
      * apply (Hcov m k Hm). apply registered_palette_Some. tauto.
Qed.

Lemma palettes_of_get (reg : MaterialPalettesRegistry) (seen : list Material)
    (k : string) (mats : list Material) :
  palettes_of reg seen -> dict_get reg k = Some mats ->
  mats = filter (in_palette k) seen.
Proof.
  intros (_ & _ & Hent & _) Hget. apply dict_get_In in Hget.
  now apply Hent.
Qed.

Section PalettesFacts.

Variable short : string -> string.
Variable material_palette_read :
  MaterialPalettesRegistry -> GreasePencil -> string * GreasePencil.
Variable material_palette_assign :
  MaterialPalettesRegistry -> GreasePencil -> string -> outcome GreasePencil.

Let refresh := refresh_palettes short material_palette_read
                 material_palette_assign.

Lemma refresh_palettes_false (d : BlendData.t)
    (previous : MaterialPalettesRegistry) :
  exists reg,
    refresh false (mkWorld (Some d) previous) = Ok (mkWorld (Some d) reg)
    /\ palettes_of reg (get_grease_pencil_materials d false).
Proof.
  unfold refresh, refresh_palettes. simpl.
  destruct (fill_palettes_from (get_grease_pencil_materials d false)
              [(DEFAULT_PALETTE_ID, [])] [] palettes_of_default)
    as (reg & E & Hreg).
  simpl in E. rewrite E. simpl. exists reg. split; [|exact Hreg].
  now destruct d.
Qed.

(** X8.  With host data that is initialised, a refresh without cleanup
    returns and leaves the data as they are.  The registry it builds does
    not depend on the one before.  Its keys are distinct; the first is the
    default palette identifier, with no material; the others are the
    non-empty palette names of the grease pencil materials; each key holds
    the grease pencil materials of that palette name, in the order of
    [bpy.data.materials].  With host data not initialised, the registry is
    left empty. *)
Theorem refresh_palettes_registry (d : BlendData.t)
    (previous : MaterialPalettesRegistry) :
  (exists reg,
     refresh_palettes short material_palette_read material_palette_assign
       false (mkWorld (Some d) previous)
     = Ok (mkWorld (Some d) reg)
     /\ NoDup (dict_keys reg)
     /\ hd_error reg = Some (DEFAULT_PALETTE_ID, [])
     /\ (forall k,
           In k (dict_keys reg)
           <-> k = DEFAULT_PALETTE_ID
               \/ (k <> EmptyString
                   /\ exists m, In m (get_grease_pencil_materials d false)
                                /\ get_palette_name m = Some k))
     /\ (forall k mats,
           dict_get reg k = Some mats ->
           mats = filter (in_palette k) (get_grease_pencil_materials d false)))
  /\ forall cleanup_materials,
       refresh_palettes short material_palette_read material_palette_assign
         cleanup_materials (mkWorld None previous)
       = Ok (mkWorld None []).
Proof.
  split; [|reflexivity].
  destruct (refresh_palettes_false d previous) as (reg & E & Hreg).
  exists reg. split; [exact E|].
  split; [apply Hreg|]. split; [apply Hreg|]. split.
  - intros k. now apply palettes_of_keys.
  - intros k mats. now apply palettes_of_get.
Qed.

(** X9.  The load_pre handler empties the registry and keeps the host
    data.  The load_post and undo/redo handlers return and rebuild the
    registry from the host data alone: what they give is the same after
    load_pre as without it, and running one again on what it gave changes
    nothing. *)
Theorem on_load_handlers (w : world) :
  material_palettes (on_load_pre w) = []
  /\ bpy_data (on_load_pre w) = bpy_data w
  /\ exists w',
       on_load_post short material_palette_read material_palette_assign w
       = Ok w'
       /\ on_load_post short material_palette_read material_palette_assign
            (on_load_pre w) = Ok w'
       /\ on_undo_redo short material_palette_read material_palette_assign w
          = Ok w'
       /\ on_load_post short material_palette_read material_palette_assign w'
          = Ok w'
       /\ bpy_data w' = bpy_data w.
Proof.
  unfold on_load_post, on_undo_redo, on_load_pre.
  split; [reflexivity|]. split; [reflexivity|].
  destruct w as [[d|] previous].
  - destruct (refresh_palettes_false d previous) as (reg & E1 & _).
    unfold refresh in E1. exists (mkWorld (Some d) reg).
    split; [exact E1|]. split; [exact E1|]. split; [exact E1|].
    split; [|reflexivity].
    rewrite <- E1. reflexivity.
  - exists (mkWorld None []). repeat split.
Qed.

(** X10.  After a refresh, the palette component of a material's name is
    valid exactly when it is the default palette identifier or the
    non-empty palette name of a grease pencil material of the host data. *)
Theorem has_valid_palette_name_after_refresh (d : BlendData.t)
    (previous : MaterialPalettesRegistry) :
  exists w',
    refresh_palettes short material_palette_read material_palette_assign
      false (mkWorld (Some d) previous) = Ok w'
    /\ forall material,
         has_valid_palette_name w' material = true
         <-> exists palette,
               get_palette_name material = Some palette
               /\ (palette = DEFAULT_PALETTE_ID
                   \/ (palette <> EmptyString
                       /\ exists m,
                            In m (get_grease_pencil_materials d false)
                            /\ get_palette_name m = Some palette)).
Proof.
  destruct (refresh_palettes_false d previous) as (reg & E1 & Hreg).
  unfold refresh in E1. exists (mkWorld (Some d) reg). split; [exact E1|].
  intros material. unfold has_valid_palette_name. simpl.
  destruct (get_palette_name material) as [p|].
  - rewrite dict_mem_keys, (palettes_of_keys reg _ p Hreg). split.
    + intros H. now exists p.
    + intros (p' & Hp & H). now inversion Hp; subst.
  - split; [discriminate|]. intros (p & Hp & _). discriminate.
Qed.

End PalettesFacts.

(** *** The accessors of [GreasePencil.material_palette] *)

Lemma py_index_spec (l : list string) (x : string) :
  match py_index l x with
  | Ok i =>
      (0 <= i < Z.of_nat (length l))%Z
      /\ nth_error l (Z.to_nat i) = Some x
      /\ ~ In x (firstn (Z.to_nat i) l)
  | Raise e => e = ValueError /\ ~ In x l
  | OutOfFuel => False
  end.
Proof.
  induction l as [|y l IH]; simpl.
  - split; [reflexivity|tauto].
  - destruct (String.eqb_spec y x) as [->|Hne].
    + simpl. split; [lia|]. split; [reflexivity|tauto].
    + destruct (py_index l x) as [i|e|]; simpl.
      * destruct IH as (Hi & Hn & Hf).
        replace (Z.to_nat (i + 1)) with (S (Z.to_nat i)) by lia. simpl.
        split; [lia|]. split; [exact Hn|].
        intros [H|H]; [congruence|contradiction].
      * destruct IH as [-> Hn]. split; [reflexivity|].
        intros [H|H]; [congruence|contradiction].
      * exact IH.
Qed.

Lemma py_index_NoDup (l : list string) (i : nat) (x : string) :
  NoDup l -> nth_error l i = Some x -> py_index l x = Ok (Z.of_nat i).
Proof.
  intros Hnd. revert i. induction Hnd as [|y l Hnin Hnd IH]; intros i Hi.
  - now destruct i.
  - destruct i as [|i]; simpl in Hi |- *.
    + inversion Hi; subst. now rewrite String.eqb_refl.
    + assert (Hx : In x l) by (eapply nth_error_In; eauto).
      destruct (String.eqb_spec y x) as [->|Hne]; [contradiction|].
      rewrite (IH i Hi). simpl. f_equal. lia.
Qed.

Lemma py_getitem_nonneg {A} (l : list A) (i : Z) :
  (0 <= i < Z.of_nat (length l))%Z ->
  py_getitem l i
  = match nth_error l (Z.to_nat i) with
    | Some a => Ok a
    | None => Raise IndexError
    end.
Proof.
  intros Hi. unfold py_getitem, getitem.
  destruct (0 <=? i)%Z eqn:E1; [|apply Z.leb_gt in E1; lia].
  destruct (i <? Z.of_nat (length l))%Z eqn:E2; [|apply Z.ltb_ge in E2; lia].
  reflexivity.
Qed.

(** X11.  The getter never raises and gives an index that is not
    negative and, when the registry is not empty, is within the registry.
    When the stored name is a key of the registry, the index is that of
    the key and the datablock is left as it is; when it is not, the index
    is 0 and the stored name becomes the default palette identifier; with
    no stored name the index is 0. *)
Theorem get_material_palette_value_valid (w : world) (self : GreasePencil) :
  let keys := dict_keys (material_palettes w) in
  let i := fst (get_material_palette_value w self) in
  let self' := snd (get_material_palette_value w self) in
  (0 <= i)%Z
  /\ (material_palettes w <> [] -> (i < Z.of_nat (length keys))%Z)
  /\ (forall stored,
        material_palette_str self = Some stored ->
        (In stored keys ->
         self' = self /\ py_getitem keys i = Ok stored
         /\ ~ In stored (firstn (Z.to_nat i) keys))
        /\ (~ In stored keys ->
            i = 0%Z
            /\ self' = set_material_palette_str self DEFAULT_PALETTE_ID))
  /\ (material_palette_str self = None -> i = 0%Z /\ self' = self).
Proof.
  intros keys i self'. subst i self'.
  unfold get_material_palette_value.
  assert (Hlen : material_palettes w <> [] -> (0 < Z.of_nat (length keys))%Z).
  { subst keys. unfold dict_keys. destruct (material_palettes w); [congruence|].
    simpl. lia. }
  destruct (material_palette_str self) as [stored|] eqn:Es.
  - assert (H := py_index_spec keys stored). fold keys.
    destruct (py_index keys stored) as [i|e|]; simpl.
    + destruct H as (Hi & Hn & Hf).
      split; [lia|]. split; [lia|]. split; [|discriminate].
      intros s E. inversion E; subst s. split.
      * intros _. split; [reflexivity|]. split; [|exact Hf].
        rewrite py_getitem_nonneg by exact Hi. now rewrite Hn.
      * intros Hnin. elim Hnin. eapply nth_error_In; eauto.
    + destruct H as [-> Hnin].
      split; [lia|]. split; [exact Hlen|]. split; [|discriminate].
      intros s E. inversion E; subst s. split; [contradiction|].
      intros _. split; reflexivity.
    + contradiction.
  - simpl. split; [lia|]. split; [exact Hlen|]. split; [discriminate|].
    intros _. split; reflexivity.
Qed.

(** X12.  The setter raises [IndexError] exactly when the index is outside
    the registry, counting from the end when it is negative.  With the
    index of a key of the registry it stores that key, and the getter then
    gives the index back and leaves the stored name as it is. *)
Theorem set_material_palette_value_round_trip (w : world)
    (self : GreasePencil) (index : Z) :
  let keys := dict_keys (material_palettes w) in
  let n := Z.of_nat (length keys) in
  (set_material_palette_value w self index = Raise IndexError
   <-> (index < - n \/ n <= index)%Z)
  /\ (NoDup keys -> (0 <= index < n)%Z ->
      exists palette,
        nth_error keys (Z.to_nat index) = Some palette
        /\ set_material_palette_value w self index
           = Ok (set_material_palette_str self palette)
        /\ get_material_palette_value w (set_material_palette_str self palette)
           = (index, set_material_palette_str self palette)).
Proof.
  intros keys n. unfold set_material_palette_value. fold keys. split.
  - unfold py_getitem, getitem. fold n.
    destruct (0 <=? index)%Z eqn:E1; destruct (index <? n)%Z eqn:E2; simpl;
      try apply Z.leb_le in E1; try apply Z.leb_gt in E1;
      try apply Z.ltb_lt in E2; try apply Z.ltb_ge in E2.
    + destruct (nth_error keys (Z.to_nat index)) eqn:En; simpl.
      * split; [discriminate|lia].
      * apply nth_error_None in En. lia.
    + destruct (- n <=? index)%Z eqn:E3; destruct (index <? 0)%Z eqn:E4; simpl;
        try apply Z.leb_le in E3; try apply Z.leb_gt in E3;
        try apply Z.ltb_lt in E4; try apply Z.ltb_ge in E4;
        try (split; [intros _; lia|reflexivity]).
      lia.
    + destruct (- n <=? index)%Z eqn:E3; destruct (index <? 0)%Z eqn:E4; simpl;
        try apply Z.leb_le in E3; try apply Z.leb_gt in E3;
        try apply Z.ltb_lt in E4; try apply Z.ltb_ge in E4;
        try (split; [intros _; lia|reflexivity]).
      destruct (nth_error keys (Z.to_nat (n + index))) eqn:En; simpl.
      * split; [discriminate|lia].
      * apply nth_error_None in En. lia.
    + lia.
  - intros Hnd Hi.
    destruct (nth_error keys (Z.to_nat index)) as [palette|] eqn:En;
      [|apply nth_error_None in En; lia].
    exists palette. split; [reflexivity|].
    rewrite py_getitem_nonneg by exact Hi. rewrite En. simpl.
    split; [reflexivity|].
    unfold get_material_palette_value. simpl. fold keys.
    rewrite (py_index_NoDup keys _ palette Hnd En).
    f_equal. lia.
Qed.

Section EnumItems.

Variable short : string -> string.
Variable material_palette_read :
  MaterialPalettesRegistry -> GreasePencil -> string * GreasePencil.
Variable material_palette_assign :
  MaterialPalettesRegistry -> GreasePencil -> string -> outcome GreasePencil.

(** X13.  The items callback returns.  It leaves a registry that is not
    empty as it is, and refreshes an empty one first, as
    [initialize_palettes] does.  The items are the keys of the registry
    other than the vertex colour palette; the number of an item is the
    index of its key, so that the setter called with the number of an item
    stores the identifier of that item. *)
Theorem get_material_palettes_enum_items_indices (w : world) :
  exists items w',
    get_material_palettes_enum_items short material_palette_read
      material_palette_assign w = Ok (items, w')
    /\ initialize_palettes short material_palette_read
         material_palette_assign w = Ok w'
    /\ (material_palettes w <> [] -> w' = w)
    /\ (material_palettes w = [] ->
        refresh_palettes short material_palette_read material_palette_assign
          false w = Ok w')
    /\ (forall identifier name description number,
          In (identifier, name, description, number) items
          <-> nth_error (dict_keys (material_palettes w')) number
              = Some identifier
              /\ identifier <> VERTEXCOLOR_PALETTE
              /\ name = identifier /\ description = EmptyString)
    /\ (forall identifier name description number self,
          In (identifier, name, description, number) items ->
          set_material_palette_value w' self (Z.of_nat number)
          = Ok (set_material_palette_str self identifier)).
Proof.
  unfold get_material_palettes_enum_items.
  assert (Hw : exists w',
             (if match material_palettes w with [] => true | _ => false end
              then refresh_palettes short material_palette_read
                     material_palette_assign false w
              else Ok w) = Ok w'
             /\ (material_palettes w <> [] -> w' = w)
             /\ (material_palettes w = [] ->
                 refresh_palettes short material_palette_read
                   material_palette_assign false w = Ok w')).
  { destruct w as [[d|] [|e reg]]; simpl.
    - destruct (refresh_palettes_false short material_palette_read
                  material_palette_assign d []) as (reg & E & _).
      exists (mkWorld (Some d) reg). split; [exact E|].
      split; [congruence|]. intros _. exact E.
    - eexists. split; [reflexivity|]. split; [reflexivity|discriminate].
    - eexists. split; [reflexivity|]. split; [congruence|reflexivity].
    - eexists. split; [reflexivity|]. split; [reflexivity|discriminate]. }
  destruct Hw as (w' & E & Hne & He). rewrite E. simpl.
  eexists. exists w'. split; [reflexivity|].
  split; [exact E|]. split; [exact Hne|]. split; [exact He|].
  assert (Hitems : forall identifier name description number,
            In (identifier, name, description, number)
              (map (fun ip : nat * string => (snd ip, snd ip, EmptyString, fst ip))
                 (filter (fun ip => negb (snd ip =? VERTEXCOLOR_PALETTE)%string)
                    (enumerate (dict_keys (material_palettes w')))))
            <-> nth_error (dict_keys (material_palettes w')) number
                = Some identifier
                /\ identifier <> VERTEXCOLOR_PALETTE
                /\ name = identifier /\ description = EmptyString).
  { intros identifier nm description number. rewrite in_map_iff. split.
    - intros ([i k] & E1 & Hin). simpl in E1. inversion E1; subst.
      apply filter_In in Hin. destruct Hin as [Hin Hv]. simpl in Hv.
      apply In_enumerate in Hin. split; [exact Hin|].
      split; [|split; reflexivity].
      apply negb_true_iff in Hv. now apply String.eqb_neq in Hv.
    - intros (Hn & Hv & -> & ->). exists (number, identifier). simpl.
      split; [reflexivity|]. apply filter_In. split.
      + now apply In_enumerate.
      + simpl. apply negb_true_iff. now apply String.eqb_neq. }
  split; [exact Hitems|].
  intros identifier nm description number self Hin.
  apply Hitems in Hin. destruct Hin as (Hn & _).
  unfold set_material_palette_value.
  rewrite py_getitem_nonneg.
  - rewrite Nat2Z.id, Hn. reflexivity.
  - split; [lia|]. apply inj_lt. apply nth_error_Some. congruence.
Qed.

End EnumItems.

(** *** The filter of the palette's materials list *)

Lemma length_list_set {A} (l : list A) (i : nat) (v : A) :
  length (list_set l i v) = length l.
Proof.
  revert i. induction l as [|x l IH]; intros [|i]; simpl; auto.
Qed.

Lemma nth_list_set {A} (l : list A) (i j : nat) (v d : A) :
  nth j (list_set l i v) d
  = if (j =? i)%nat && (i <? length l)%nat then v else nth j l d.
Proof.
  revert i j. induction l as [|x l IH]; intros i j; simpl.
  - rewrite andb_false_r. now destruct j.
  - destruct i as [|i], j as [|j]; simpl; try reflexivity.
    rewrite IH. reflexivity.
Qed.

Lemma fold_flags (step : list Z -> nat * option Material -> list Z)
    (cond : nat -> option Material -> bool) (bitflag : Z) :
  (forall flags i slot,
     step flags (i, slot)
     = if cond i slot then list_set flags i bitflag else flags) ->
  forall (l : list (option Material)) (n : nat) (flags : list Z),
    (n + length l <= length flags)%nat ->
    length (fold_left step (enumerate_from n l) flags) = length flags
    /\ forall j,
         nth j (fold_left step (enumerate_from n l) flags) 0%Z
         = match nth_error l (j - n) with
           | Some slot =>
               if (n <=? j)%nat && cond j slot then bitflag
               else nth j flags 0%Z
           | None => nth j flags 0%Z
           end.
Proof.
  intros Hstep. induction l as [|slot l IH]; intros n flags Hlen.
  - simpl. split; [reflexivity|]. intros j. now destruct (j - n)%nat.
  - simpl in Hlen. cbn [enumerate_from fold_left].
    assert (Hlen1 : length (step flags (n, slot)) = length flags).
    { rewrite Hstep. destruct (cond n slot); [apply length_list_set|reflexivity]. }
    destruct (IH (S n) (step flags (n, slot))) as [Hl Hn]; [lia|].
    split; [now rewrite Hl|].
    intros j. rewrite Hn, Hstep.
    destruct (Nat.lt_ge_cases j n) as [Hj|Hj].
    + replace (j - S n)%nat with O by lia. replace (j - n)%nat with O by lia.
      assert (E2 : (S n <=? j)%nat = false) by (apply Nat.leb_gt; lia).
      assert (E3 : (n <=? j)%nat = false) by (apply Nat.leb_gt; lia).
      rewrite E2, E3.
      assert (E1 : nth j (if cond n slot then list_set flags n bitflag else flags)
                     0%Z = nth j flags 0%Z).
      { destruct (cond n slot); [|reflexivity].
        rewrite nth_list_set.
        rewrite (proj2 (Nat.eqb_neq j n)) by lia. reflexivity. }
      rewrite E1. simpl. now destruct l.
    + destruct (Nat.eq_dec j n) as [->|Hne].
      * replace (n - S n)%nat with O by lia. rewrite Nat.sub_diag.
        assert (E2 : (S n <=? n)%nat = false) by (apply Nat.leb_gt; lia).
        rewrite E2, Nat.leb_refl. simpl.
        assert (E1 : nth n (if cond n slot then list_set flags n bitflag
                            else flags) 0%Z
                     = if cond n slot then bitflag else nth n flags 0%Z).
        { destruct (cond n slot); [|reflexivity].
          rewrite nth_list_set, Nat.eqb_refl.
          rewrite (proj2 (Nat.ltb_lt n (length flags))) by lia. reflexivity. }
        rewrite E1. now destruct l.
      * assert (E1 : nth j (if cond n slot then list_set flags n bitflag
                            else flags) 0%Z = nth j flags 0%Z).
        { destruct (cond n slot); [|reflexivity].
          rewrite nth_list_set.
          rewrite (proj2 (Nat.eqb_neq j n)) by lia. reflexivity. }
        rewrite E1.
        assert (E2 : (S n <=? j)%nat = true) by (apply Nat.leb_le; lia).
        assert (E3 : (n <=? j)%nat = true) by (apply Nat.leb_le; lia).
        rewrite E2, E3.
        replace (j - n)%nat with (S (j - S n)) by lia. reflexivity.
Qed.

Lemma nth_repeat_0 (n j : nat) : nth j (repeat 0%Z n) 0%Z = 0%Z.
Proof.
  revert j. induction n as [|n IH]; intros [|j]; simpl; auto.
Qed.

Lemma filter_items_nth (w : world) (bitflag : Z)
    (materials : list (option Material)) (active : string) (j : nat) :
  length (filter_items w bitflag materials active) = length materials
  /\ nth j (filter_items w bitflag materials active) 0%Z
     = match nth_error materials j with
       | Some (Some mat) =>
           if negb (in_earlier_slots mat materials j)
              && displayed w active mat
           then bitflag else 0%Z
       | _ => 0%Z
       end.
Proof.
  unfold filter_items, enumerate.
  match goal with
  | |- context [fold_left ?f _ _] =>
      destruct (fold_flags f
                  (fun i slot =>
                     match slot with
                     | Some mat =>
                         negb (in_earlier_slots mat materials i)
                         && displayed w active mat
                     | None => false
                     end) bitflag) with (l := materials) (n := O)
        (flags := repeat 0%Z (length materials)) as [Hl Hn]
  end.
  - intros flags i [mat|]; simpl; [|reflexivity]. unfold displayed.
    destruct (in_earlier_slots mat materials i); [reflexivity|]. simpl.
    now destruct (_ || _).
  - rewrite repeat_length. simpl. lia.
  - split; [now rewrite Hl, repeat_length|].
    rewrite Hn, Nat.sub_0_r, nth_repeat_0. simpl.
    destruct (nth_error materials j) as [[mat|]|]; reflexivity.
Qed.

(** X14.  The filter gives one flag for each slot.  A slot with no
    material, and a slot whose material an earlier slot has, are never
    displayed.  When the default palette is registered, the material of
    any other slot is displayed under exactly one palette of the registry:
    the palette of its name when that one is registered, the default
    palette when it is not. *)
Theorem filter_items_one_palette (w : world) (bitflag : Z)
    (materials : list (option Material)) :
  bitflag <> 0%Z ->
  In DEFAULT_PALETTE_ID (dict_keys (material_palettes w)) ->
  (forall active,
     length (filter_items w bitflag materials active) = length materials)
  /\ (forall active i,
        nth_error materials i = Some None ->
        nth i (filter_items w bitflag materials active) 0%Z = 0%Z)
  /\ (forall active i mat,
        nth_error materials i = Some (Some mat) ->
        in_earlier_slots mat materials i = true ->
        nth i (filter_items w bitflag materials active) 0%Z = 0%Z)
  /\ (forall i mat,
        nth_error materials i = Some (Some mat) ->
        in_earlier_slots mat materials i = false ->
        exists palette,
          In palette (dict_keys (material_palettes w))
          /\ (has_valid_palette_name w mat = true ->
              get_palette_name mat = Some palette)
          /\ (has_valid_palette_name w mat = false ->
              palette = DEFAULT_PALETTE_ID)
          /\ forall active,
               In active (dict_keys (material_palettes w)) ->
               (nth i (filter_items w bitflag materials active) 0%Z = bitflag
                <-> active = palette)).
Proof.
  intros Hbit Hdef.
  split; [intros active; apply (filter_items_nth w bitflag materials active O)|].
  split.
  { intros active i Hi.
    rewrite (proj2 (filter_items_nth w bitflag materials active i)), Hi.
    reflexivity. }
  split.
  { intros active i mat Hi He.
    rewrite (proj2 (filter_items_nth w bitflag materials active i)), Hi, He.
    reflexivity. }
  intros i mat Hi He.
  assert (Hflag : forall active,
            nth i (filter_items w bitflag materials active) 0%Z = bitflag
            <-> displayed w active mat = true).
  { intros active.
    rewrite (proj2 (filter_items_nth w bitflag materials active i)), Hi, He.
    simpl. destruct (displayed w active mat); split; congruence. }
  unfold displayed in Hflag.
  destruct (has_valid_palette_name w mat) eqn:Hv.
  - unfold has_valid_palette_name in Hv.
    destruct (get_palette_name mat) as [p|] eqn:Hp; [|discriminate].
    exists p. split; [now apply dict_mem_keys|].
    split; [reflexivity|]. split; [discriminate|].
    intros active _. rewrite Hflag. simpl. rewrite andb_false_r, orb_false_r.
    rewrite String.eqb_eq. split; congruence.
  - exists DEFAULT_PALETTE_ID. split; [exact Hdef|].
    split; [discriminate|]. split; [reflexivity|].
    intros active Hact. rewrite Hflag. simpl. rewrite andb_true_r.
    rewrite orb_true_iff, String.eqb_eq. split; [|now right].
    intros [H|H]; [|exact H].
    unfold has_valid_palette_name in Hv.
    destruct (get_palette_name mat) as [p|]; [|discriminate].
    apply String.eqb_eq in H. subst p.
    apply dict_mem_keys in Hact. congruence.
Qed.

Lemma filter_items_one_palette_witness :
  (forall active,
     length (filter_items fixture_world 1%Z fixture_slots active)
     = length fixture_slots)
  /\ (forall active i,
        nth_error fixture_slots i = Some None ->
        nth i (filter_items fixture_world 1%Z fixture_slots active) 0%Z = 0%Z)
  /\ (forall active i mat,
        nth_error fixture_slots i = Some (Some mat) ->
        in_earlier_slots mat fixture_slots i = true ->
        nth i (filter_items fixture_world 1%Z fixture_slots active) 0%Z = 0%Z)
  /\ (forall i mat,
        nth_error fixture_slots i = Some (Some mat) ->
        in_earlier_slots mat fixture_slots i = false ->
        exists palette,
          In palette (dict_keys (material_palettes fixture_world))
          /\ (has_valid_palette_name fixture_world mat = true ->
              get_palette_name mat = Some palette)
          /\ (has_valid_palette_name fixture_world mat = false ->
              palette = DEFAULT_PALETTE_ID)
          /\ forall active,
               In active (dict_keys (material_palettes fixture_world)) ->
               (nth i (filter_items fixture_world 1%Z fixture_slots active) 0%Z
                = 1%Z
                <-> active = palette)).
Proof.
  apply (filter_items_one_palette fixture_world 1%Z fixture_slots).
  - discriminate.
  - simpl. now left.
Defined.

(** The flags of the fixture's slots: under palette A the first slot alone,
    under the default palette the material without palette. *)
Example test_filter_items_fixture :
  filter_items fixture_world 1%Z fixture_slots "A" = [1; 0; 0; 0]%Z
  /\ filter_items fixture_world 1%Z fixture_slots DEFAULT_PALETTE_ID
     = [0; 0; 0; 1]%Z.
Proof. split; reflexivity. Qed.

(** *** assign_active_palette_materials *)

Lemma in_slots_append (m m' : Material) (gp : GreasePencil) :
  in_slots m (append_slot m' gp)
  = in_slots m gp || (as_pointer m' =? as_pointer m)%nat.
Proof.
  unfold in_slots, append_slot. simpl. rewrite existsb_app. simpl.
  now rewrite orb_false_r.
Qed.

Lemma assign_loop_spec (l : list Material) :
  forall gp : GreasePencil,
    let gp' :=
      fold_left
        (fun gpencil mat =>
           if negb (in_slots mat gpencil) then append_slot mat gpencil
           else gpencil)
        l gp in
    exists added,
      materials gp' = (materials gp ++ map (fun m => Some (as_pointer m)) added)%list
      /\ layers gp' = layers gp
      /\ active_index gp' = active_index gp
      /\ flipping_settings gp' = flipping_settings gp
      /\ material_palette_str gp' = material_palette_str gp
      /\ (forall m, In m l -> in_slots m gp' = true)
      /\ (forall m, in_slots m gp = true -> in_slots m gp' = true)
      /\ (forall m, In m added -> In m l /\ in_slots m gp = false)
      /\ NoDup (map as_pointer added).
Proof.
  induction l as [|x l IH]; intros gp; simpl.
  - exists []. rewrite app_nil_r. repeat split; auto; try contradiction.
    constructor.
  - destruct (in_slots x gp) eqn:Ex; simpl.
    + destruct (IH gp) as (added & Hm & Hl & Ha & Hf & Hs & Hin & Hmono & Hadd & Hnd).
      exists added. repeat split; auto.
      * intros m [<-|Hm']; auto.
      * right. now apply Hadd.
      * now apply Hadd.
    + destruct (IH (append_slot x gp))
        as (added & Hm & Hl & Ha & Hf & Hs & Hin & Hmono & Hadd & Hnd).
      exists (x :: added). simpl in Hm, Hl, Ha, Hf, Hs.
      split; [now rewrite Hm, <- app_assoc|].
      split; [exact Hl|]. split; [exact Ha|]. split; [exact Hf|].
      split; [exact Hs|]. split.
      { intros m [<-|Hm']; [|now apply Hin].
        apply Hmono. rewrite in_slots_append, Nat.eqb_refl. apply orb_true_r. }
      split.
      { intros m Hm'. apply Hmono. rewrite in_slots_append, Hm'. reflexivity. }
      split.
      { intros m [<-|Hm']; [split; [now left|exact Ex]|].
        destruct (Hadd m Hm') as [Hml Hms]. split; [now right|].
        rewrite in_slots_append in Hms. now apply orb_false_iff in Hms. }
      simpl. constructor; [|exact Hnd].
      intros Hx. apply in_map_iff in Hx. destruct Hx as (m & E & Hm').
      destruct (Hadd m Hm') as [_ Hms].
      rewrite in_slots_append in Hms. apply orb_false_iff in Hms.
      destruct Hms as [_ Hms]. apply Nat.eqb_neq in Hms. congruence.
Qed.

(** X15.  When the datablock's active palette is a palette of the
    registry, and reading it leaves the datablock as it is, the assignment
    returns; it keeps the slots there are, in their order, and appends one
    slot for each material of the palette that no slot has, none twice;
    afterwards every material of the palette has a slot, and assigning
    again changes nothing.  Nothing else of the datablock changes. *)
Theorem assign_active_palette_materials_slots
    (material_palette_read :
       MaterialPalettesRegistry -> GreasePencil -> string * GreasePencil)
    (material_palette_assign :
       MaterialPalettesRegistry -> GreasePencil -> string -> outcome GreasePencil)
    (reg : MaterialPalettesRegistry) (gpencil : GreasePencil)
    (palette : string) (mats : list Material) :
  (forall gp, material_palette_str gp = material_palette_str gpencil ->
              material_palette_read reg gp = (palette, gp)) ->
  dict_get reg palette = Some mats ->
  exists gp' added,
    assign_active_palette_materials material_palette_read
      material_palette_assign reg gpencil = Ok gp'
    /\ materials gp'
       = (materials gpencil ++ map (fun m => Some (as_pointer m)) added)%list
    /\ (forall m, In m added -> In m mats /\ in_slots m gpencil = false)
    /\ NoDup (map as_pointer added)
    /\ (forall m, In m mats -> in_slots m gp' = true)
    /\ layers gp' = layers gpencil
    /\ active_index gp' = active_index gpencil
    /\ flipping_settings gp' = flipping_settings gpencil
    /\ material_palette_str gp' = material_palette_str gpencil
    /\ assign_active_palette_materials material_palette_read
         material_palette_assign reg gp' = Ok gp'.
Proof.
  intros Hread Hget.
  assert (Hmem : dict_mem reg palette = true)
    by (unfold dict_mem; now rewrite Hget).
  assert (Hrun : forall gp,
            material_palette_str gp = material_palette_str gpencil ->
            assign_active_palette_materials material_palette_read
              material_palette_assign reg gp
            = Ok (fold_left
                    (fun gpencil mat =>
                       if negb (in_slots mat gpencil)
                       then append_slot mat gpencil else gpencil)
                    mats gp)).
  { intros gp Hgp. unfold assign_active_palette_materials.
    rewrite (Hread gp Hgp), Hmem. simpl.
    rewrite (Hread gp Hgp), Hget. reflexivity. }
  destruct (assign_loop_spec mats gpencil)
    as (added & Hm & Hl & Ha & Hf & Hs & Hin & Hmono & Hadd & Hnd).
  eexists. exists added. split; [apply Hrun; reflexivity|].
  split; [exact Hm|]. split; [exact Hadd|]. split; [exact Hnd|].
  split; [exact Hin|]. split; [exact Hl|]. split; [exact Ha|].
  split; [exact Hf|]. split; [exact Hs|].
  rewrite (Hrun _ Hs). f_equal.
  set (gp' := fold_left _ mats gpencil) in *.
  clearbody gp'. clear - Hin.
  induction mats as [|x l IH]; simpl; [reflexivity|].
  rewrite (Hin x) by now left. simpl. apply IH.
  intros m Hm. apply Hin. now right.
Qed.

Lemma assign_active_palette_materials_slots_witness :
  exists gp' added,
    assign_active_palette_materials fixture_read fixture_assign
      (material_palettes fixture_world) fixture_gpencil = Ok gp'
    /\ materials gp'
       = (materials fixture_gpencil
          ++ map (fun m => Some (as_pointer m)) added)%list
    /\ (forall m, In m added ->
          In m (BlendData.materials fixture_data)
          /\ in_slots m fixture_gpencil = false)
    /\ NoDup (map as_pointer added)
    /\ (forall m, In m (BlendData.materials fixture_data) ->
          in_slots m gp' = true)
    /\ layers gp' = layers fixture_gpencil
    /\ active_index gp' = active_index fixture_gpencil
    /\ flipping_settings gp' = flipping_settings fixture_gpencil
    /\ material_palette_str gp' = material_palette_str fixture_gpencil
    /\ assign_active_palette_materials fixture_read fixture_assign
         (material_palettes fixture_world) gp' = Ok gp'.
Proof.
  apply (assign_active_palette_materials_slots fixture_read fixture_assign
           (material_palettes fixture_world) fixture_gpencil "A"%string
           (BlendData.materials fixture_data)).
  - intros gp Hgp. unfold fixture_read. rewrite Hgp. reflexivity.
  - reflexivity.
Defined.

(** The fixture: the two materials of palette A that no slot has are
    appended after the slots there are. *)
Example test_assign_valid_palette :
  assign_active_palette_materials fixture_read fixture_assign
    (material_palettes fixture_world) fixture_gpencil
  = Ok (mkGP [] None default_flipping
          [Some 3%nat; None; Some 1%nat; Some 2%nat] (Some "A"%string)).
Proof. reflexivity. Qed.

(** *** refresh_palettes with cleanup *)

(** X16.  A refresh with cleanup that returns has cleaned the materials
    first: the materials of the host data are those the cleanup keeps, the
    registry is the one of the grease pencil materials that remain, and so
    holds no material that the cleanup removed. *)
Theorem refresh_palettes_cleanup (short : string -> string)
    (material_palette_read :
       MaterialPalettesRegistry -> GreasePencil -> string * GreasePencil)
    (material_palette_assign :
       MaterialPalettesRegistry -> GreasePencil -> string -> outcome GreasePencil)
    (d : BlendData.t) (previous : MaterialPalettesRegistry) (w' : world) :
  NoDup (map as_pointer (BlendData.materials d)) ->
  refresh_palettes short material_palette_read material_palette_assign true
    (mkWorld (Some d) previous) = Ok w' ->
  exists d' d'',
    cleanup_duplicated_materials short d = Ok d'
    /\ bpy_data w' = Some d''
    /\ BlendData.materials d'' = BlendData.materials d'
    /\ NoDup (dict_keys (material_palettes w'))
    /\ hd_error (material_palettes w') = Some (DEFAULT_PALETTE_ID, [])
    /\ (forall k mats,
          dict_get (material_palettes w') k = Some mats ->
          mats = filter (in_palette k) (get_grease_pencil_materials d' false))
    /\ (forall k mats m,
          dict_get (material_palettes w') k = Some mats -> In m mats ->
          In m (BlendData.materials d'') /\ In m (BlendData.materials d)).
Proof.
  intros Hnd E.
  destruct (cleanup_duplicated_materials_spec short d Hnd)
    as (d' & orphans & users & Ec & Hm & _).
  unfold refresh_palettes in E. simpl in E. rewrite Ec in E. simpl in E.
  destruct (fill_palettes_from (get_grease_pencil_materials d' false)
              [(DEFAULT_PALETTE_ID, [])] [] palettes_of_default)
    as (reg & Ef & Hreg).
  simpl in Ef. rewrite Ef in E. simpl in E.
  destruct (for_each _ (BlendData.grease_pencils d')) as [gps|e|];
    simpl in E; try discriminate.
  inversion E; subst w'. simpl.
  exists d', (BlendData.mk (BlendData.materials d') gps).
  split; [exact Ec|]. split; [reflexivity|]. split; [reflexivity|].
  split; [apply Hreg|]. split; [apply Hreg|].
  assert (Hget : forall k mats,
            dict_get reg k = Some mats ->
            mats = filter (in_palette k) (get_grease_pencil_materials d' false))
    by (intros k mats; now apply palettes_of_get).
  split; [exact Hget|].
  intros k mats m Hk Hin. rewrite (Hget k mats Hk) in Hin.
  apply filter_In in Hin. destruct Hin as [Hin _].
  unfold get_grease_pencil_materials in Hin.
  apply filter_In in Hin. destruct Hin as [Hin _].
  simpl. split; [exact Hin|].
  rewrite Hm in Hin. apply filter_In in Hin. tauto.
Qed.

Lemma refresh_palettes_cleanup_witness :
  exists d' d'',
    cleanup_duplicated_materials fixture_short fixture_data = Ok d'
    /\ bpy_data (mkWorld (Some fixture_data_clean)
                   [ (DEFAULT_PALETTE_ID, []);
                     ("A"%string, BlendData.materials fixture_data_clean) ])
       = Some d''
    /\ BlendData.materials d'' = BlendData.materials d'
    /\ NoDup (dict_keys [ (DEFAULT_PALETTE_ID, []);
                          ("A"%string, BlendData.materials fixture_data_clean) ])
    /\ hd_error [ (DEFAULT_PALETTE_ID, []);
                  ("A"%string, BlendData.materials fixture_data_clean) ]
       = Some (DEFAULT_PALETTE_ID, [])
    /\ (forall k mats,
          dict_get [ (DEFAULT_PALETTE_ID, []);
                     ("A"%string, BlendData.materials fixture_data_clean) ] k
          = Some mats ->
          mats = filter (in_palette k) (get_grease_pencil_materials d' false))
    /\ (forall k mats m,
          dict_get [ (DEFAULT_PALETTE_ID, []);
                     ("A"%string, BlendData.materials fixture_data_clean) ] k
          = Some mats -> In m mats ->
          In m (BlendData.materials d'')
          /\ In m (BlendData.materials fixture_data)).
Proof.
  apply (refresh_palettes_cleanup fixture_short fixture_read fixture_assign
           fixture_data []
           (mkWorld (Some fixture_data_clean)
              [ (DEFAULT_PALETTE_ID, []);
                ("A"%string, BlendData.materials fixture_data_clean) ])).
  - exact fixture_data_pointers.
  - vm_compute. reflexivity.
Defined.

(** ** Operators and handlers *)

(** *** FlippingUndoHandler.on_undo_post *)

Lemma scene_frame_kept (use_negative_frames : bool) (n : Z) :
  in_frame_range n -> 0 <= n \/ use_negative_frames = true ->
  scene_frame use_negative_frames n = n.
Proof.
  intros Hn Hpos. unfold scene_frame. rewrite kept_frame_id by exact Hn.
  destruct use_negative_frames; cbn [negb andb]; [reflexivity|].
  destruct (n <? 0) eqn:E; [|reflexivity].
  apply Z.ltb_lt in E. destruct Hpos; [lia|discriminate].
Qed.

Lemma scene_frame_negative (n : Z) : n < 0 -> scene_frame false n = 0.
Proof.
  intros Hn. unfold scene_frame. cbn [negb andb].
  now rewrite (proj2 (Z.ltb_lt n 0) Hn).
Qed.



Lemma set_frame_current_returns (use_negative_frames : bool) (scene : Scene.t)
    (n : Z) :
  is_c_int n ->
  Scene.set_frame_current use_negative_frames scene n
  = Ok (Scene.mk (scene_frame use_negative_frames n)
          (Scene.frame_preview_start scene) (Scene.frame_preview_end scene)
          (Scene.use_preview_range scene)).
Proof.
  intros [Hlo Hhi]. unfold Scene.set_frame_current.
  rewrite (proj2 (Z.ltb_ge n INT_MIN)) by exact Hlo.
  rewrite (proj2 (Z.ltb_ge INT_MAX n)) by exact Hhi.
  cbn [orb]. do 2 f_equal. unfold scene_frame. rewrite kept_frame_spec.
  destruct use_negative_frames; cbn [negb andb]; [reflexivity|].
  assert (Hs : (kept_frame n <? 0) = (n <? 0)).
  { rewrite <- kept_frame_spec. host_limits.
    destruct (Z.ltb_spec n 0), (Z.ltb_spec (Z.max (-1048574) (Z.min 1048574 n)) 0);
      try reflexivity; lia. }
  now rewrite Hs.
Qed.


(** With negative frames off, a first undo from frame 5 with the last edit
    frame at its default -1 goes to frame 0, and the next one back to 5. *)
Example test_on_undo_post :
  let obact := FlippingUndoHandler.mkObject "PAINT_GPENCIL"
                 (Some (fixture_gp [] None)) in
  FlippingUndoHandler.on_undo_post false "STICK_TO_FRAME" (Some obact)
    (Scene.mk 5 1 250 false) (-1)
  = Ok (Scene.mk 0 1 250 false, 5)
  /\ FlippingUndoHandler.on_undo_post false "STICK_TO_FRAME" (Some obact)
       (Scene.mk 0 1 250 false) 5
     = Ok (Scene.mk 5 1 250 false, 0)
  /\ FlippingUndoHandler.on_undo_post true "STICK_TO_FRAME" (Some obact)
       (Scene.mk 5 1 250 false) 2000000
     = Ok (Scene.mk 1048574 1 250 false, 5).
Proof. repeat split. Qed.

(** *** ANIM_OT_lightbox_edit *)

Lemma fold_set_tag (v : bool) (l : list fref) :
  forall (h : fstore) (r : fref),
    fold_left (fun h key => set_tag h key v) l h r
    = if in_dec Nat.eq_dec r l
      then mkFrame (frame_number (h r)) (frame_select (h r)) v
             (keyframe_type (h r))
      else h r.
Proof.
  induction l as [|x l IH]; intros h r; simpl; [reflexivity|].
  rewrite IH. unfold set_tag.
  destruct (in_dec Nat.eq_dec r l) as [Hin|Hnin];
    destruct (Nat.eq_dec x r) as [->|Hne].
  - rewrite Nat.eqb_refl. reflexivity.
  - rewrite (proj2 (Nat.eqb_neq r x)) by congruence. reflexivity.
  - rewrite Nat.eqb_refl. reflexivity.
  - rewrite (proj2 (Nat.eqb_neq r x)) by congruence. reflexivity.
Qed.

Lemma lightbox_keyframes (h : fstore) (gp : GreasePencil)
    (selected onion_tag : bool) (r : fref) :
  In r (get_gp_keyframes h gp LayerTraits_NONE
          (frame_options_to_traits selected onion_tag) 0 sys_maxsize)
  <-> (exists layer, In layer (layers gp) /\ In r (frames layer))
      /\ 0 <= fnum h r <= sys_maxsize
      /\ (selected = true -> frame_select (h r) = true)
      /\ (onion_tag = true -> frame_tag (h r) = true).
Proof.
  rewrite In_get_gp_keyframes. unfold layer_satisfies, frame_satisfies.
  assert (Hs : flag_in FrameTraits_SELECTED
                 (frame_options_to_traits selected onion_tag) = selected)
    by (destruct selected, onion_tag; reflexivity).
  assert (Ht : flag_in FrameTraits_TAG
                 (frame_options_to_traits selected onion_tag) = onion_tag)
    by (destruct selected, onion_tag; reflexivity).
  rewrite Hs, Ht. split.
  - intros (i & layer & Hi & _ & Hr & Hrange & Hsel & Htag).
    split; [exists layer; split; [eapply nth_error_In; eauto|exact Hr]|].
    tauto.
  - intros ((layer & Hl & Hr) & Hrange & Hsel & Htag).
    apply In_nth_error in Hl. destruct Hl as [i Hi].
    exists i, layer. split; [exact Hi|]. split.
    + split; [|split]; intros H; vm_compute in H; discriminate.
    + tauto.
Qed.

(** X26.  The lightbox operator acts on the keyframes of the layers whose
    frame number is between 0 and [sys.maxsize]: the selected ones for ADD,
    the selected and tagged ones for REMOVE, the tagged ones for CLEAR.  It
    is cancelled exactly when there is none.  It sets the tag of each of
    them for ADD and unsets it otherwise, and changes nothing else.  Run
    again on what it gave, it changes nothing more, and REMOVE and CLEAR
    are then cancelled. *)
Theorem lightbox_edit_effect (action : LightboxAction) (h : fstore)
    (gp : GreasePencil) :
  let affected (h : fstore) (r : fref) : Prop :=
    (exists layer, In layer (layers gp) /\ In r (frames layer))
    /\ 0 <= fnum h r <= sys_maxsize
    /\ (action <> CLEAR -> frame_select (h r) = true)
    /\ (action <> ADD -> frame_tag (h r) = true) in
  let st := fst (ANIM_OT_lightbox_edit_execute action h gp) in
  let h' := snd (ANIM_OT_lightbox_edit_execute action h gp) in
  (st = CANCELLED \/ st = FINISHED)
  /\ (st = CANCELLED <-> forall r, ~ affected h r)
  /\ (forall r, affected h r ->
        h' r = mkFrame (frame_number (h r)) (frame_select (h r))
                 (match action with ADD => true | _ => false end)
                 (keyframe_type (h r)))
  /\ (forall r, ~ affected h r -> h' r = h r)
  /\ (forall r, snd (ANIM_OT_lightbox_edit_execute action h' gp) r = h' r)
  /\ (action <> ADD ->
      fst (ANIM_OT_lightbox_edit_execute action h' gp) = CANCELLED).
Proof.
  intros affected st h'.
  set (sel := match action with ADD => true | REMOVE => true | CLEAR => false end).
  set (tag := match action with ADD => false | REMOVE => true | CLEAR => true end).
  set (v := match action with ADD => true | _ => false end).
  assert (Haff : forall (g : fstore) r,
            In r (get_gp_keyframes g gp LayerTraits_NONE
                    (frame_options_to_traits sel tag) 0 sys_maxsize)
            <-> affected g r).
  { intros g r. rewrite lightbox_keyframes. unfold affected, sel, tag.
    destruct action; intuition congruence. }
  assert (Hrun : forall g,
            ANIM_OT_lightbox_edit_execute action g gp
            = match get_gp_keyframes g gp LayerTraits_NONE
                      (frame_options_to_traits sel tag) 0 sys_maxsize with
              | [] => (CANCELLED, g)
              | _ :: _ =>
                  (FINISHED,
                   fold_left (fun h key => set_tag h key v)
                     (get_gp_keyframes g gp LayerTraits_NONE
                        (frame_options_to_traits sel tag) 0 sys_maxsize) g)
              end).
  { intros g. unfold ANIM_OT_lightbox_edit_execute. fold sel tag v.
    now destruct (get_gp_keyframes g gp LayerTraits_NONE
                    (frame_options_to_traits sel tag) 0 sys_maxsize). }
  assert (Heffect : forall g r,
            snd (ANIM_OT_lightbox_edit_execute action g gp) r
            = if in_dec Nat.eq_dec r
                   (get_gp_keyframes g gp LayerTraits_NONE
                      (frame_options_to_traits sel tag) 0 sys_maxsize)
              then mkFrame (frame_number (g r)) (frame_select (g r)) v
                     (keyframe_type (g r))
              else g r).
  { intros g r. rewrite Hrun.
    destruct (get_gp_keyframes g gp LayerTraits_NONE
                (frame_options_to_traits sel tag) 0 sys_maxsize) as [|k ks] eqn:Ek.
    - reflexivity.
    - cbn [snd]. rewrite <- Ek. apply fold_set_tag. }
  assert (Hstatus : forall g,
            fst (ANIM_OT_lightbox_edit_execute action g gp) = CANCELLED
            <-> forall r, ~ affected g r).
  { intros g. rewrite Hrun.
    destruct (get_gp_keyframes g gp LayerTraits_NONE
                (frame_options_to_traits sel tag) 0 sys_maxsize) as [|k ks] eqn:Ek.
    - simpl. split; [|reflexivity]. intros _ r Hr.
      apply Haff in Hr. rewrite Ek in Hr. contradiction.
    - simpl. split; [discriminate|]. intros Hno.
      elim (Hno k). apply Haff. rewrite Ek. now left. }
  assert (Hh' : forall r,
            h' r = if in_dec Nat.eq_dec r
                        (get_gp_keyframes h gp LayerTraits_NONE
                           (frame_options_to_traits sel tag) 0 sys_maxsize)
                   then mkFrame (frame_number (h r)) (frame_select (h r)) v
                          (keyframe_type (h r))
                   else h r)
    by (intros r; apply Heffect).
  split.
  { unfold st. rewrite Hrun.
    destruct (get_gp_keyframes h gp LayerTraits_NONE
                (frame_options_to_traits sel tag) 0 sys_maxsize); auto. }
  split; [apply Hstatus|].
  split.
  { intros r Hr. rewrite Hh'. apply Haff in Hr.
    destruct (in_dec Nat.eq_dec r _); [reflexivity|contradiction]. }
  split.
  { intros r Hr. rewrite Hh'.
    destruct (in_dec Nat.eq_dec r _) as [Hin|]; [|reflexivity].
    apply Haff in Hin. contradiction. }
  split.
  { intros r. rewrite Heffect.
    destruct (in_dec Nat.eq_dec r _) as [Hin|]; [|reflexivity].
    rewrite Hh'. destruct (in_dec Nat.eq_dec r _) as [Hin0|Hnin0];
      [reflexivity|].
    apply Haff in Hin. destruct Hin as (Hl & Hrange & Hsel & Htag).
    unfold fnum in Hrange. rewrite Hh' in Hrange, Hsel, Htag.
    destruct (in_dec Nat.eq_dec r _); [contradiction|].
    elim Hnin0. apply Haff. unfold affected, fnum. tauto. }
  intros Hadd. apply Hstatus.
  intros r (Hl & Hrange & Hsel & Htag). specialize (Htag Hadd).
  unfold fnum in Hrange. rewrite Hh' in Htag, Hrange, Hsel.
  destruct (in_dec Nat.eq_dec r _) as [Hin|Hnin].
  - simpl in Htag. unfold v in Htag. destruct action; congruence.
  - apply Hnin. apply Haff. unfold affected, fnum. tauto.
Qed.

(** *** ANIM_OT_keyframes_flip *)

Lemma compare_func_ahead (direction : Direction) (h : fstore) (actframe : Z)
    (kf : fref) :
  compare_func direction (fnum h kf) actframe = true
  <-> ahead direction h actframe kf.
Proof.
  destruct direction; simpl.
  - apply Z.ltb_lt.
  - rewrite Z.gtb_ltb. apply Z.ltb_lt.
Qed.

Lemma sorted_met_before (direction : Direction) (h : fstore) (l : list fref) :
  StronglySorted (met_before direction h)
    (sorted (fnum h) (match direction with LEFT => true | RIGHT => false end) l).
Proof.
  destruct direction; simpl.
  - apply sorted_descending.
  - apply sorted_ascending.
Qed.

Lemma met_before_refl (direction : Direction) (h : fstore) (a : fref) :
  met_before direction h a a.
Proof. destruct direction; simpl; lia. Qed.

Lemma find_sorted {A} (R : A -> A -> Prop) (P : A -> bool) (l : list A) (x : A) :
  (forall a, R a a) -> StronglySorted R l -> find P l = Some x ->
  In x l /\ P x = true /\ forall y, In y l -> P y = true -> R x y.
Proof.
  intros Hrefl Hs. induction Hs as [|a l Hs IH Ha]; simpl; [discriminate|].
  destruct (P a) eqn:Pa.
  - intros E. inversion E; subst x. split; [now left|]. split; [exact Pa|].
    intros y [<-|Hy] _; [apply Hrefl|].
    rewrite Forall_forall in Ha. now apply Ha.
  - intros E. destruct (IH E) as (Hin & Px & Hall).
    split; [now right|]. split; [exact Px|].
    intros y [<-|Hy] Py; [congruence|now apply Hall].
Qed.

(** X24.  The flip goes to the nearest keyframe ahead.  With the frame
    numbers of the keyframes that pass the filter settings in the host's
    range [-1048574, 1048574]: it assigns to the current frame the frame
    number of the first of them met after the current frame in the
    direction; when there is none and looping is enabled, that of the first
    keyframe met in the direction from the far end; otherwise it is
    cancelled and leaves the scene as it is.  The scene is then at that
    frame number, unless the number is negative and negative frames are not
    allowed, in which case it is at frame 0.  Nothing of the scene changes
    but the current frame. *)
Theorem keyframes_flip_target (use_negative_frames : bool)
    (direction : Direction) (h : fstore)
    (gpd : GreasePencil) (scene : Scene.t) (candidates : list fref) :
  flip_frames h gpd scene = Ok candidates ->
  (forall kf, In kf candidates -> in_frame_range (fnum h kf)) ->
  exists st scene',
    ANIM_OT_keyframes_flip_execute use_negative_frames direction h gpd scene
    = Ok (st, scene')
    /\ (forall kf, In kf candidates ->
          0 <= fnum h kf \/ use_negative_frames = true ->
          scene_frame use_negative_frames (fnum h kf) = fnum h kf)
    /\ (forall kf, In kf candidates ->
          fnum h kf < 0 -> use_negative_frames = false ->
          scene_frame use_negative_frames (fnum h kf) = 0)
    /\ Scene.frame_preview_start scene' = Scene.frame_preview_start scene
    /\ Scene.frame_preview_end scene' = Scene.frame_preview_end scene
    /\ Scene.use_preview_range scene' = Scene.use_preview_range scene
    /\ (st = CANCELLED /\ scene' = scene
        \/ st = FINISHED
           /\ exists kf, In kf candidates
                         /\ Scene.frame_current scene'
                            = scene_frame use_negative_frames (fnum h kf))
    /\ ((exists kf, In kf candidates
                    /\ ahead direction h (Scene.frame_current scene) kf) ->
        st = FINISHED
        /\ exists kf,
             In kf candidates
             /\ ahead direction h (Scene.frame_current scene) kf
             /\ Scene.frame_current scene'
                            = scene_frame use_negative_frames (fnum h kf)
             /\ forall kf', In kf' candidates ->
                            ahead direction h (Scene.frame_current scene) kf' ->
                            met_before direction h kf kf')
    /\ ((forall kf, In kf candidates ->
                    ~ ahead direction h (Scene.frame_current scene) kf) ->
        (candidates <> [] -> loop (flipping_settings gpd) = true ->
         st = FINISHED
         /\ exists kf,
              In kf candidates
              /\ Scene.frame_current scene'
                            = scene_frame use_negative_frames (fnum h kf)
              /\ forall kf', In kf' candidates -> met_before direction h kf kf')
        /\ (candidates = [] \/ loop (flipping_settings gpd) = false ->
            st = CANCELLED)).
Proof.
  intros Hflip Hrange.
  assert (Hkept : forall kf, In kf candidates ->
            0 <= fnum h kf \/ use_negative_frames = true ->
            scene_frame use_negative_frames (fnum h kf) = fnum h kf).
  { intros kf Hkf. apply scene_frame_kept. now apply Hrange. }
  assert (Hzero : forall kf, In kf candidates ->
            fnum h kf < 0 -> use_negative_frames = false ->
            scene_frame use_negative_frames (fnum h kf) = 0).
  { intros kf _ Hneg ->. now apply scene_frame_negative. }
  assert (Hint : forall kf, In kf candidates -> is_c_int (fnum h kf)).
  { intros kf Hkf. now apply in_frame_range_c_int, Hrange. }
  clear Hrange.
  unfold ANIM_OT_keyframes_flip_execute. rewrite Hflip. simpl.
  destruct candidates as [|c cs] eqn:Ec.
  { exists CANCELLED, scene. split; [reflexivity|].
    split; [exact Hkept|]. split; [exact Hzero|].
    split; [reflexivity|]. split; [reflexivity|]. split; [reflexivity|].
    split; [now left|]. split.
    - intros (kf & [] & _).
    - intros _. split; [congruence|reflexivity]. }
  rewrite <- Ec in Hkept, Hzero, Hint |- *. clear Hflip.
  assert (Hne : candidates <> []) by (rewrite Ec; discriminate).
  clear Ec c cs.
  set (rev := match direction with LEFT => true | RIGHT => false end).
  set (sorted_frames := sorted (fnum h) rev candidates).
  assert (Hperm : forall kf, In kf sorted_frames <-> In kf candidates).
  { intros kf. unfold sorted_frames. split; apply Permutation_in.
    - apply sorted_perm.
    - apply Permutation_sym, sorted_perm. }
  assert (Hsorted : StronglySorted (met_before direction h) sorted_frames)
    by apply sorted_met_before.
  destruct sorted_frames as [|first rest] eqn:Es.
  { destruct candidates as [|c cs]; [congruence|].
    destruct (proj2 (Hperm c) (or_introl eq_refl)). }
  rewrite <- Es in *.
  assert (Hfirst : In first candidates
                   /\ forall kf', In kf' candidates ->
                                  met_before direction h first kf').
  { split; [apply Hperm; rewrite Es; now left|].
    intros kf' Hkf'. apply Hperm in Hkf'. rewrite Es in Hkf', Hsorted.
    inversion Hsorted as [|? ? _ Hall]; subst.
    destruct Hkf' as [<-|Hkf']; [apply met_before_refl|].
    rewrite Forall_forall in Hall. now apply Hall. }
  assert (Hget : getitem sorted_frames 0 = Ok first) by (rewrite Es; reflexivity).
  rewrite Hget.
  destruct (find (fun kf => compare_func direction (fnum h kf)
                              (Scene.frame_current scene)) sorted_frames)
    as [kf|] eqn:Ef.
  - destruct (find_sorted _ _ _ _ (met_before_refl direction h) Hsorted Ef)
      as (Hin & Hp & Hall).
    apply Hperm in Hin. apply compare_func_ahead in Hp.
    eexists FINISHED, _.
    split; [rewrite (set_frame_current_returns _ _ _ (Hint kf Hin));
            now destruct (loop (flipping_settings gpd))|].
    split; [exact Hkept|]. split; [exact Hzero|].
    split; [reflexivity|]. split; [reflexivity|]. split; [reflexivity|].
    split; [right; split; [reflexivity|now exists kf]|].
    split.
    + intros _. split; [reflexivity|]. exists kf.
      split; [exact Hin|]. split; [exact Hp|]. split; [reflexivity|].
      intros kf' Hkf' Ha. apply Hall; [now apply Hperm|].
      now apply compare_func_ahead.
    + intros Hno. elim (Hno kf Hin Hp).
  - assert (Hnone : forall kf, In kf candidates ->
                      ~ ahead direction h (Scene.frame_current scene) kf).
    { intros kf Hkf Ha. apply Hperm in Hkf.
      apply (find_none _ _ Ef) in Hkf. apply compare_func_ahead in Ha.
      congruence. }
    destruct (loop (flipping_settings gpd)) eqn:El; simpl.
    + eexists FINISHED, _.
      split; [rewrite (set_frame_current_returns _ _ _
                         (Hint first (proj1 Hfirst))); reflexivity|].
      split; [exact Hkept|]. split; [exact Hzero|].
      split; [reflexivity|]. split; [reflexivity|]. split; [reflexivity|].
      split; [right; split; [reflexivity|exists first; tauto]|].
      split.
      * intros (kf & Hkf & Ha). elim (Hnone kf Hkf Ha).
      * intros _. split.
        -- intros _ _. split; [reflexivity|]. exists first. tauto.
        -- intros [H|H]; congruence.
    + exists CANCELLED, scene.
      split; [reflexivity|].
      split; [exact Hkept|]. split; [exact Hzero|].
      split; [reflexivity|]. split; [reflexivity|]. split; [reflexivity|].
      split; [now left|].
      split.
      * intros (kf & Hkf & Ha). elim (Hnone kf Hkf Ha).
      * intros _. split; [congruence|reflexivity].
Qed.

Lemma keyframes_flip_target_witness :
  exists st scene',
    ANIM_OT_keyframes_flip_execute false RIGHT fixture_store
      (fixture_gp [fixture_layer [3; 7; 9]%nat] (Some 0%nat)) fixture_scene
    = Ok (st, scene')
    /\ (forall kf, In kf [3; 7; 9]%nat ->
          0 <= fnum fixture_store kf \/ false = true ->
          scene_frame false (fnum fixture_store kf) = fnum fixture_store kf)
    /\ (forall kf, In kf [3; 7; 9]%nat ->
          fnum fixture_store kf < 0 -> false = false ->
          scene_frame false (fnum fixture_store kf) = 0)
    /\ Scene.frame_preview_start scene' = Scene.frame_preview_start fixture_scene
    /\ Scene.frame_preview_end scene' = Scene.frame_preview_end fixture_scene
    /\ Scene.use_preview_range scene' = Scene.use_preview_range fixture_scene
    /\ (st = CANCELLED /\ scene' = fixture_scene
        \/ st = FINISHED
           /\ exists kf, In kf [3; 7; 9]%nat
                         /\ Scene.frame_current scene'
                            = scene_frame false (fnum fixture_store kf))
    /\ ((exists kf, In kf [3; 7; 9]%nat
                    /\ ahead RIGHT fixture_store
                         (Scene.frame_current fixture_scene) kf) ->
        st = FINISHED
        /\ exists kf,
             In kf [3; 7; 9]%nat
             /\ ahead RIGHT fixture_store (Scene.frame_current fixture_scene) kf
             /\ Scene.frame_current scene'
                            = scene_frame false (fnum fixture_store kf)
             /\ forall kf', In kf' [3; 7; 9]%nat ->
                            ahead RIGHT fixture_store
                              (Scene.frame_current fixture_scene) kf' ->
                            met_before RIGHT fixture_store kf kf')
    /\ ((forall kf, In kf [3; 7; 9]%nat ->
                    ~ ahead RIGHT fixture_store
                        (Scene.frame_current fixture_scene) kf) ->
        ([3; 7; 9]%nat <> [] ->
         loop (flipping_settings
                 (fixture_gp [fixture_layer [3; 7; 9]%nat] (Some 0%nat))) = true ->
         st = FINISHED
         /\ exists kf,
              In kf [3; 7; 9]%nat
              /\ Scene.frame_current scene'
                            = scene_frame false (fnum fixture_store kf)
              /\ forall kf', In kf' [3; 7; 9]%nat ->
                             met_before RIGHT fixture_store kf kf')
        /\ ([3; 7; 9]%nat = []
            \/ loop (flipping_settings
                       (fixture_gp [fixture_layer [3; 7; 9]%nat] (Some 0%nat)))
               = false ->
            st = CANCELLED)).
Proof.
  apply (keyframes_flip_target false RIGHT fixture_store
           (fixture_gp [fixture_layer [3; 7; 9]%nat] (Some 0%nat))
           fixture_scene [3; 7; 9]%nat).
  - reflexivity.
  - intros kf [<-|[<-|[<-|[]]]]; vm_compute; split; discriminate.
Defined.

(** From frame 5 the flip goes right to frame 7 and left to frame 3; from
    frame 9, with looping, it goes right to frame 3. *)
Example test_keyframes_flip :
  ANIM_OT_keyframes_flip_execute false RIGHT fixture_store
    (fixture_gp [fixture_layer [3; 7; 9]%nat] (Some 0%nat)) fixture_scene
  = Ok (FINISHED, Scene.mk 7 1 250 false)
  /\ ANIM_OT_keyframes_flip_execute false LEFT fixture_store
       (fixture_gp [fixture_layer [3; 7; 9]%nat] (Some 0%nat)) fixture_scene
     = Ok (FINISHED, Scene.mk 3 1 250 false)
  /\ ANIM_OT_keyframes_flip_execute false RIGHT fixture_store
       (fixture_gp [fixture_layer [3; 7; 9]%nat] (Some 0%nat))
       (Scene.mk 9 1 250 false)
     = Ok (FINISHED, Scene.mk 3 1 250 false)
  /\ ANIM_OT_keyframes_flip_execute false RIGHT fixture_store
       (fixture_gp [fixture_layer [3; 7; 9]%nat] None) fixture_scene
     = Raise AttributeError.
Proof. repeat split. Qed.

(** The keyframes are not filtered by sign: from frame 5 a flip to the left
    onto a keyframe at frame -5 leaves the scene at frame 0, or at frame -5
    when negative frames are allowed. *)
Example test_keyframes_flip_negative :
  let h := store_of (fun r => -5) in
  ANIM_OT_keyframes_flip_execute false LEFT h
    (fixture_gp [fixture_layer [0%nat]] (Some 0%nat)) fixture_scene
  = Ok (FINISHED, Scene.mk 0 1 250 false)
  /\ ANIM_OT_keyframes_flip_execute true LEFT h
       (fixture_gp [fixture_layer [0%nat]] (Some 0%nat)) fixture_scene
     = Ok (FINISHED, Scene.mk (-5) 1 250 false).
Proof. split; reflexivity. Qed.

Lemma index_of_type_index (t : KeyframeType) :
  index_of_type keyframe_types_list t = Ok (type_index t).
Proof. destruct t; reflexivity. Qed.

Lemma type_index_bound (t : KeyframeType) : (type_index t < 5)%nat.
Proof. destruct t; simpl; lia. Qed.

Lemma filter_m_total {A} (p : A -> outcome bool) (q : A -> bool) (l : list A) :
  (forall x, In x l -> p x = Ok (q x)) -> filter_m p l = Ok (filter q l).
Proof.
  induction l as [|x l IH]; simpl; intros H; [reflexivity|].
  rewrite (H x) by now left. simpl.
  rewrite IH by (intros y Hy; apply H; now right). reflexivity.
Qed.

Lemma type_passes_total (h : fstore) (gpd : GreasePencil) (kf : fref) :
  length (keyframe_types_filter (flipping_settings gpd)) = 5%nat ->
  type_passes h gpd kf
  = Ok (negb (use_filter (flipping_settings gpd))
        || nth (type_index (keyframe_type (h kf)))
             (keyframe_types_filter (flipping_settings gpd)) false).
Proof.
  intros Hlen. unfold type_passes.
  destruct (use_filter (flipping_settings gpd)); cbn [negb orb];
    [|reflexivity].
  rewrite index_of_type_index. unfold bind, getitem.
  assert (Hb := type_index_bound (keyframe_type (h kf))).
  destruct (nth_error (keyframe_types_filter (flipping_settings gpd))
              (type_index (keyframe_type (h kf)))) as [b|] eqn:En.
  - now rewrite (nth_error_nth _ _ false En).
  - apply nth_error_None in En. lia.
Qed.

Lemma for_each_Some {A B} (f : A -> B) (l : list A) :
  for_each
    (fun x : option A =>
       match x with
       | Some a => Ok (f a)
       | None => Raise AttributeError
       end)
    (map Some l)
  = Ok (map f l).
Proof.
  induction l as [|x l IH]; simpl; [reflexivity|]. now rewrite IH.
Qed.

(** X25.  With the five type switches the host gives, the keyframes among
    which the flip chooses are those of the layers that are not hidden in
    VISIBLE mode, of the active layer in ACTIVE mode, whose type is
    switched on when the type filter is used, and that are within the
    preview range when the settings and the scene both use it.  Collecting
    them raises [AttributeError] exactly in ACTIVE mode without active
    layer. *)
Theorem keyframes_flip_frames (h : fstore) (gpd : GreasePencil)
    (scene : Scene.t) :
  length (keyframe_types_filter (flipping_settings gpd)) = 5%nat ->
  (flip_frames h gpd scene = Raise AttributeError
   <-> layer_mode (flipping_settings gpd) = ACTIVE /\ layers_active gpd = None)
  /\ (~ (layer_mode (flipping_settings gpd) = ACTIVE
         /\ layers_active gpd = None) ->
      exists candidates,
        flip_frames h gpd scene = Ok candidates
        /\ forall kf,
             In kf candidates
             <-> ((layer_mode (flipping_settings gpd) = VISIBLE
                   /\ exists gpl, In gpl (layers gpd) /\ hide gpl = false
                                  /\ In kf (frames gpl))
                  \/ (layer_mode (flipping_settings gpd) = ACTIVE
                      /\ exists gpl, layers_active gpd = Some gpl
                                     /\ In kf (frames gpl)))
                 /\ (use_filter (flipping_settings gpd) = true ->
                     nth (type_index (keyframe_type (h kf)))
                       (keyframe_types_filter (flipping_settings gpd)) false
                     = true)
                 /\ (use_preview_range (flipping_settings gpd) = true ->
                     Scene.use_preview_range scene = true ->
                     Scene.frame_preview_start scene <= fnum h kf
                     <= Scene.frame_preview_end scene)).
Proof.
  intros Hlen.
  set (q := fun kf =>
              negb (use_filter (flipping_settings gpd))
              || nth (type_index (keyframe_type (h kf)))
                   (keyframe_types_filter (flipping_settings gpd)) false).
  assert (Hq : forall l, filter_m (type_passes h gpd) l = Ok (filter q l)).
  { intros l. apply filter_m_total. intros x _. now apply type_passes_total. }
  assert (Hqs : forall kf,
            q kf = true
            <-> (use_filter (flipping_settings gpd) = true ->
                 nth (type_index (keyframe_type (h kf)))
                   (keyframe_types_filter (flipping_settings gpd)) false = true)).
  { intros kf. unfold q.
    destruct (use_filter (flipping_settings gpd)); simpl;
      intuition congruence. }
  assert (Hrange : forall (l : list fref),
            exists candidates,
              (if use_preview_range (flipping_settings gpd)
                  && Scene.use_preview_range scene
               then Ok (filter
                          (fun kf =>
                             (Scene.frame_preview_start scene <=? fnum h kf)
                             && (fnum h kf <=? Scene.frame_preview_end scene))
                          (filter q l))
               else Ok (filter q l)) = Ok candidates
              /\ forall kf,
                   In kf candidates
                   <-> In kf l /\ q kf = true
                       /\ (use_preview_range (flipping_settings gpd) = true ->
                           Scene.use_preview_range scene = true ->
                           Scene.frame_preview_start scene <= fnum h kf
                           <= Scene.frame_preview_end scene)).
  { intros l.
    destruct (use_preview_range (flipping_settings gpd)) eqn:E1;
      destruct (Scene.use_preview_range scene) eqn:E2; simpl;
      eexists; (split; [reflexivity|]); intros kf;
      rewrite ?filter_In, ?andb_true_iff, ?Z.leb_le;
      intuition congruence. }
  unfold flip_frames, flip_layers.
  destruct (layer_mode (flipping_settings gpd)) eqn:Emode.
  - unfold layers_active.
    destruct (match active_index gpd with
              | Some a => nth_error (layers gpd) a
              | None => None
              end) as [gpl|] eqn:Eact; simpl.
    + rewrite app_nil_r, Hq. simpl.
      split; [split; [destruct (_ && _); discriminate
                     |intros [_ H]; discriminate]|].
      intros _. destruct (Hrange (frames gpl)) as (candidates & E & Hc).
      exists candidates. split; [exact E|].
      intros kf. rewrite Hc, Hqs. split.
      * intros (Hin & Ht & Hr). split; [|tauto].
        right. split; [reflexivity|]. now exists gpl.
      * intros ([[H _]|[_ (gpl' & E' & Hin)]] & Ht & Hr); [discriminate|].
        inversion E'; subst gpl'. tauto.
    + split; [tauto|]. intros H. elim H. tauto.
  - rewrite for_each_Some. simpl. rewrite Hq. simpl.
    split; [split; [destruct (_ && _); discriminate
                   |intros [H _]; discriminate]|].
    intros _.
    destruct (Hrange (concat (map frames
                                (filter (fun gpl => negb (hide gpl))
                                   (layers gpd)))))
      as (candidates & E & Hc).
    exists candidates. split; [exact E|].
    intros kf. rewrite Hc, Hqs, in_concat. split.
    + intros ((l & Hl & Hin) & Ht & Hr). split; [|tauto].
      left. split; [reflexivity|].
      apply in_map_iff in Hl. destruct Hl as (gpl & <- & Hg).
      apply filter_In in Hg. destruct Hg as [Hg Hh].
      exists gpl. split; [exact Hg|]. split; [|exact Hin].
      now apply negb_true_iff in Hh.
    + intros ([[_ (gpl & Hg & Hh & Hin)]|[H _]] & Ht & Hr); [|discriminate].
      split; [|tauto]. exists (frames gpl). split; [|exact Hin].
      apply in_map. apply filter_In. split; [exact Hg|].
      now apply negb_true_iff.
Qed.

Lemma keyframes_flip_frames_witness :
  (flip_frames fixture_store
     (fixture_gp [fixture_layer [3; 7; 9]%nat] (Some 0%nat)) fixture_scene
   = Raise AttributeError
   <-> layer_mode (flipping_settings
                     (fixture_gp [fixture_layer [3; 7; 9]%nat] (Some 0%nat)))
       = ACTIVE
       /\ layers_active (fixture_gp [fixture_layer [3; 7; 9]%nat] (Some 0%nat))
          = None)
  /\ flip_frames fixture_store
       (fixture_gp [fixture_layer [3; 7; 9]%nat] (Some 0%nat)) fixture_scene
     = Ok [3; 7; 9]%nat.
Proof.
  split.
  - apply (keyframes_flip_frames fixture_store
             (fixture_gp [fixture_layer [3; 7; 9]%nat] (Some 0%nat))
             fixture_scene).
    reflexivity.
  - reflexivity.
Defined.

(** *** TRANSFORM_OT_keyframes_shift *)

Lemma set_select_frame_number (h : fstore) (r r' : fref) (v : bool) :
  frame_number (set_select h r v r') = frame_number (h r').
Proof.
  unfold set_select. destruct (Nat.eqb_spec r' r) as [->|Hne]; reflexivity.
Qed.

Lemma fold_set_select (v : bool) (l : list fref) :
  forall (h : fstore) (r : fref),
    frame_number (fold_left (fun h keyframe => set_select h keyframe v) l h r)
    = frame_number (h r)
    /\ (In r l ->
        frame_select
          (fold_left (fun h keyframe => set_select h keyframe v) l h r) = v)
    /\ (~ In r l ->
        fold_left (fun h keyframe => set_select h keyframe v) l h r = h r).
Proof.
  induction l as [|x l IH]; intros h r; simpl.
  - split; [reflexivity|]. split; [contradiction|reflexivity].
  - destruct (IH (set_select h x v) r) as (Hn & Hs & Ho).
    split; [now rewrite Hn, set_select_frame_number|]. split.
    + intros [->|Hin].
      * destruct (in_dec Nat.eq_dec r l) as [Hin|Hnin]; [now apply Hs|].
        rewrite (Ho Hnin). unfold set_select. now rewrite Nat.eqb_refl.
      * now apply Hs.
    + intros Hnin. rewrite Ho by tauto. unfold set_select.
      rewrite (proj2 (Nat.eqb_neq r x)); [reflexivity|].
      intros ->. apply Hnin. now left.
Qed.

Lemma setup_shifted_by (self : TRANSFORM_OT_keyframes_shift.t) (h : fstore)
    (gp : GreasePencil) (scene : Scene.t) :
  NoDup (flat_map frames (layers gp)) ->
  let found :=
    get_gp_keyframes h gp
      (layer_options_to_traits
         (TRANSFORM_OT_keyframes_shift.only_active_layer self) true
         (TRANSFORM_OT_keyframes_shift.only_selected_layers self))
      FrameTraits_NONE (Scene.frame_current scene + 1) sys_maxsize in
  let self' := TRANSFORM_OT_keyframes_shift.setup self h gp scene in
  TRANSFORM_OT_keyframes_shift.keyframes self' = Some found
  /\ TRANSFORM_OT_keyframes_shift.offset self'
     = TRANSFORM_OT_keyframes_shift.offset self
  /\ TRANSFORM_OT_keyframes_shift.interactive self'
     = TRANSFORM_OT_keyframes_shift.interactive self
  /\ TRANSFORM_OT_keyframes_shift.is_invoke self'
     = TRANSFORM_OT_keyframes_shift.is_invoke self
  /\ (found <> [] -> shifted_by self' scene h h found 0).
Proof.
  intros Hown found self'.
  assert (Hnd : NoDup found) by now apply get_gp_keyframes_NoDup.
  assert (Hsorted : StronglySorted (fun a b => fnum h a <= fnum h b) found)
    by apply sorted_ascending.
  assert (Hafter : forall r, In r found -> Scene.frame_current scene < fnum h r).
  { intros r Hin. apply In_get_gp_keyframes in Hin.
    destruct Hin as (_ & _ & _ & _ & _ & Hrange & _). lia. }
  unfold self', TRANSFORM_OT_keyframes_shift.setup. fold found.
  destruct found as [|first rest] eqn:Ef; simpl.
  - split; [reflexivity|]. split; [reflexivity|]. split; [reflexivity|].
    split; [reflexivity|]. congruence.
  - split; [reflexivity|]. split; [reflexivity|]. split; [reflexivity|].
    split; [reflexivity|].
    intros _. unfold shifted_by. simpl.
    split; [reflexivity|]. split; [discriminate|].
    split; [exact Hnd|]. split; [exact Hsorted|]. split; [reflexivity|].
    split; [|reflexivity].
    intros r Hr. specialize (Hafter r Hr). lia.
Qed.

Section ShiftOperator.

Variable select_all_DESELECT : fstore -> fstore.
Hypothesis select_all_frame_number :
  forall (g : fstore) (r : fref),
    frame_number (select_all_DESELECT g r) = frame_number (g r).

(** A call of [execute] by an operator that was invoked and set up is a
    call of [shift_keyframes] for what is left of the offset. *)
Lemma execute_shift (self : TRANSFORM_OT_keyframes_shift.t) (scene : Scene.t)
    (h0 h : fstore) (gp : GreasePencil) (found : list fref) (d : Z)
    (first : fref) :
  TRANSFORM_OT_keyframes_shift.is_invoke self = true ->
  shifted_by self scene h0 h found d ->
  hd_error found = Some first ->
  let o := TRANSFORM_OT_keyframes_shift.offset self in
  let fc := Scene.frame_current scene in
  let m := fnum h0 first + d in
  TRANSFORM_OT_keyframes_shift.execute select_all_DESELECT self h gp scene
  = (let (res, h1) := shift_keyframes found (o - d) (fc + 1) true h in
     match res with
     | Ok res =>
         if negb res then (Ok (CANCELLED, self), h1)
         else
           (Ok (FINISHED, self),
            fold_left (fun h keyframe => set_select h keyframe true) found
              (select_all_DESELECT h1))
     | Raise e => (Raise e, h1)
     | OutOfFuel => (OutOfFuel, h1)
     end)
  /\ (exists r, In r found /\ fnum h r = m)
  /\ (forall r, In r found -> m <= fnum h r)
  /\ fc < m
  /\ (forall r, In r found -> fnum h0 first <= fnum h0 r)
  /\ (if true && (m + (o - d) <? fc + 1) then fc + 1 - m else o - d)
     = Z.max o (fc + 1 - fnum h0 first) - d.
Proof.
  intros Hinv (Hk & Hne & Hnd & Hsorted & Hinit & Hmem & Hout) Hfirst o fc m.
  destruct found as [|f rest]; [discriminate|].
  simpl in Hfirst. inversion Hfirst; subst f. clear Hfirst.
  set (found := first :: rest) in *.
  assert (Hfin : In first found) by now left.
  assert (Hm0 : forall r, In r found -> fnum h0 first <= fnum h0 r).
  { intros r [<-|Hr]; [lia|].
    inversion Hsorted as [|? ? _ Hall]; subst.
    rewrite Forall_forall in Hall. now apply Hall. }
  destruct (Hmem first Hfin) as (Ef1 & _ & Hf3).
  split; [|split; [|split; [|split; [|split]]]].
  - unfold TRANSFORM_OT_keyframes_shift.execute.
    rewrite Hinv. cbn [negb andb]. rewrite ?Hinv. cbn [negb andb].
    rewrite Hk. cbn [attribute bind].
    change (getitem found 0) with (Ok (A := fref) first). cbn [bind].
    rewrite Hinit. cbn [hd_error option_map attribute bind found].
    fold found. rewrite Ef1.
    replace (fnum h0 first + d - fnum h0 first) with d by lia.
    reflexivity.
  - exists first. split; [exact Hfin|exact Ef1].
  - intros r Hr. destruct (Hmem r Hr) as (E & _). specialize (Hm0 r Hr).
    unfold m. lia.
  - unfold m, fc. lia.
  - exact Hm0.
  - cbn [andb]. unfold m.
    destruct (Z.ltb_spec (fnum h0 first + d + (o - d)) (fc + 1)); lia.
Qed.

(** At the distance asked for, [execute] is cancelled. *)
Lemma execute_cancelled (self : TRANSFORM_OT_keyframes_shift.t)
    (scene : Scene.t) (h0 h : fstore) (gp : GreasePencil) (found : list fref)
    (d : Z) (first : fref) :
  TRANSFORM_OT_keyframes_shift.is_invoke self = true ->
  shifted_by self scene h0 h found d ->
  hd_error found = Some first ->
  Z.max (TRANSFORM_OT_keyframes_shift.offset self)
    (Scene.frame_current scene + 1 - fnum h0 first) = d ->
  TRANSFORM_OT_keyframes_shift.execute select_all_DESELECT self h gp scene
  = (Ok (CANCELLED, self), h).
Proof.
  intros Hinv Hs Hfirst Hsame.
  destruct (execute_shift self scene h0 h gp found d first Hinv Hs Hfirst)
    as (E & Hex & Hleast & _ & _ & Happlied).
  destruct Hs as (_ & Hne & _).
  rewrite E.
  rewrite (shift_keyframes_refused found _ _ true h _ Hne Hex Hleast)
    by (right; right; rewrite Happlied; lia).
  reflexivity.
Qed.

(** Away from it, and from the host's frame limit, it moves the keyframes
    there. *)
Lemma execute_finished (self : TRANSFORM_OT_keyframes_shift.t)
    (scene : Scene.t) (h0 h : fstore) (gp : GreasePencil) (found : list fref)
    (d : Z) (first : fref) :
  TRANSFORM_OT_keyframes_shift.is_invoke self = true ->
  shifted_by self scene h0 h found d ->
  hd_error found = Some first ->
  let d' := Z.max (TRANSFORM_OT_keyframes_shift.offset self)
              (Scene.frame_current scene + 1 - fnum h0 first) in
  d' <> d ->
  (forall r, In r found -> in_frame_range (fnum h0 r + d')) ->
  exists h',
    TRANSFORM_OT_keyframes_shift.execute select_all_DESELECT self h gp scene
    = (Ok (FINISHED, self), h')
    /\ shifted_by self scene h0 h' found d'
    /\ forall r, In r found -> frame_select (h' r) = true.
Proof.
  intros Hinv Hs Hfirst d' Hdiff Hwithin.
  destruct (execute_shift self scene h0 h gp found d first Hinv Hs Hfirst)
    as (E & Hex & Hleast & Hfc & Hm0 & Happlied).
  destruct Hs as (Hk & Hne & Hnd & Hsorted & Hinit & Hmem & Hout).
  fold d' in Happlied. rewrite E.
  destruct (shift_keyframes_within found
              (TRANSFORM_OT_keyframes_shift.offset self - d)
              (Scene.frame_current scene + 1) true h (fnum h0 first + d)
              Hne Hnd Hex Hleast)
    as (h1 & E1 & Hin & Hothers).
  - lia.
  - discriminate.
  - rewrite Happlied. lia.
  - rewrite Happlied. intros r Hr. destruct (Hmem r Hr) as (Er & _).
    rewrite Er. replace (fnum h0 r + d + (d' - d)) with (fnum h0 r + d') by lia.
    now apply Hwithin.
  - rewrite Happlied in Hin. rewrite E1. cbn [negb].
    eexists. split; [reflexivity|].
    set (h2 := select_all_DESELECT h1).
    assert (Hnum : forall r,
              fnum (fold_left (fun h keyframe => set_select h keyframe true)
                      found h2) r = fnum h1 r).
    { intros r. unfold fnum.
      rewrite (proj1 (fold_set_select true found h2 r)).
      apply select_all_frame_number. }
    split.
    + unfold shifted_by.
      split; [exact Hk|]. split; [exact Hne|].
      split; [exact Hnd|]. split; [exact Hsorted|]. split; [exact Hinit|].
      split.
      * intros r Hr. rewrite Hnum.
        rewrite (proj2 (Hin r Hr)).
        destruct (Hmem r Hr) as (Er & H1 & H2). specialize (Hm0 r Hr).
        split; [lia|]. split; [exact H1|]. unfold d'. lia.
      * intros r Hr. rewrite Hnum. unfold fnum at 1.
        rewrite (Hothers r Hr). now apply Hout.
    + intros r Hr. now apply (fold_set_select true found h2 r).
Qed.

Lemma execute_step (self : TRANSFORM_OT_keyframes_shift.t) (scene : Scene.t)
    (h0 h : fstore) (gp : GreasePencil) (found : list fref) (d : Z)
    (first : fref) :
  TRANSFORM_OT_keyframes_shift.is_invoke self = true ->
  shifted_by self scene h0 h found d ->
  hd_error found = Some first ->
  let d' := Z.max (TRANSFORM_OT_keyframes_shift.offset self)
              (Scene.frame_current scene + 1 - fnum h0 first) in
  (forall r, In r found -> in_frame_range (fnum h0 r + d')) ->
  exists st h',
    TRANSFORM_OT_keyframes_shift.execute select_all_DESELECT self h gp scene
    = (Ok (st, self), h')
    /\ shifted_by self scene h0 h' found d'
    /\ (d' = d -> st = CANCELLED /\ h' = h)
    /\ (d' <> d ->
        st = FINISHED
        /\ forall r, In r found -> frame_select (h' r) = true).
Proof.
  intros Hinv Hs Hfirst d' Hwithin.
  destruct (Z.eq_dec d' d) as [Hsame|Hdiff].
  - exists CANCELLED, h.
    split; [now apply (execute_cancelled self scene h0 h gp found d first)|].
    split; [now rewrite Hsame|]. split; [tauto|]. intros H. contradiction.
  - destruct (execute_finished self scene h0 h gp found d first Hinv Hs Hfirst
                Hdiff Hwithin) as (h' & E & Hs' & Hsel).
    exists FINISHED, h'. split; [exact E|]. split; [exact Hs'|].
    split; [intros H; contradiction|]. intros _. split; [reflexivity|exact Hsel].
Qed.

(** X27.  For an operator that was invoked ([self.options.is_invoke], so
    that [execute] does not set it up again), set up on keyframes that are
    all at the same distance from where they were at setup, and when the
    frame numbers asked for are in the host's range [-1048574, 1048574]:
    [execute] brings each keyframe to the distance [self.offset] from where
    it was at setup, or as near to it as keeps the first of them after the
    current frame, so the offset is absolute.  It is cancelled, and leaves
    every keyframe as it is, exactly when they are at that distance
    already; otherwise it finishes with the keyframes selected.  Executing
    again with the same offset is cancelled and changes nothing. *)
Theorem keyframes_shift_execute (self : TRANSFORM_OT_keyframes_shift.t)
    (scene : Scene.t) (h0 h : fstore) (gp : GreasePencil)
    (found : list fref) (d : Z) (first : fref) :
  TRANSFORM_OT_keyframes_shift.is_invoke self = true ->
  shifted_by self scene h0 h found d ->
  hd_error found = Some first ->
  let d' := Z.max (TRANSFORM_OT_keyframes_shift.offset self)
              (Scene.frame_current scene + 1 - fnum h0 first) in
  (forall r, In r found -> in_frame_range (fnum h0 r + d')) ->
  exists st h',
    TRANSFORM_OT_keyframes_shift.execute select_all_DESELECT self h gp scene
    = (Ok (st, self), h')
    /\ shifted_by self scene h0 h' found d'
    /\ (d' = d -> st = CANCELLED /\ h' = h)
    /\ (d' <> d ->
        st = FINISHED
        /\ forall r, In r found -> frame_select (h' r) = true)
    /\ TRANSFORM_OT_keyframes_shift.execute select_all_DESELECT self h' gp scene
       = (Ok (CANCELLED, self), h').
Proof.
  intros Hinv Hs Hfirst d' Hwithin.
  destruct (execute_step self scene h0 h gp found d first Hinv Hs Hfirst Hwithin)
    as (st & h' & E & Hs' & Hsame & Hdiff).
  exists st, h'. split; [exact E|]. split; [exact Hs'|].
  split; [exact Hsame|]. split; [exact Hdiff|].
  destruct (execute_step self scene h0 h' gp found d' first Hinv Hs' Hfirst
              Hwithin)
    as (st2 & h2 & E2 & _ & Hsame2 & _).
  destruct (Hsame2 eq_refl) as [-> ->]. exact E2.
Qed.

(** X28.  Cancelling restores the keyframes: for an operator that was
    invoked ([self.options.is_invoke]), when the keyframes are all at the
    same distance from where they were at setup, at no distance if
    [self.offset] is zero, and the frame numbers they had at setup are in
    the host's range [-1048574, 1048574], [cancel] returns with
    [self.offset] at zero and every keyframe at the frame number it had at
    setup. *)
Theorem keyframes_shift_cancel (self : TRANSFORM_OT_keyframes_shift.t)
    (scene : Scene.t) (h0 h : fstore) (gp : GreasePencil)
    (found : list fref) (d : Z) :
  TRANSFORM_OT_keyframes_shift.is_invoke self = true ->
  shifted_by self scene h0 h found d ->
  (TRANSFORM_OT_keyframes_shift.offset self = 0 -> d = 0) ->
  (forall r, In r found -> in_frame_range (fnum h0 r)) ->
  exists self' h',
    TRANSFORM_OT_keyframes_shift.cancel select_all_DESELECT self h gp scene
    = (Ok self', h')
    /\ TRANSFORM_OT_keyframes_shift.offset self' = 0
    /\ forall r, fnum h' r = fnum h0 r.
Proof.
  intros Hinv Hs Hzero Hrange. unfold TRANSFORM_OT_keyframes_shift.cancel.
  assert (Hs0 := Hs).
  destruct Hs0 as (Hk & Hne & Hnd & Hsorted & Hinit & Hmem & Hout).
  destruct (TRANSFORM_OT_keyframes_shift.offset self =? 0) eqn:E; cbn [negb].
  - apply Z.eqb_eq in E. exists self, h.
    split; [reflexivity|]. split; [exact E|].
    intros r. destruct (in_dec Nat.eq_dec r found) as [Hr|Hr].
    + destruct (Hmem r Hr) as (E1 & _). rewrite (Hzero E) in E1. lia.
    + now apply Hout.
  - destruct found as [|first rest] eqn:Ef; [congruence|]. rewrite <- Ef in *.
    set (self0 := TRANSFORM_OT_keyframes_shift.set_offset self 0).
    assert (Hs1 : shifted_by self0 scene h0 h found d)
      by (unfold shifted_by; simpl; tauto).
    assert (Hfc : Scene.frame_current scene < fnum h0 first).
    { apply (Hmem first). rewrite Ef. now left. }
    assert (Hd0 : Z.max (TRANSFORM_OT_keyframes_shift.offset self0)
                    (Scene.frame_current scene + 1 - fnum h0 first) = 0)
      by (cbn [self0 TRANSFORM_OT_keyframes_shift.set_offset
               TRANSFORM_OT_keyframes_shift.offset]; lia).
    destruct (execute_step self0 scene h0 h gp found d first Hinv Hs1)
      as (st & h' & E1 & Hs' & _).
    + now rewrite Ef.
    + rewrite Hd0. intros r Hr. rewrite Z.add_0_r. now apply Hrange.
    + rewrite E1. cbn [bind snd]. exists self0, h'.
      split; [reflexivity|]. split; [reflexivity|].
      rewrite Hd0 in Hs'.
      destruct Hs' as (_ & _ & _ & _ & _ & Hmem' & Hout').
      intros r. destruct (in_dec Nat.eq_dec r found) as [Hr|Hr].
      * destruct (Hmem' r Hr) as (E2 & _). rewrite E2. lia.
      * now apply Hout'.
Qed.

(** X30.  With each keyframe held once by the host, [invoke] is cancelled
    when no keyframe of an unlocked layer that passes the layer options
    lies after the current frame.  When one does: in interactive mode it
    returns RUNNING_MODAL and leaves every keyframe as it is, with the
    operator set up on the keyframes found; in the other mode it gives what
    [execute] gives for the operator as set up, which is CANCELLED when
    the larger of [self.offset] and the distance that brings the first
    keyframe next to the current frame is 0, as it is with the default
    offset, and else, when the frame numbers asked for are in the host's
    range [-1048574, 1048574], FINISHED with the keyframes moved by it. *)
Theorem keyframes_shift_invoke
    (self : TRANSFORM_OT_keyframes_shift.t) (h : fstore) (gp : GreasePencil)
    (scene : Scene.t) :
  NoDup (flat_map frames (layers gp)) ->
  TRANSFORM_OT_keyframes_shift.is_invoke self = true ->
  let found :=
    get_gp_keyframes h gp
      (layer_options_to_traits
         (TRANSFORM_OT_keyframes_shift.only_active_layer self) true
         (TRANSFORM_OT_keyframes_shift.only_selected_layers self))
      FrameTraits_NONE (Scene.frame_current scene + 1) sys_maxsize in
  let self' := TRANSFORM_OT_keyframes_shift.setup self h gp scene in
  (found = [] ->
   TRANSFORM_OT_keyframes_shift.invoke select_all_DESELECT self h gp scene
   = (Ok (CANCELLED, self'), h))
  /\ (found <> [] ->
      shifted_by self' scene h h found 0
      /\ (TRANSFORM_OT_keyframes_shift.interactive self = true ->
          TRANSFORM_OT_keyframes_shift.invoke select_all_DESELECT self h gp
            scene = (Ok (RUNNING_MODAL, self'), h))
      /\ (TRANSFORM_OT_keyframes_shift.interactive self = false ->
          TRANSFORM_OT_keyframes_shift.invoke select_all_DESELECT self h gp
            scene
          = TRANSFORM_OT_keyframes_shift.execute select_all_DESELECT self' h gp
              scene
          /\ forall first,
               hd_error found = Some first ->
               let d' := Z.max (TRANSFORM_OT_keyframes_shift.offset self)
                           (Scene.frame_current scene + 1 - fnum h first) in
               (d' = 0 ->
                TRANSFORM_OT_keyframes_shift.invoke select_all_DESELECT self h
                  gp scene = (Ok (CANCELLED, self'), h))
               /\ (d' <> 0 ->
                   (forall r, In r found -> in_frame_range (fnum h r + d')) ->
                   exists h',
                     TRANSFORM_OT_keyframes_shift.invoke select_all_DESELECT
                       self h gp scene = (Ok (FINISHED, self'), h')
                     /\ (forall r, In r found -> fnum h' r = fnum h r + d')
                     /\ (forall r, ~ In r found -> fnum h' r = fnum h r))))
  /\ (forall r,
        In r found
        <-> exists i layer,
              nth_error (layers gp) i = Some layer
              /\ passes_options gp
                   (TRANSFORM_OT_keyframes_shift.only_active_layer self) true
                   (TRANSFORM_OT_keyframes_shift.only_selected_layers self)
                   i layer = true
              /\ In r (frames layer)
              /\ Scene.frame_current scene < fnum h r <= sys_maxsize).
Proof.
  intros Hown Hinv found self'.
  destruct (setup_shifted_by self h gp scene Hown)
    as (Hk & Ho & Hi & Hinv' & Hs).
  fold found self' in Hk, Ho, Hi, Hinv', Hs.
  unfold TRANSFORM_OT_keyframes_shift.invoke. fold self'. rewrite Hk, Hi.
  cbn [attribute].
  split; [intros ->; reflexivity|]. split.
  - intros Hne. split; [now apply Hs|].
    assert (Hrun :
              match found with
              | [] => (Ok (CANCELLED, self'), h)
              | _ :: _ =>
                  TRANSFORM_OT_keyframes_shift.execute select_all_DESELECT
                    self' h gp scene
              end
              = TRANSFORM_OT_keyframes_shift.execute select_all_DESELECT
                  self' h gp scene)
      by (destruct found; [congruence|reflexivity]).
    split.
    + intros ->. destruct found; [congruence|reflexivity].
    + intros ->. rewrite Hrun. split; [reflexivity|].
      intros first Hfirst.
      set (d' := Z.max (TRANSFORM_OT_keyframes_shift.offset self)
                   (Scene.frame_current scene + 1 - fnum h first)).
      assert (Hd' : d' = Z.max (TRANSFORM_OT_keyframes_shift.offset self')
                           (Scene.frame_current scene + 1 - fnum h first))
        by now rewrite Ho.
      split.
      * intros Hzero.
        apply (execute_cancelled self' scene h h gp found 0 first);
          [now rewrite Hinv'|now apply Hs|exact Hfirst|now rewrite <- Hd'].
      * intros Hnz Hwithin.
        destruct (execute_finished self' scene h h gp found 0 first)
          as (h' & E & Hs' & _);
          [now rewrite Hinv'|now apply Hs|exact Hfirst|now rewrite <- Hd'
          |now rewrite <- Hd'|].
        exists h'. split; [exact E|]. rewrite <- Hd' in Hs'.
        destruct Hs' as (_ & _ & _ & _ & _ & Hmem' & Hout').
        split; [intros r Hr; now apply Hmem'|exact Hout'].
  - intros r. unfold found. rewrite In_get_gp_keyframes. split.
    + intros (i & layer & Hl & Hsat & Hr & Hrange & _).
      exists i, layer. split; [exact Hl|]. split.
      * rewrite <- layer_matches_options. now apply layer_matches_satisfies.
      * split; [exact Hr|lia].
    + intros (i & layer & Hl & Hp & Hr & Hrange).
      exists i, layer. split; [exact Hl|]. split.
      * apply layer_matches_satisfies. now rewrite layer_matches_options.
      * split; [exact Hr|]. split; [lia|].
        split; intros H; vm_compute in H; discriminate.
Qed.

End ShiftOperator.

Lemma fixture_shift_gp_owned : NoDup (flat_map frames (layers fixture_shift_gp)).
Proof.
  simpl. repeat (constructor; [simpl; intuition discriminate|]). constructor.
Defined.

Lemma fixture_shifted_by (offset : Z) :
  shifted_by
    (TRANSFORM_OT_keyframes_shift.setup (fixture_operator offset) fixture_store
       fixture_shift_gp fixture_scene)
    fixture_scene fixture_store fixture_store [7; 9; 12]%nat 0.
Proof.
  apply (setup_shifted_by (fixture_operator offset) fixture_store
           fixture_shift_gp fixture_scene fixture_shift_gp_owned).
  discriminate.
Defined.

Lemma keyframes_shift_execute_witness :
  exists st h',
    TRANSFORM_OT_keyframes_shift.execute fixture_deselect
      (TRANSFORM_OT_keyframes_shift.setup (fixture_operator 2) fixture_store
         fixture_shift_gp fixture_scene)
      fixture_store fixture_shift_gp fixture_scene
    = (Ok (st,
           TRANSFORM_OT_keyframes_shift.setup (fixture_operator 2) fixture_store
             fixture_shift_gp fixture_scene),
       h')
    /\ shifted_by
         (TRANSFORM_OT_keyframes_shift.setup (fixture_operator 2) fixture_store
            fixture_shift_gp fixture_scene)
         fixture_scene fixture_store h' [7; 9; 12]%nat 2
    /\ st = FINISHED.
Proof.
  destruct (keyframes_shift_execute fixture_deselect (fun g r => eq_refl)
              (TRANSFORM_OT_keyframes_shift.setup (fixture_operator 2)
                 fixture_store fixture_shift_gp fixture_scene)
              fixture_scene fixture_store fixture_store fixture_shift_gp
              [7; 9; 12]%nat 0 7%nat eq_refl (fixture_shifted_by 2) eq_refl)
    as (st & h' & E & Hs & _ & Hdiff & _).
  - intros r [<-|[<-|[<-|[]]]]; vm_compute; split; discriminate.
  - exists st, h'. split; [exact E|]. split; [exact Hs|].
    apply Hdiff. discriminate.
Defined.

Lemma keyframes_shift_cancel_witness :
  exists self' h',
    TRANSFORM_OT_keyframes_shift.cancel fixture_deselect
      (TRANSFORM_OT_keyframes_shift.setup (fixture_operator 2) fixture_store
         fixture_shift_gp fixture_scene)
      fixture_store fixture_shift_gp fixture_scene
    = (Ok self', h')
    /\ TRANSFORM_OT_keyframes_shift.offset self' = 0
    /\ forall r, fnum h' r = fnum fixture_store r.
Proof.
  apply (keyframes_shift_cancel fixture_deselect (fun g r => eq_refl)
           (TRANSFORM_OT_keyframes_shift.setup (fixture_operator 2)
              fixture_store fixture_shift_gp fixture_scene)
           fixture_scene fixture_store fixture_store fixture_shift_gp
           [7; 9; 12]%nat 0 eq_refl (fixture_shifted_by 2)).
  - intros H. vm_compute in H. discriminate.
  - intros r [<-|[<-|[<-|[]]]]; vm_compute; split; discriminate.
Defined.

Lemma keyframes_shift_invoke_witness :
  TRANSFORM_OT_keyframes_shift.invoke fixture_deselect (fixture_operator 0)
    fixture_store fixture_shift_gp fixture_scene
  = (Ok (RUNNING_MODAL,
         TRANSFORM_OT_keyframes_shift.setup (fixture_operator 0) fixture_store
           fixture_shift_gp fixture_scene),
     fixture_store).
Proof.
  apply (keyframes_shift_invoke fixture_deselect (fun g r => eq_refl)
           (fixture_operator 0)
           fixture_store fixture_shift_gp fixture_scene
           fixture_shift_gp_owned eq_refl).
  - discriminate.
  - reflexivity.
Defined.

(** The interactive use on the fixture: invoke, two moves of the mouse and
    a cancel leave the keyframes where they were; the keyframes after frame
    5 cannot come nearer than frame 6. *)
Example test_keyframes_shift_modal :
  let invoked :=
    TRANSFORM_OT_keyframes_shift.setup (fixture_operator 0) fixture_store
      fixture_shift_gp fixture_scene in
  let moved := TRANSFORM_OT_keyframes_shift.set_offset invoked (-4) in
  match TRANSFORM_OT_keyframes_shift.execute fixture_deselect moved
          fixture_store fixture_shift_gp fixture_scene with
  | (Ok (st, _), h1) =>
      st = FINISHED
      /\ map (fnum h1) [3; 4; 5; 7; 9; 12]%nat = [3; 4; 5; 6; 8; 11]
      /\ match TRANSFORM_OT_keyframes_shift.cancel fixture_deselect moved h1
                 fixture_shift_gp fixture_scene with
         | (Ok _, h2) =>
             map (fnum h2) [3; 4; 5; 7; 9; 12]%nat = [3; 4; 5; 7; 9; 12]
         | _ => False
         end
  | _ => False
  end.
Proof. vm_compute. repeat split. Qed.

(** The same without the modal handler: invoked with the default offset 0
    and [interactive] off, the operator finds keyframes and is cancelled. *)
Example test_keyframes_shift_invoke_default :
  fst (TRANSFORM_OT_keyframes_shift.invoke fixture_deselect
         (TRANSFORM_OT_keyframes_shift.mk 0 false false false true None None)
         fixture_store fixture_shift_gp fixture_scene)
  = Ok (CANCELLED,
        TRANSFORM_OT_keyframes_shift.setup
          (TRANSFORM_OT_keyframes_shift.mk 0 false false false true None None)
          fixture_store fixture_shift_gp fixture_scene).
Proof. reflexivity. Qed.

(** At the host's frame limit the keyframes do not stay at one distance,
    and a cancel does not restore them: set up on keyframes at frames
    1048570 and 1048574, an offset of 10 and then a cancel leave both at
    frame 1048570.  An offset beyond the C int range raises. *)
Example test_keyframes_shift_limit :
  let h := store_of (fun r => if (r =? 0)%nat then 1048570 else 1048574) in
  let gp := fixture_gp [fixture_layer [0; 1]%nat] (Some 0%nat) in
  let invoked :=
    TRANSFORM_OT_keyframes_shift.setup (fixture_operator 0) h gp fixture_scene in
  let moved := TRANSFORM_OT_keyframes_shift.set_offset invoked 10 in
  match TRANSFORM_OT_keyframes_shift.execute fixture_deselect moved h gp
          fixture_scene with
  | (Ok (st, _), h1) =>
      st = FINISHED
      /\ map (fnum h1) [0; 1]%nat = [1048574; 1048574]
      /\ match TRANSFORM_OT_keyframes_shift.cancel fixture_deselect moved h1
                 gp fixture_scene with
         | (Ok _, h2) => map (fnum h2) [0; 1]%nat = [1048570; 1048570]
         | _ => False
         end
  | _ => False
  end
  /\ fst (TRANSFORM_OT_keyframes_shift.execute fixture_deselect
            (TRANSFORM_OT_keyframes_shift.set_offset invoked 2147483647) h gp
            fixture_scene)
     = Raise ValueError.
Proof. vm_compute. repeat split. Qed.

(** *** GPencilCurrentKeyframeSettings.duration *)

Lemma find_ext_in {A} (P Q : A -> bool) (l : list A) :
  (forall x, In x l -> P x = Q x) -> find P l = find Q l.
Proof.
  induction l as [|x l IH]; simpl; intros H; [reflexivity|].
  rewrite <- (H x) by now left.
  destruct (P x); [reflexivity|]. apply IH. intros y Hy. apply H. now right.
Qed.

Lemma find_first_later (h : fstore) (l : list fref) (n : Z) (next : fref) :
  StronglySorted (fun a b => fnum h a < fnum h b) l ->
  In next l -> n < fnum h next ->
  exists first,
    find (fun kf => fnum h kf >? n) l = Some first
    /\ In first l /\ n < fnum h first
    /\ forall kf, In kf l -> n < fnum h kf -> fnum h first <= fnum h kf.
Proof.
  intros Hs Hin Hlt.
  destruct (find (fun kf => fnum h kf >? n) l) as [first|] eqn:Ef.
  - exists first. split; [reflexivity|].
    assert (Hs' : StronglySorted (fun a b => fnum h a <= fnum h b) l)
      by (apply (StronglySorted_weaken (fun a b => fnum h a < fnum h b));
          [intros a b; lia|exact Hs]).
    destruct (find_sorted (fun a b => fnum h a <= fnum h b) _ l first
                ltac:(intros a; simpl; lia) Hs' Ef) as (Hf & Hp & Hall).
    rewrite Z.gtb_ltb in Hp. apply Z.ltb_lt in Hp.
    split; [exact Hf|]. split; [exact Hp|].
    intros kf Hkf Hk. apply Hall; [exact Hkf|].
    rewrite Z.gtb_ltb. now apply Z.ltb_lt.
  - apply (find_none _ _ Ef) in Hin. rewrite Z.gtb_ltb in Hin.
    apply Z.ltb_ge in Hin. lia.
Qed.

Lemma frame_set_returns (scene : Scene.t) (n : Z) :
  in_frame_range n ->
  Scene.frame_set scene n
  = Ok (Scene.mk n (Scene.frame_preview_start scene)
          (Scene.frame_preview_end scene) (Scene.use_preview_range scene)).
Proof.
  intros Hn. assert (Hc := in_frame_range_c_int n Hn). destruct Hc as [Hlo Hhi].
  unfold Scene.frame_set.
  rewrite (proj2 (Z.ltb_ge n INT_MIN)) by exact Hlo.
  rewrite (proj2 (Z.ltb_ge INT_MAX n)) by exact Hhi.
  cbn [orb]. now rewrite kept_frame_spec, kept_frame_id.
Qed.

Section CurrentKeyframeFacts.

Variable active_frame : GPencilLayer -> option fref.

(** X6.  Away from the host's frame limit, the duration that is set is the
    duration that is read.  When the active layer is unlocked, holds its
    keyframes in ascending order of frame number and has a keyframe after
    the active one, when the frame numbers of these keyframes are in the
    host's range [-1048574, 1048574], and when the keyframes after the
    active one, moved by the duration asked for minus the current one,
    stay at or before frame 1048574: setting a duration of at least 1
    returns, moves the scene to the active keyframe, leaves the keyframes
    at or before it as they are, and the getter then gives that
    duration. *)
Theorem current_keyframe_duration_round_trip (h : fstore) (gpd : GreasePencil)
    (scene : Scene.t) (duration current : Z) (active : GPencilLayer)
    (gpf next : fref) :
  NoDup (flat_map frames (layers gpd)) ->
  layers_active gpd = Some active ->
  lock active = false ->
  active_frame active = Some gpf ->
  StronglySorted (fun a b => fnum h a < fnum h b) (frames active) ->
  In next (frames active) ->
  fnum h gpf < fnum h next ->
  in_frame_range (fnum h gpf) ->
  (forall kf, In kf (frames active) -> in_frame_range (fnum h kf)) ->
  get_current_keyframe_duration active_frame h gpd = Ok current ->
  (forall kf, In kf (frames active) -> fnum h gpf < fnum h kf ->
              fnum h kf + (duration - current) <= MAXFRAME) ->
  1 <= duration ->
  exists h' scene',
    set_current_keyframe_duration active_frame h gpd scene duration
    = (Ok tt, (h', scene'))
    /\ get_current_keyframe_duration active_frame h' gpd = Ok duration
    /\ Scene.frame_current scene' = fnum h gpf
    /\ (forall r, fnum h r <= fnum h gpf -> h' r = h r).
Proof.
  intros Hown Hact Hlock Haf Hsorted Hnext Hlater Hgpf Hrange Hcur Hlimit Hdur.
  destruct (find_first_later h (frames active) (fnum h gpf) next
              Hsorted Hnext Hlater) as (first & Ef & Hfin & Hflt & Hfmin).
  assert (Hget : forall g,
            get_current_keyframe_duration active_frame g gpd
            = match find (fun kf => fnum g kf >? fnum g gpf) (frames active) with
              | Some kf => Ok (fnum g kf - fnum g gpf)
              | None => Ok 0
              end).
  { intros g. unfold get_current_keyframe_duration, get_active_gp_keyframe.
    rewrite Hact, Haf. reflexivity. }
  assert (Ecur : current = fnum h first - fnum h gpf).
  { rewrite Hget, Ef in Hcur. now inversion Hcur. }
  subst current.
  unfold set_current_keyframe_duration, get_active_gp_keyframe.
  rewrite Hact, Haf, Hget, Ef.
  rewrite (frame_set_returns scene (fnum h gpf) Hgpf).
  set (cur := fnum h first - fnum h gpf) in *.
  set (scene' := Scene.mk (fnum h gpf) (Scene.frame_preview_start scene)
                   (Scene.frame_preview_end scene)
                   (Scene.use_preview_range scene)).
  unfold shift_gp_keyframes.
  set (K := get_gp_keyframes h gpd (layer_options_to_traits true true false)
              FrameTraits_NONE (fnum h gpf + 1) sys_maxsize).
  assert (Hactive : exists a, active_index gpd = Some a
                              /\ nth_error (layers gpd) a = Some active).
  { unfold layers_active in Hact.
    destruct (active_index gpd) as [a|]; [|discriminate]. now exists a. }
  destruct Hactive as (a & Ha & Hnth).
  assert (HK : forall r, In r K <-> In r (frames active) /\ fnum h gpf < fnum h r).
  { intros r. unfold K. rewrite In_get_gp_keyframes. split.
    - intros (i & layer & Hi & Hsat & Hr & Hran & _).
      apply layer_matches_satisfies in Hsat.
      rewrite layer_matches_options in Hsat.
      unfold passes_options, is_active_layer in Hsat. rewrite Ha in Hsat.
      simpl in Hsat. rewrite !andb_true_iff in Hsat.
      destruct Hsat as ((Hi' & _) & _). apply Nat.eqb_eq in Hi'. subst i.
      rewrite Hnth in Hi. inversion Hi; subst layer. split; [exact Hr|lia].
    - intros (Hr & Hlt). exists a, active. split; [exact Hnth|]. split.
      + apply layer_matches_satisfies. rewrite layer_matches_options.
        unfold passes_options, is_active_layer. rewrite Ha, Nat.eqb_refl, Hlock.
        reflexivity.
      + split; [exact Hr|]. split.
        * assert (H1 := Hrange r Hr). unfold in_frame_range in H1.
          assert (H2 : MAXFRAME <= sys_maxsize) by (vm_compute; discriminate).
          lia.
        * split; intros H; vm_compute in H; discriminate. }
  assert (HKnd : NoDup K) by now apply get_gp_keyframes_NoDup.
  assert (HKne : K <> []).
  { intros E. assert (Hin : In first K) by (apply HK; tauto).
    rewrite E in Hin. contradiction. }
  assert (Hex : exists r, In r K /\ fnum h r = fnum h first).
  { exists first. split; [apply HK; tauto|reflexivity]. }
  assert (Hleast : forall r, In r K -> fnum h first <= fnum h r).
  { intros r Hr. apply HK in Hr. now apply Hfmin. }
  destruct K as [|k ks] eqn:EK; [congruence|]. rewrite <- EK in *.
  destruct (Z.eq_dec (duration - cur) 0) as [E0|E0].
  - rewrite (shift_keyframes_refused K (duration - cur) (fnum h gpf + 1) false
               h (fnum h first) HKne Hex Hleast)
      by (right; right; cbn [andb]; exact E0).
    cbn [bind]. exists h, scene'.
    split; [reflexivity|]. split; [|split; [reflexivity|reflexivity]].
    rewrite Hget, Ef. f_equal. unfold cur in E0. lia.
  - set (off := duration - cur) in *.
    destruct (shift_keyframes_within K off (fnum h gpf + 1) false h
                (fnum h first) HKne HKnd Hex Hleast)
      as (h' & E & Hin & Hothers).
    + lia.
    + intros _. unfold off, cur. lia.
    + cbn [andb]. exact E0.
    + cbn [andb]. intros r Hr. apply HK in Hr. destruct Hr as [Hr Hlt].
      assert (H1 := Hlimit r Hr Hlt). assert (H2 := Hfmin r Hr Hlt).
      fold off in H1. unfold in_frame_range in *. unfold off, cur in *. lia.
    + cbn [andb] in Hin. rewrite E. cbn [bind]. exists h', scene'.
      split; [reflexivity|].
      assert (Hbefore : forall r, fnum h r <= fnum h gpf -> h' r = h r).
      { intros r Hr. apply Hothers. intros Hr'. apply HK in Hr'. lia. }
      assert (Hafter : forall r, In r K -> fnum h' r = fnum h r + off)
        by (intros r Hr; now apply Hin).
      assert (Hgpf' : fnum h' gpf = fnum h gpf)
        by (unfold fnum; rewrite Hbefore; [reflexivity|unfold fnum; lia]).
      split; [|split; [reflexivity|exact Hbefore]].
      rewrite Hget.
      rewrite (find_ext_in _ (fun kf => fnum h kf >? fnum h gpf)).
      * rewrite Ef. f_equal.
        rewrite Hgpf', (Hafter first) by (apply HK; tauto).
        unfold off, cur. lia.
      * intros kf Hkf. rewrite Hgpf', !Z.gtb_ltb.
        destruct (Z.ltb_spec (fnum h gpf) (fnum h kf)) as [Hlt|Hge].
        -- rewrite (Hafter kf) by (apply HK; tauto).
           apply Z.ltb_lt. specialize (Hfmin kf Hkf Hlt). unfold off, cur. lia.
        -- unfold fnum at 2. rewrite Hbefore by exact Hge.
           apply Z.ltb_ge. exact Hge.
Qed.

End CurrentKeyframeFacts.

Lemma current_keyframe_duration_round_trip_witness :
  exists h' scene',
    set_current_keyframe_duration (fun layer => Some 7%nat) fixture_store
      fixture_shift_gp fixture_scene 4 = (Ok tt, (h', scene'))
    /\ get_current_keyframe_duration (fun layer => Some 7%nat) h'
         fixture_shift_gp = Ok 4
    /\ Scene.frame_current scene' = fnum fixture_store 7%nat
    /\ (forall r, fnum fixture_store r <= fnum fixture_store 7%nat ->
                  h' r = fixture_store r).
Proof.
  apply (current_keyframe_duration_round_trip (fun layer => Some 7%nat)
           fixture_store fixture_shift_gp fixture_scene 4 2
           (fixture_layer [7; 9; 12]%nat) 7%nat 9%nat).
  - exact fixture_shift_gp_owned.
  - reflexivity.
  - reflexivity.
  - reflexivity.
  - repeat (constructor; [repeat constructor|]). constructor.
  - simpl. tauto.
  - reflexivity.
  - vm_compute; split; discriminate.
  - intros kf [<-|[<-|[<-|[]]]]; vm_compute; split; discriminate.
  - reflexivity.
  - intros kf [<-|[<-|[<-|[]]]] _; vm_compute; discriminate.
  - lia.
Defined.

(** The keyframe at frame 7 lasts 2 frames; once its duration is set to 4
    the next ones are at frames 11 and 14. *)
Example test_set_current_keyframe_duration :
  get_current_keyframe_duration (fun layer => Some 7%nat) fixture_store
    fixture_shift_gp = Ok 2
  /\ match set_current_keyframe_duration (fun layer => Some 7%nat)
             fixture_store fixture_shift_gp fixture_scene 4 with
     | (Ok _, (h', scene')) =>
         map (fnum h') [3; 4; 5; 7; 9; 12]%nat = [3; 4; 5; 7; 11; 14]
         /\ Scene.frame_current scene' = 7
     | _ => False
     end.
Proof. vm_compute. repeat split. Qed.

(** At the host's frame limit the duration read is not the duration set:
    a duration of 2000000 leaves the later keyframes at frame 1048574. *)
Example test_set_current_keyframe_duration_limit :
  match set_current_keyframe_duration (fun layer => Some 7%nat)
          fixture_store fixture_shift_gp fixture_scene 2000000 with
  | (Ok _, (h', _)) =>
      map (fnum h') [7; 9; 12]%nat = [7; 1048574; 1048574]
      /\ get_current_keyframe_duration (fun layer => Some 7%nat) h'
           fixture_shift_gp = Ok 1048567
  | _ => False
  end.
Proof. vm_compute. repeat split. Qed.
